(** * iavl-migration: the v2 -> v3 store migration, embedded in Rocq

    A shallow embedding of [v2/migrate_v2.go]: the shard arithmetic
    ([ToShardID], [calculateShardRange]), the tree store migrator
    ([migrateTree]), the changelog store migrator ([migrateChangelog]) and
    the per-store driver ([migrateStore]).

    Go's [int64] is a [Z] with the wrap-around written out.  The SQLite
    engine is modelled by the meaning of exactly the statements the program
    issues; every database operation may also fail for a reason outside the
    data (I/O, locking, ...), which an oracle indexed by the position of the
    operation decides. *)

From Stdlib Require Import Strings.String Strings.Byte.
From Stdlib Require Import ZArith List Bool Lia Permutation Sorted.
Import ListNotations.
Local Open Scope Z_scope.

(** ** 64-bit signed integers *)

Module Int64.

Definition min_int : Z := - 2 ^ 63.
Definition max_int : Z := 2 ^ 63 - 1.

Definition in_range (z : Z) : Prop := min_int <= z <= max_int.

(** Two's complement wrap-around of an exact result. *)
Definition wrap (z : Z) : Z := (z + 2 ^ 63) mod 2 ^ 64 - 2 ^ 63.

Definition add (a b : Z) : Z := wrap (a + b).
Definition sub (a b : Z) : Z := wrap (a - b).
Definition mul (a b : Z) : Z := wrap (a * b).
(** Go's [/] truncates toward zero. *)
Definition quot (a b : Z) : Z := wrap (Z.quot a b).

End Int64.

(** ** Shard arithmetic *)

Definition defaultStartShardID : Z := 1.
Definition defaultTreeShardSize : Z := 500000.

(** [ToShardID]: the shard of a version. *)
Definition ToShardID (version : Z) : Z :=
  if version <=? 0 then defaultStartShardID
  else Int64.add (Int64.quot (Int64.sub version 1) defaultTreeShardSize)
                 defaultStartShardID.

(** The loop [for shardID := minShard; shardID <= maxShard; shardID++] of
    [calculateShardRange].  [None] is the loop still running when the fuel is
    spent. *)
Fixpoint shard_loop (fuel : nat) (shardID maxShard : Z) (shards : list Z)
  : option (list Z) :=
  match fuel with
  | O => None
  | S fuel' =>
      if shardID <=? maxShard
      then shard_loop fuel' (Int64.add shardID 1) maxShard (shards ++ [shardID])
      else Some shards
  end.

Definition shard_loop_fuel (minShard maxShard : Z) : nat :=
  S (Z.to_nat (maxShard - minShard + 1)).

(** [calculateShardRange].  The loop is run with [shard_loop_fuel]; on 64-bit
    bounds it has then left through its condition, and with any more fuel it
    gives the same shards. *)
Definition calculateShardRange (minVersion maxVersion : Z) : list Z :=
  if (minVersion <=? 0) || (maxVersion <=? 0) then [1]
  else
    let minShard := ToShardID minVersion in
    let maxShard := ToShardID maxVersion in
    match shard_loop (shard_loop_fuel minShard maxShard) minShard maxShard [] with
    | Some shards => shards
    | None => []
    end.

(** The version window of a shard, as [migrateTree] computes it before it
    formats the INSERT ... SELECT of that shard. *)
Definition startVersion (shardID : Z) : Z :=
  Int64.add (Int64.mul (Int64.sub shardID 1) 500000) 1.

Definition endVersion (shardID : Z) : Z := Int64.mul shardID 500000.

(** [WHERE version >= startVersion AND version <= endVersion] on a non-NULL
    version. *)
Definition in_window (shardID version : Z) : bool :=
  (startVersion shardID <=? version) && (version <=? endVersion shardID).

(** The greatest version whose shard has a window that does not overflow. *)
Definition max_safe_version : Z := 9223372036854500000.

(** The integers from [lo] to [hi], ascending. *)
Definition Z_range (lo hi : Z) : list Z :=
  map (fun i => lo + Z.of_nat i) (seq 0 (Z.to_nat (hi - lo + 1))).

(** ** Rows and tables

    An INT column holds NULL ([None]) or a 64-bit integer.  A table with a
    rowid is the list of its rows in rowid order. *)

Record BranchRow := mkBranch {
  br_version : option Z;
  br_sequence : option Z;
  br_bytes : list byte;
  br_orphaned : bool }.

Record RootRow := mkRoot {
  rt_version : option Z;
  rt_node_version : option Z;
  rt_node_sequence : option Z;
  rt_bytes : list byte }.

Record OrphanRow := mkOrphan {
  or_version : option Z;
  or_sequence : option Z;
  or_at : option Z }.

Definition optZ_eqb (a b : option Z) : bool :=
  match a, b with
  | Some x, Some y => x =? y
  | None, None => true
  | _, _ => false
  end.

(** PARTITION BY puts two NULLs in one partition. *)
Definition same_key (a b : BranchRow) : bool :=
  optZ_eqb (br_version a) (br_version b) &&
  optZ_eqb (br_sequence a) (br_sequence b).

(** Primary keys of the three WITHOUT ROWID target tables; [None] when a key
    column is NULL. *)
Definition branch_pk (r : BranchRow) : option (Z * Z) :=
  match br_version r, br_sequence r with
  | Some v, Some s => Some (v, s)
  | _, _ => None
  end.

Definition root_pk (r : RootRow) : option Z := rt_version r.

Definition orphan_pk (r : OrphanRow) : option (Z * (Z * Z)) :=
  match or_at r, or_version r, or_sequence r with
  | Some a, Some v, Some s => Some (a, (v, s))
  | _, _, _ => None
  end.

Definition pair_eqb {A B : Type} (ea : A -> A -> bool) (eb : B -> B -> bool)
  (x y : A * B) : bool :=
  ea (fst x) (fst y) && eb (snd x) (snd y).

Section Insert.
Context {R K : Type} (pk : R -> option K) (K_eqb : K -> K -> bool).

Definition has_pk (k : K) (r : R) : bool :=
  match pk r with
  | Some k' => K_eqb k k'
  | None => false
  end.

(** INSERT of [new] into a WITHOUT ROWID table: a NULL key column or a key
    already present aborts the statement ([None]). *)
Fixpoint insert_rows (tbl new : list R) : option (list R) :=
  match new with
  | [] => Some tbl
  | r :: rest =>
      match pk r with
      | None => None
      | Some k =>
          if existsb (has_pk k) tbl then None
          else insert_rows (tbl ++ [r]) rest
      end
  end.

End Insert.

(** [WHERE version >= lo AND version <= hi]: NULL satisfies no comparison. *)
Definition where_version (lo hi : Z) (r : BranchRow) : bool :=
  match br_version r with
  | Some v => (lo <=? v) && (v <=? hi)
  | None => false
  end.

(** [ROW_NUMBER() OVER (PARTITION BY version, sequence ORDER BY rowid)]:
    each row with one plus the number of rows of its partition before it. *)
Fixpoint row_numbers (before rows : list BranchRow) : list (BranchRow * Z) :=
  match rows with
  | [] => []
  | r :: rest =>
      (r, 1 + Z.of_nat (length (filter (same_key r) before)))
        :: row_numbers (before ++ [r]) rest
  end.

(** The rows numbered 1: the first row, in rowid order, of every
    (version, sequence). *)
Definition keep_first (rows : list BranchRow) : list BranchRow :=
  map fst (filter (fun p => snd p =? 1) (row_numbers [] rows)).

(** The SELECT of a shard's INSERT ... SELECT, on the rows of [old.tree_1]:
    the WHERE clause applies before the window function. *)
Definition select_shard (lo hi : Z) (tree_1 : list BranchRow) : list BranchRow :=
  keep_first (filter (where_version lo hi) tree_1).

(** [SELECT MIN(version), MAX(version) ... WHERE version IS NOT NULL]. *)
Definition versions (rows : list BranchRow) : list Z :=
  flat_map (fun r => match br_version r with Some v => [v] | None => [] end) rows.

Definition sql_min (l : list Z) : option Z :=
  match l with
  | [] => None
  | x :: xs => Some (fold_left Z.min xs x)
  end.

Definition sql_max (l : list Z) : option Z :=
  match l with
  | [] => None
  | x :: xs => Some (fold_left Z.max xs x)
  end.

(** ** Errors, outcomes and the migrators' monad *)

Inductive sqlerr := ErrNoRows | ErrSchema | ErrConstraint | ErrIO.

Definition is_ErrNoRows (e : sqlerr) : bool :=
  match e with ErrNoRows => true | _ => false end.

Inductive error :=
| ErrorNew (msg : string)                 (* errors.New(msg) *)
| ErrorWrap (what : string) (cause : sqlerr) (* fmt.Errorf(what: %w, err) *)
| ErrorSql (cause : sqlerr)               (* return err *)
| ErrorScan                               (* rows.Scan of NULL into an int *)
| ErrorMkdir.                             (* os.MkdirAll *)

(** What a migrator does: it returns ([Val] is a nil error), returns an
    error, or ends the process in [log.Fatalf] at operation [op]. *)
Inductive result (O A : Type) :=
| Val (a : A)
| Err (e : error)
| Fatal (op : O) (e : sqlerr).
Arguments Val {O A} a.
Arguments Err {O A} e.
Arguments Fatal {O A} op e.

Definition M (O S A : Type) : Type := S -> result O A * S.

Definition ret {O S A} (a : A) : M O S A := fun s => (Val a, s).

Definition fail {O S A} (e : error) : M O S A := fun s => (Err e, s).

Definition bind {O S A B} (m : M O S A) (k : A -> M O S B) : M O S B :=
  fun s =>
    match m s with
    | (Val a, s') => k a s'
    | (Err e, s') => (Err e, s')
    | (Fatal op e, s') => (Fatal op e, s')
    end.

Declare Scope migr_scope.
Delimit Scope migr_scope with migr.
Notation "x <- m ;; k" := (bind m (fun x => k))
  (at level 100, m at next level, right associativity) : migr_scope.
Notation "m ;;; k" := (bind m (fun _ => k))
  (at level 100, right associativity) : migr_scope.

Fixpoint for_each {O S A} (l : list A) (body : A -> M O S unit) : M O S unit :=
  match l with
  | [] => ret tt
  | x :: xs => bind (body x) (fun _ => for_each xs body)
  end.

(** The environment of one migrator run: [env_fault n] makes the [n]-th
    database operation of the run fail with an I/O error whatever the data;
    [env_mkdir_ok] is the success of [os.MkdirAll]. *)
Record Env := mkEnv {
  env_fault : nat -> bool;
  env_mkdir_ok : bool }.

Definition no_fault : nat -> bool := fun _ => false.

Definition fault_at (env : Env) (n : nat) : option sqlerr :=
  if env_fault env n then Some ErrIO else None.

(** ** The tree store migrator *)

(** The source store file: a table that is absent is [None]. *)
Record TreeSource := mkTreeSource {
  src_tree_1 : option (list BranchRow);
  src_root : option (list RootRow);
  src_orphan : option (list OrphanRow) }.

(** The destination store file, and whether [old] is attached to its
    connection.  Shard table [tree_<id>] is the entry of [id]. *)
Record TreeDest := mkTreeDest {
  dst_root : option (list RootRow);
  dst_branch_orphan : option (list OrphanRow);
  dst_shards : list (Z * list BranchRow);
  dst_attached : bool }.

Definition empty_tree_dest : TreeDest := mkTreeDest None None [] false.

(** The statements [migrateTree] runs on the destination through its [exec]
    closure, and the queries it runs on the source. *)
Inductive tree_stmt :=
| CreateBranchOrphan
| CreateRoot
| AttachOld
| DetachOld
| CopyRoot
| CopyOrphan
| CreateShard (shardID : Z)
| CopyShard (shardID startV endV : Z).

Inductive tree_query := CountTree1 | CountRoot | MinMaxVersion.

Inductive tree_op := TExec (s : tree_stmt) | TQuery (q : tree_query).

Fixpoint find_shard (id : Z) (shards : list (Z * list BranchRow))
  : option (list BranchRow) :=
  match shards with
  | [] => None
  | (id', t) :: rest => if id' =? id then Some t else find_shard id rest
  end.

Definition set_shard (id : Z) (t : list BranchRow)
  (shards : list (Z * list BranchRow)) : list (Z * list BranchRow) :=
  map (fun p => if fst p =? id then (id, t) else p) shards.

(** The meaning of one statement on the destination; [old] is the attached
    source file.  A failed statement changes nothing. *)
Definition exec_tree_stmt (old : TreeSource) (s : tree_stmt) (db : TreeDest)
  : sqlerr + TreeDest :=
  match s with
  | CreateBranchOrphan =>
      match dst_branch_orphan db with
      | Some _ => inl ErrSchema
      | None => inr (mkTreeDest (dst_root db) (Some []) (dst_shards db)
                       (dst_attached db))
      end
  | CreateRoot =>
      match dst_root db with
      | Some _ => inl ErrSchema
      | None => inr (mkTreeDest (Some []) (dst_branch_orphan db) (dst_shards db)
                       (dst_attached db))
      end
  | AttachOld =>
      if dst_attached db then inl ErrSchema
      else inr (mkTreeDest (dst_root db) (dst_branch_orphan db) (dst_shards db)
                  true)
  | DetachOld =>
      if dst_attached db
      then inr (mkTreeDest (dst_root db) (dst_branch_orphan db) (dst_shards db)
                  false)
      else inl ErrSchema
  | CopyRoot =>
      match dst_attached db, src_root old, dst_root db with
      | true, Some rows, Some tbl =>
          match insert_rows root_pk Z.eqb tbl rows with
          | Some tbl' => inr (mkTreeDest (Some tbl') (dst_branch_orphan db)
                                (dst_shards db) (dst_attached db))
          | None => inl ErrConstraint
          end
      | _, _, _ => inl ErrSchema
      end
  | CopyOrphan =>
      match dst_attached db, src_orphan old, dst_branch_orphan db with
      | true, Some rows, Some tbl =>
          match insert_rows orphan_pk (pair_eqb Z.eqb (pair_eqb Z.eqb Z.eqb))
                  tbl rows with
          | Some tbl' => inr (mkTreeDest (dst_root db) (Some tbl')
                                (dst_shards db) (dst_attached db))
          | None => inl ErrConstraint
          end
      | _, _, _ => inl ErrSchema
      end
  | CreateShard id =>
      match find_shard id (dst_shards db) with
      | Some _ => inl ErrSchema
      | None => inr (mkTreeDest (dst_root db) (dst_branch_orphan db)
                       (dst_shards db ++ [(id, [])]) (dst_attached db))
      end
  | CopyShard id lo hi =>
      match dst_attached db, src_tree_1 old, find_shard id (dst_shards db) with
      | true, Some rows, Some tbl =>
          match insert_rows branch_pk (pair_eqb Z.eqb Z.eqb) tbl
                  (select_shard lo hi rows) with
          | Some tbl' => inr (mkTreeDest (dst_root db) (dst_branch_orphan db)
                                (set_shard id tbl' (dst_shards db))
                                (dst_attached db))
          | None => inl ErrConstraint
          end
      | _, _, _ => inl ErrSchema
      end
  end.

(** The answers of the source to the three queries. *)
Definition count_rows {R : Type} (tbl : option (list R)) : sqlerr + Z :=
  match tbl with
  | Some rows => inr (Z.of_nat (length rows))
  | None => inl ErrSchema
  end.

Definition min_max_version (old : TreeSource)
  : sqlerr + (option Z * option Z) :=
  match src_tree_1 old with
  | Some rows => inr (sql_min (versions rows), sql_max (versions rows))
  | None => inl ErrSchema
  end.

(** The state of a run: the destination and the log of the operations so
    far, each with its error if it failed. *)
Record TState := mkTState {
  ts_db : TreeDest;
  ts_log : list (tree_op * option sqlerr) }.

Definition tree_init : TState := mkTState empty_tree_dest [].

(** The [exec] closure: run the statement, [log.Fatalf] when it fails. *)
Definition exec (env : Env) (old : TreeSource) (s : tree_stmt)
  : M tree_op TState unit :=
  fun st =>
    let r := match fault_at env (length (ts_log st)) with
             | Some e => inl e
             | None => exec_tree_stmt old s (ts_db st)
             end in
    match r with
    | inr db' => (Val tt, mkTState db' (ts_log st ++ [(TExec s, None)]))
    | inl e => (Fatal (TExec s) e,
                mkTState (ts_db st) (ts_log st ++ [(TExec s, Some e)]))
    end.

(** [oldDB.QueryRow(...).Scan(...)]: the value or the error, handed to the
    caller. *)
Definition query {A : Type} (env : Env) (q : tree_query) (answer : sqlerr + A)
  : M tree_op TState (sqlerr + A) :=
  fun st =>
    let r := match fault_at env (length (ts_log st)) with
             | Some e => inl e
             | None => answer
             end in
    (Val r,
     mkTState (ts_db st)
       (ts_log st ++ [(TQuery q, match r with inl e => Some e | inr _ => None end)])).

Local Open Scope migr_scope.

(** The part of [migrateTree] after the version range is known. *)
Definition migrate_shards (env : Env) (old : TreeSource) (minV maxV : Z)
  : M tree_op TState unit :=
  let shardIDs := calculateShardRange minV maxV in
  for_each shardIDs (fun shardID => exec env old (CreateShard shardID)) ;;;
  for_each shardIDs (fun shardID =>
    exec env old (CopyShard shardID (startVersion shardID) (endVersion shardID))) ;;;
  exec env old DetachOld.

(** [migrateTree].  [sql.Open] does not fail for a registered driver and
    [os.Remove] is taken to leave no file at the destination path, so the run
    starts from [tree_init]. *)
Definition migrateTree (env : Env) (old : TreeSource) : M tree_op TState unit :=
  if negb (env_mkdir_ok env) then fail ErrorMkdir else
  exec env old CreateBranchOrphan ;;;
  exec env old CreateRoot ;;;
  exec env old AttachOld ;;;
  r <- query env CountTree1 (count_rows (src_tree_1 old)) ;;
  match r with
  | inl e => fail (ErrorWrap "failed to count rows in tree_1"%string e)
  | inr count =>
  r <- query env CountRoot (count_rows (src_root old)) ;;
  match r with
  | inl e => fail (ErrorWrap "failed to count rows in root"%string e)
  | inr rootCount =>
  if (count =? 0) && (rootCount =? 0) then exec env old DetachOld
  else
    (if 0 <? rootCount then exec env old CopyRoot else ret tt) ;;;
    exec env old CopyOrphan ;;;
    if 0 <? count then
      r <- query env MinMaxVersion (min_max_version old) ;;
      match r with
      | inl e =>
          if is_ErrNoRows e then exec env old DetachOld
          else fail (ErrorWrap "failed to query version range from tree_1"%string e)
      | inr (Some minVersion, Some maxVersion) =>
          migrate_shards env old minVersion maxVersion
      | inr (_, _) => exec env old DetachOld
      end
    else exec env old DetachOld
  end
  end.

Definition run_migrateTree (env : Env) (old : TreeSource)
  : result tree_op unit * TState :=
  migrateTree env old tree_init.

(** All rows of all shard tables of a destination. *)
Definition all_shard_rows (db : TreeDest) : list BranchRow :=
  concat (map snd (dst_shards db)).

Definition has_version (r : BranchRow) : bool :=
  match br_version r with Some _ => true | None => false end.

(** The deduplicated row set of a branch table: one row of every
    (version, sequence), the first in rowid order. *)
Definition dedup (rows : list BranchRow) : list BranchRow := keep_first rows.

(** ** The changelog store migrator *)

Record LeafRow := mkLeaf {
  lf_version : option Z;
  lf_sequence : option Z;
  lf_key : list byte;
  lf_bytes : list byte;
  lf_orphaned : option bool }.

(** A row of the target [leaf] table; the INSERT names no [orphaned], which
    is therefore NULL. *)
Record NewLeafRow := mkNewLeaf {
  nl_version : Z;
  nl_sequence : Z;
  nl_key_hash : list byte;
  nl_bytes : list byte;
  nl_orphaned : option bool }.

Record ChangelogSource := mkChangelogSource {
  src_leaf : option (list LeafRow);
  src_leaf_orphan : option (list OrphanRow) }.

Record ChangelogDest := mkChangelogDest {
  cd_leaf : option (list NewLeafRow);
  cd_leaf_idx : bool;
  cd_leaf_orphan : option (list OrphanRow) }.

Definition empty_changelog_dest : ChangelogDest :=
  mkChangelogDest None false None.

Fixpoint bytes_eqb (a b : list byte) : bool :=
  match a, b with
  | [], [] => true
  | x :: a', y :: b' => Byte.eqb x y && bytes_eqb a' b'
  | _, _ => false
  end.

(** PRIMARY KEY (key_hash, version) and, once [leaf_idx] exists, the unique
    index on (version, sequence). *)
Definition leaf_conflict (idx : bool) (r x : NewLeafRow) : bool :=
  (bytes_eqb (nl_key_hash r) (nl_key_hash x) && (nl_version r =? nl_version x))
  || (idx && (nl_version r =? nl_version x) && (nl_sequence r =? nl_sequence x)).

(** The operations of [migrateChangelog] on the two databases. *)
Inductive cl_op :=
| Begin
| TxCreateLeaf
| TxCreateLeafIdx
| TxCreateLeafOrphan
| QueryLeaf
| Prepare
| Next
| TxInsertLeaf (row : NewLeafRow)
| TxAttachOld
| TxCopyLeafOrphan
| Commit
| Detach.

(** The state of a run: what is committed in the destination file, the
    working copy of the open transaction, whether [old] is attached, the
    pooled hasher's pending input, and the log. *)
Record CState := mkCState {
  cs_committed : ChangelogDest;
  cs_tx : option ChangelogDest;
  cs_attached : bool;
  cs_hasher : list byte;
  cs_log : list (cl_op * option sqlerr) }.

Definition changelog_init (pooled : list byte) : CState :=
  mkCState empty_changelog_dest None false pooled [].

Definition set_tx (st : CState) (tx : option ChangelogDest) : CState :=
  mkCState (cs_committed st) tx (cs_attached st) (cs_hasher st) (cs_log st).

(** A statement inside the transaction, on its working copy. *)
Definition tx_stmt (old : ChangelogSource) (attached : bool) (op : cl_op)
  (tx : ChangelogDest) : sqlerr + ChangelogDest :=
  match op with
  | TxCreateLeaf =>
      match cd_leaf tx with
      | Some _ => inl ErrSchema
      | None => inr (mkChangelogDest (Some []) (cd_leaf_idx tx) (cd_leaf_orphan tx))
      end
  | TxCreateLeafIdx =>
      match cd_leaf tx with
      | Some _ => inr (mkChangelogDest (cd_leaf tx) true (cd_leaf_orphan tx))
      | None => inl ErrSchema
      end
  | TxCreateLeafOrphan =>
      match cd_leaf_orphan tx with
      | Some _ => inl ErrSchema
      | None => inr (mkChangelogDest (cd_leaf tx) (cd_leaf_idx tx) (Some []))
      end
  | TxInsertLeaf row =>
      match cd_leaf tx with
      | Some rows =>
          if existsb (leaf_conflict (cd_leaf_idx tx) row) rows
          then inl ErrConstraint
          else inr (mkChangelogDest (Some (rows ++ [row])) (cd_leaf_idx tx)
                      (cd_leaf_orphan tx))
      | None => inl ErrSchema
      end
  | TxCopyLeafOrphan =>
      match attached, src_leaf_orphan old, cd_leaf_orphan tx with
      | true, Some rows, Some tbl =>
          match insert_rows orphan_pk (pair_eqb Z.eqb (pair_eqb Z.eqb Z.eqb))
                  tbl rows with
          | Some tbl' => inr (mkChangelogDest (cd_leaf tx) (cd_leaf_idx tx)
                                (Some tbl'))
          | None => inl ErrConstraint
          end
      | _, _, _ => inl ErrSchema
      end
  | Prepare =>
      match cd_leaf tx with
      | Some _ => inr tx
      | None => inl ErrSchema
      end
  | _ => inl ErrSchema
  end.

(** The meaning of one operation on the state of the run. *)
Definition cl_step (old : ChangelogSource) (op : cl_op) (st : CState)
  : sqlerr + CState :=
  match op with
  | Begin =>
      match cs_tx st with
      | Some _ => inl ErrSchema
      | None => inr (set_tx st (Some (cs_committed st)))
      end
  | Commit =>
      match cs_tx st with
      | Some tx => inr (mkCState tx None (cs_attached st) (cs_hasher st) (cs_log st))
      | None => inl ErrSchema
      end
  | TxAttachOld =>
      match cs_tx st, cs_attached st with
      | Some _, false =>
          inr (mkCState (cs_committed st) (cs_tx st) true (cs_hasher st) (cs_log st))
      | _, _ => inl ErrSchema
      end
  | Detach =>
      match cs_tx st, cs_attached st with
      | None, true =>
          inr (mkCState (cs_committed st) (cs_tx st) false (cs_hasher st) (cs_log st))
      | _, _ => inl ErrSchema
      end
  | QueryLeaf =>
      match src_leaf old with
      | Some _ => inr st
      | None => inl ErrSchema
      end
  | Next => inr st
  | _ =>
      match cs_tx st with
      | Some tx =>
          match tx_stmt old (cs_attached st) op tx with
          | inr tx' => inr (set_tx st (Some tx'))
          | inl e => inl e
          end
      | None => inl ErrSchema
      end
  end.

Definition cl_log (st : CState) (op : cl_op) (e : option sqlerr) : CState :=
  mkCState (cs_committed st) (cs_tx st) (cs_attached st) (cs_hasher st)
    (cs_log st ++ [(op, e)]).

(** One database call: its error, if any, is handed back as Go does. *)
Definition cl_call (env : Env) (old : ChangelogSource) (op : cl_op)
  : M cl_op CState (option sqlerr) :=
  fun st =>
    let r := match fault_at env (length (cs_log st)) with
             | Some e => inl e
             | None => cl_step old op st
             end in
    match r with
    | inr st' => (Val None, cl_log st' op None)
    | inl e => (Val (Some e), cl_log st op (Some e))
    end.

(** [if err != nil { return wrap(err) }]. *)
Definition or_return {O S : Type} (wrap : sqlerr -> error)
  (m : M O S (option sqlerr)) : M O S unit :=
  bind m (fun r => match r with Some e => fail (wrap e) | None => ret tt end).

Section Changelog.

(** The digest of the pooled hasher (BLAKE3, from a package outside this
    repository): [h.Sum(nil)] is [blake3] of the bytes written since the last
    [h.Reset()]. *)
Variable blake3 : list byte -> list byte.

Definition h_Reset : M cl_op CState unit :=
  fun st => (Val tt, mkCState (cs_committed st) (cs_tx st) (cs_attached st) []
                       (cs_log st)).

Definition h_Write (p : list byte) : M cl_op CState unit :=
  fun st => (Val tt, mkCState (cs_committed st) (cs_tx st) (cs_attached st)
                       (cs_hasher st ++ p) (cs_log st)).

Definition h_Sum : M cl_op CState (list byte) :=
  fun st => (Val (blake3 (cs_hasher st)), st).

(** [for rows.Next() { ... }] over the rows the cursor has still to deliver.
    [rows.Next()] is false at the end of the rows and also when fetching
    fails; [rows.Err()] is not consulted after the loop. *)
Fixpoint leaf_loop (env : Env) (old : ChangelogSource) (rows : list LeafRow)
  : M cl_op CState unit :=
  err <- cl_call env old Next ;;
  match err, rows with
  | Some _, _ => ret tt
  | None, [] => ret tt
  | None, r :: rest =>
      match lf_version r, lf_sequence r with
      | Some version, Some sequence =>
          h_Reset ;;;
          h_Write (lf_key r) ;;;
          keyHash <- h_Sum ;;
          or_return ErrorSql
            (cl_call env old
               (TxInsertLeaf (mkNewLeaf version sequence keyHash (lf_bytes r) None))) ;;;
          leaf_loop env old rest
      | _, _ => fail ErrorScan
      end
  end.

Definition createStmt : list cl_op :=
  [TxCreateLeaf; TxCreateLeafIdx; TxCreateLeafOrphan].

Definition migrateChangelog (env : Env) (old : ChangelogSource)
  : M cl_op CState unit :=
  if negb (env_mkdir_ok env) then fail ErrorMkdir else
  or_return ErrorSql (cl_call env old Begin) ;;;
  for_each createStmt (fun stmt =>
    or_return (ErrorWrap "exec"%string) (cl_call env old stmt)) ;;;
  or_return (ErrorWrap "read old leaf"%string) (cl_call env old QueryLeaf) ;;;
  or_return ErrorSql (cl_call env old Prepare) ;;;
  leaf_loop env old (match src_leaf old with Some rows => rows | None => [] end) ;;;
  or_return (ErrorWrap "failed to attach old database"%string)
    (cl_call env old TxAttachOld) ;;;
  or_return (ErrorWrap "migrate leaf_orphan"%string)
    (cl_call env old TxCopyLeafOrphan) ;;;
  or_return ErrorSql (cl_call env old Commit) ;;;
  or_return (ErrorWrap "failed to detach old database"%string)
    (cl_call env old Detach).

Definition run_migrateChangelog (env : Env) (old : ChangelogSource)
  (pooled : list byte) : result cl_op unit * CState :=
  migrateChangelog env old (changelog_init pooled).

(** The target leaf row of a source leaf row with a version and a sequence. *)
Definition rekey (r : LeafRow) : option NewLeafRow :=
  match lf_version r, lf_sequence r with
  | Some v, Some s => Some (mkNewLeaf v s (blake3 (lf_key r)) (lf_bytes r) None)
  | _, _ => None
  end.

End Changelog.

(** ** The per-store driver *)

(** The file system and databases [migrateStore] works on. *)
Record World := mkWorld {
  w_stat : string -> bool;                  (* [os.Stat] returns no error *)
  w_tree : string -> TreeSource;            (* the tree store at a path *)
  w_changelog : string -> ChangelogSource;  (* the changelog store at a path *)
  w_tree_env : Env;
  w_changelog_env : Env;
  w_pooled : list byte }.

(** What [migrateStore] did: the run of each migrator it started. *)
Record StoreRun := mkStoreRun {
  sr_tree : option (result tree_op unit * TState);
  sr_changelog : option (result cl_op unit * CState) }.

(** How [migrateStore] ends: it returns nil, returns an error, or the
    process has ended inside a migrator. *)
Inductive store_result :=
| StoreOk
| StoreErr (e : error)
| StoreFatal (e : sqlerr).

Section Store.

Variable blake3 : list byte -> list byte.

(** [filepath.Join] of three elements (standard library, not modelled). *)
Variable Join : string -> string -> string -> string.

Definition migrateStore (w : World) (store baseOld baseNew : string)
  : store_result * StoreRun :=
  let oldTreePath := Join baseOld store "tree.sqlite"%string in
  let oldChangelogPath := Join baseOld store "changelog.sqlite"%string in
  if w_stat w oldTreePath then
    let tree_run := run_migrateTree (w_tree_env w) (w_tree w oldTreePath) in
    match fst tree_run with
    | Err e => (StoreErr e, mkStoreRun (Some tree_run) None)
    | Fatal _ e => (StoreFatal e, mkStoreRun (Some tree_run) None)
    | Val _ =>
        if w_stat w oldChangelogPath then
          let cl_run := run_migrateChangelog blake3 (w_changelog_env w)
                          (w_changelog w oldChangelogPath) (w_pooled w) in
          match fst cl_run with
          | Err e => (StoreErr e, mkStoreRun (Some tree_run) (Some cl_run))
          | Fatal _ e => (StoreFatal e, mkStoreRun (Some tree_run) (Some cl_run))
          | Val _ => (StoreOk, mkStoreRun (Some tree_run) (Some cl_run))
          end
        else
          (StoreErr (ErrorNew
                       (String.append "changelog.sqlite not found: " oldChangelogPath)),
           mkStoreRun (Some tree_run) None)
    end
  else
    (StoreErr (ErrorNew (String.append "tree.sqlite not found: " oldTreePath)),
     mkStoreRun None None).

End Store.

(** ** Abbreviations used by the statements below *)

Definition branch_key (r : BranchRow) : option Z * option Z :=
  (br_version r, br_sequence r).

(** [keep_first] when the rows of [before] precede [rows] in the table. *)
Definition keep_first_from (before rows : list BranchRow) : list BranchRow :=
  map fst (filter (fun p => snd p =? 1) (row_numbers before rows)).

(** The shard tables a completed run leaves for a source branch table. *)
Definition shard_tables (rows : list BranchRow) : list (Z * list BranchRow) :=
  match sql_min (versions rows), sql_max (versions rows) with
  | Some minV, Some maxV =>
      map (fun id => (id, select_shard (startVersion id) (endVersion id) rows))
        (calculateShardRange minV maxV)
  | _, _ => []
  end.

(** A source branch table is in the safe range when every non-NULL version
    is at least 1 and at most [max_safe_version]. *)
Definition version_safe (r : BranchRow) : bool :=
  match br_version r with
  | Some v => (1 <=? v) && (v <=? max_safe_version)
  | None => true
  end.

Definition source_safe (old : TreeSource) : bool :=
  match src_tree_1 old with
  | Some rows => forallb version_safe rows
  | None => true
  end.

(** ** Example stores *)

Definition bytes_of (s : string) : list byte := list_byte_of_string s.

(** An environment in which no operation fails for an outside reason. *)
Definition env_ok : Env := mkEnv no_fault true.

(** The branch rows of [TestMigrateTreeSharding], with a second row for the
    key (1, 1) that differs in its payload. *)
Definition example_rows : list BranchRow :=
  [ mkBranch (Some 1) (Some 1) (bytes_of "data1") false;
    mkBranch (Some 500000) (Some 1) (bytes_of "data2") false;
    mkBranch (Some 1) (Some 1) (bytes_of "other") false;
    mkBranch (Some 500001) (Some 1) (bytes_of "data3") false;
    mkBranch (Some 1000000) (Some 1) (bytes_of "data4") false;
    mkBranch (Some 4312305) (Some 1) (bytes_of "data5") false ].

Definition example_tree : TreeSource :=
  mkTreeSource (Some example_rows)
    (Some [mkRoot (Some 4312305) (Some 4312305) (Some 1) (bytes_of "root_data")])
    (Some [mkOrphan (Some 1) (Some 1) (Some 2)]).

Definition example_tree_final : TState :=
  snd (run_migrateTree env_ok example_tree).

(** A branch table whose rows have a NULL version: two rows of one
    (version, sequence). *)
Definition null_row_a : BranchRow := mkBranch None (Some 1) (bytes_of "a") false.
Definition null_row_b : BranchRow := mkBranch None (Some 1) (bytes_of "b") false.

Definition null_version_tree : TreeSource :=
  mkTreeSource (Some [null_row_a; null_row_b]) (Some []) (Some []).

(** Branch rows at version 0 and in the second shard's range. *)
Definition zero_version_tree : TreeSource :=
  mkTreeSource
    (Some [ mkBranch (Some 0) (Some 1) (bytes_of "genesis") false;
            mkBranch (Some 600000) (Some 1) (bytes_of "later") false ])
    (Some []) (Some []).

(** ** Invariants of the tree migrator's log *)

(** No statement on the destination has failed so far. *)
Definition no_failed_exec (log : list (tree_op * option sqlerr)) : Prop :=
  forall s e, ~ In (TExec s, Some e) log.

(** How the outcome relates to the log: a run that returns has no failed
    statement, an error it returns is that of [os.MkdirAll] or of a failed
    query of the source, and a process that ended did so at the one failed
    statement, the last operation. *)
Definition tree_inv {A : Type} (r : result tree_op A) (st : TState) : Prop :=
  match r with
  | Val _ => no_failed_exec (ts_log st)
  | Err e =>
      no_failed_exec (ts_log st) /\
      (e = ErrorMkdir \/
       exists q c what, e = ErrorWrap what c /\ In (TQuery q, Some c) (ts_log st))
  | Fatal op e =>
      exists s log0, op = TExec s /\ ts_log st = log0 ++ [(TExec s, Some e)] /\
                     no_failed_exec log0
  end.

Definition tree_sat {A : Type} (m : M tree_op TState A) : Prop :=
  forall st r st',
    no_failed_exec (ts_log st) -> m st = (r, st') -> tree_inv r st'.

(** Statements that create a table, and statements that copy rows. *)
Definition is_create (s : tree_stmt) : bool :=
  match s with
  | CreateBranchOrphan | CreateRoot | CreateShard _ => true
  | _ => false
  end.

Definition is_copy (s : tree_stmt) : bool :=
  match s with
  | CopyRoot | CopyOrphan | CopyShard _ _ _ => true
  | _ => false
  end.

(** A root table with a row whose version is NULL. *)
Definition null_root_tree : TreeSource :=
  mkTreeSource (Some [])
    (Some [mkRoot None (Some 1) (Some 1) (bytes_of "root")]) (Some []).


(** ** Invariants of the changelog migrator's run *)

(** Before the commit: nothing is committed in the destination, and neither
    a commit nor a detach has been issued. *)
Definition cl_pre (st : CState) : Prop :=
  cs_committed st = empty_changelog_dest /\
  (forall e, ~ In (Commit, e) (cs_log st)) /\
  (forall e, ~ In (Detach, e) (cs_log st)).

(** A step that keeps [cl_pre] and does not end the process. *)
Definition cl_sat {A : Type} (m : M cl_op CState A) : Prop :=
  forall st r st',
    cl_pre st -> m st = (r, st') ->
    cl_pre st' /\ forall op e, r <> Fatal op e.

(** What holds when the run is over. *)
Definition cl_post {A : Type} (r : result cl_op A) (st : CState) : Prop :=
  (forall op e, r <> Fatal op e) /\
  (~ In (Commit, None) (cs_log st) ->
   cs_committed st = empty_changelog_dest /\ exists e, r = Err e) /\
  (forall e, In (Detach, e) (cs_log st) -> In (Commit, None) (cs_log st)).

Definition cl_sat_post {A : Type} (m : M cl_op CState A) : Prop :=
  forall st r st', cl_pre st -> m st = (r, st') -> cl_post r st'.

Definition is_tx_write (op : cl_op) : bool :=
  match op with
  | Commit | Detach => false
  | _ => true
  end.

(** A changelog store with two leaves and one leaf orphan. *)
Definition example_changelog : ChangelogSource :=
  mkChangelogSource
    (Some [ mkLeaf (Some 1) (Some 1) (bytes_of "k1") (bytes_of "v1") (Some true);
            mkLeaf (Some 2) (Some 1) (bytes_of "k2") (bytes_of "v2") None ])
    (Some [mkOrphan (Some 1) (Some 1) (Some 2)]).

(** The environment in which exactly the [n]-th database operation fails. *)
Definition env_fault_at (n : nat) : Env := mkEnv (Nat.eqb n) true.

(** A digest under which all keys collide. *)
Definition const_hash : list byte -> list byte := fun _ => bytes_of "h".

(** A path join for the examples, and a world in which the tree store file
    of store [bank] exists but holds no table, and its changelog store file
    does not exist. *)
Definition simple_join (a b c : string) : string :=
  String.append a (String.append "/" (String.append b (String.append "/" c))).

Definition broken_world : World :=
  mkWorld (fun p => String.eqb p "old/bank/tree.sqlite")
    (fun _ => mkTreeSource None None None)
    (fun _ => mkChangelogSource None None)
    env_ok env_ok [].

(** A world with both store files of store [bank]. *)
Definition example_world : World :=
  mkWorld (fun _ => true) (fun _ => example_tree) (fun _ => example_changelog)
    env_ok env_ok [].

(** A branch table with one row, at the greatest 64-bit version. *)
Definition max_version_tree : TreeSource :=
  mkTreeSource
    (Some [mkBranch (Some 9223372036854775807) (Some 1) (bytes_of "last") false])
    (Some []) (Some []).

(** ** Store enumeration and the sequential driver *)

(** An entry of [os.ReadDir]. *)
Record DirEntry := mkDirEntry {
  de_name : string;
  de_isDir : bool }.

(** The Go map [filterSet], as the list of its keys (every value is true):
    [filterSet[k] = true] adds the key if it is new. *)
Definition filterSet_has (filterSet : list string) (k : string) : bool :=
  existsb (String.eqb k) filterSet.

Definition filterSet_add (filterSet : list string) (k : string) : list string :=
  if filterSet_has filterSet k then filterSet else filterSet ++ [k].

(** The second loop of [getStoreKeys], over the entries still to visit. *)
Fixpoint store_loop (filterSet : list string) (entries : list DirEntry)
  (stores : list string) : list string :=
  match entries with
  | [] => stores
  | entry :: rest =>
      if negb (de_isDir entry) then store_loop filterSet rest stores
      else if (0 <? Z.of_nat (length filterSet))
              && negb (filterSet_has filterSet (de_name entry))
      then store_loop filterSet rest stores
      else store_loop filterSet rest (stores ++ [de_name entry])
  end.

(** [getStoreKeys]; [readdir] is what [os.ReadDir(baseOld)] returns. *)
Definition getStoreKeys (readdir : error + list DirEntry) (filter : list string)
  : error + list string :=
  match readdir with
  | inl err => inl err
  | inr entries =>
      let filterSet := fold_left filterSet_add filter [] in
      inr (store_loop filterSet entries [])
  end.

(** The entries [getStoreKeys] keeps, said without the map and the loop:
    directories, and with a non-empty filter only those it names. *)
Definition store_kept (filter : list string) (entry : DirEntry) : bool :=
  de_isDir entry
  && (match filter with
      | [] => true
      | _ => existsb (String.eqb (de_name entry)) filter
      end).

Section Migrate.

Variable blake3 : list byte -> list byte.
Variable Join : string -> string -> string -> string.

(** The loop of [migrate] in its sequential mode: the stores that are
    migrated, each with what [migrateStore] did, and how the loop ends. *)
Fixpoint migrate_loop (w : World) (baseOld baseNew : string)
  (stores : list string) : store_result * list (string * StoreRun) :=
  match stores with
  | [] => (StoreOk, [])
  | store :: rest =>
      let run := migrateStore blake3 Join w store baseOld baseNew in
      match fst run with
      | StoreOk =>
          let later := migrate_loop w baseOld baseNew rest in
          (fst later, (store, snd run) :: snd later)
      | failure => (failure, [(store, snd run)])
      end
  end.

(** [migrate] with [concurrent = false]. *)
Definition migrate (w : World) (readdir : error + list DirEntry)
  (baseOld baseNew : string) (storeKeys : list string)
  : store_result * list (string * StoreRun) :=
  match getStoreKeys readdir storeKeys with
  | inl err => (StoreErr err, [])
  | inr stores => migrate_loop w baseOld baseNew stores
  end.

End Migrate.

(** A directory listing for the examples: two stores and a plain file. *)
Definition example_entries : list DirEntry :=
  [ mkDirEntry "bank" true; mkDirEntry "README" false; mkDirEntry "evm" true ].

(** ** Well-formed destinations *)

(** A WITHOUT ROWID table obeys its primary key: no key column is NULL and
    no key occurs twice. *)
Definition table_ok {R K : Type} (pk : R -> option K) (tbl : list R) : Prop :=
  NoDup (map pk tbl) /\ forall r, In r tbl -> pk r <> None.

(** Every table of a tree destination obeys its primary key, and no two
    shard tables have one name. *)
Definition dest_ok (db : TreeDest) : Prop :=
  (forall t, dst_root db = Some t -> table_ok root_pk t) /\
  (forall t, dst_branch_orphan db = Some t -> table_ok orphan_pk t) /\
  (forall id t, In (id, t) (dst_shards db) -> table_ok branch_pk t) /\
  NoDup (map fst (dst_shards db)).

(** A step of the tree migrator that keeps the destination well formed,
    however it ends. *)
Definition keeps_dest_ok {A : Type} (m : M tree_op TState A) : Prop :=
  forall st r st', dest_ok (ts_db st) -> m st = (r, st') -> dest_ok (ts_db st').

(** A branch table in which a row with a version has no sequence. *)
Definition null_sequence_tree : TreeSource :=
  mkTreeSource
    (Some [ mkBranch (Some 7) (Some 1) (bytes_of "a") false;
            mkBranch (Some 7) None (bytes_of "b") false ])
    (Some []) (Some []).

(** ** Relations and invariants for the changelog migrator *)

(** Two states of a changelog run that differ at most in the pending input
    of the pooled hasher. *)
Definition same_but_hasher (s1 s2 : CState) : Prop :=
  cs_committed s1 = cs_committed s2 /\ cs_tx s1 = cs_tx s2 /\
  cs_attached s1 = cs_attached s2 /\ cs_log s1 = cs_log s2.

(** A step that does not let the hasher's earlier input show. *)
Definition hasher_blind {A : Type} (m : M cl_op CState A) : Prop :=
  forall s1 s2,
    same_but_hasher s1 s2 ->
    fst (m s1) = fst (m s2) /\ same_but_hasher (snd (m s1)) (snd (m s2)).

(** No two rows of a target leaf table have one (key_hash, version) or one
    (version, sequence). *)
Definition leaf_distinct (leaves : list NewLeafRow) : Prop :=
  ForallOrdPairs (fun a b => leaf_conflict true b a = false) leaves.

(** A step, started before the commit, after which [Q] holds. *)
Definition cl_sat_to {A : Type} (Q : result cl_op A -> CState -> Prop)
  (m : M cl_op CState A) : Prop :=
  forall st r st', cl_pre st -> m st = (r, st') -> Q r st'.

(** How a run of the changelog migrator can have ended: either the commit has
    not succeeded, nothing is committed and an error is returned; or the
    commit has succeeded, the transaction is closed, the detach is the one
    operation after it, and nil is returned exactly if the detach
    succeeded. *)
Definition cl_outcome (r : result cl_op unit) (st : CState) : Prop :=
  (~ In (Commit, None) (cs_log st) /\
   cs_committed st = empty_changelog_dest /\
   (forall e, ~ In (Detach, e) (cs_log st)) /\
   exists e, r = Err e) \/
  (exists before d,
     cs_log st = before ++ [(Commit, None); (Detach, d)] /\
     (forall e, ~ In (Commit, e) before) /\
     (forall e, ~ In (Detach, e) before) /\
     cs_tx st = None /\
     match d with
     | None => r = Val tt
     | Some e => r = Err (ErrorWrap "failed to detach old database" e)
     end).

(** No fetch of a source row has failed so far. *)
Definition next_ok (st : CState) : Prop :=
  forall e, ~ In (Next, Some e) (cs_log st).

(** A step that lets no fetch fail. *)
Definition keeps_next_ok {A : Type} (m : M cl_op CState A) : Prop :=
  forall st r st', next_ok st -> m st = (r, st') -> next_ok st'.

(** ** The shard fixer

    [fixMissingShardInFile] works on a migrated tree store file.  A shard
    table [tree_<id>] is known by its id: [fmt.Sprintf("tree_%d", id)] gives
    every id a name of its own, and a migrated file has no other table whose
    name the pattern [tree_%] matches. *)

Inductive fix_op :=
| FQueryTables              (* SELECT name FROM sqlite_master ... *)
| FNext                     (* rows.Next() *)
| FQueryRange               (* SELECT MIN(version), MAX(version) FROM root *)
| FCreate (shardID : Z).    (* CREATE TABLE tree_<id> *)

Inductive fix_cause :=
| CauseSql (e : sqlerr)
| CauseScanNull.            (* Scan: converting NULL to int64 is unsupported *)

Inductive fix_error :=
| FixWrap (what : string) (cause : fix_cause)  (* fmt.Errorf(what: %w, err) *)
| FixCreate (shardID : Z) (cause : sqlerr).    (* failed to create tree_<id> table: %w *)

(** The state of a run: the store file and the log of the operations so
    far. *)
Record FState := mkFState {
  fs_db : TreeDest;
  fs_log : list (fix_op * option sqlerr) }.

Definition F (A : Type) : Type := FState -> (fix_error + A) * FState.

Definition fret {A} (a : A) : F A := fun s => (inr a, s).

Definition ffail {A} (e : fix_error) : F A := fun s => (inl e, s).

Definition fbind {A B} (m : F A) (k : A -> F B) : F B :=
  fun s =>
    match m s with
    | (inr a, s') => k a s'
    | (inl e, s') => (inl e, s')
    end.

Declare Scope fix_scope.
Delimit Scope fix_scope with fixer.
Notation "x <- m ;; k" := (fbind m (fun x => k))
  (at level 100, m at next level, right associativity) : fix_scope.

(** A query or a fetch: its answer or its error, handed to the caller. *)
Definition f_query {A : Type} (env : Env) (op : fix_op)
  (answer : TreeDest -> sqlerr + A) : F (sqlerr + A) :=
  fun st =>
    let r := match fault_at env (length (fs_log st)) with
             | Some e => inl e
             | None => answer (fs_db st)
             end in
    (inr r,
     mkFState (fs_db st)
       (fs_log st ++ [(op, match r with inl e => Some e | inr _ => None end)])).

(** [db.Exec]: a failed statement changes nothing. *)
Definition f_exec (env : Env) (op : fix_op)
  (stmt : TreeDest -> sqlerr + TreeDest) : F (option sqlerr) :=
  fun st =>
    let r := match fault_at env (length (fs_log st)) with
             | Some e => inl e
             | None => stmt (fs_db st)
             end in
    match r with
    | inr db' => (inr None, mkFState db' (fs_log st ++ [(op, None)]))
    | inl e => (inr (Some e), mkFState (fs_db st) (fs_log st ++ [(op, Some e)]))
    end.

(** The names the table query delivers. *)
Definition shard_names (db : TreeDest) : list Z := map fst (dst_shards db).

(** [existingShards[tableName]] on the set of the names collected. *)
Definition shard_known (existingShards : list Z) (shardID : Z) : bool :=
  existsb (Z.eqb shardID) existingShards.

(** The MIN and MAX of the versions of [root]; both are NULL when no row has
    a version. *)
Definition root_versions (roots : list RootRow) : list Z :=
  flat_map (fun r => match rt_version r with Some v => [v] | None => [] end) roots.

Definition root_range (db : TreeDest) : sqlerr + (option Z * option Z) :=
  match dst_root db with
  | Some roots => inr (sql_min (root_versions roots), sql_max (root_versions roots))
  | None => inl ErrSchema
  end.

(** No source is attached when the fixer creates a table. *)
Definition no_source : TreeSource := mkTreeSource None None None.

(** [for rows.Next() { rows.Scan(&tableName); existingShards[tableName] = true }]
    and the check of [rows.Err()] after it.  A table name is never NULL, so
    the scan into a string does not fail. *)
Fixpoint scan_tables (env : Env) (names existingShards : list Z) : F (list Z) :=
  (r <- f_query env FNext (fun _ => inr tt) ;;
   match r, names with
   | inl e, _ =>
       ffail (FixWrap "error iterating existing shard tables" (CauseSql e))
   | inr _, [] => fret existingShards
   | inr _, tableName :: rest => scan_tables env rest (existingShards ++ [tableName])
   end)%fixer.

(** The loop over [neededShards].  The count of the tables created only
    chooses the message printed at the end and is left out. *)
Fixpoint create_missing (env : Env) (existingShards neededShards : list Z)
  : F unit :=
  match neededShards with
  | [] => fret tt
  | shardID :: rest =>
      if negb (shard_known existingShards shardID) then
        (r <- f_exec env (FCreate shardID)
                (exec_tree_stmt no_source (CreateShard shardID)) ;;
         match r with
         | Some e => ffail (FixCreate shardID e)
         | None => create_missing env existingShards rest
         end)%fixer
      else create_missing env existingShards rest
  end.

(** [fixMissingShardInFile].  [sql.Open] does not fail for a registered
    driver.  The two versions are scanned into plain [int64]s, so a NULL is a
    scan error. *)
Definition fixMissingShardInFile (env : Env) : F unit :=
  (r <- f_query env FQueryTables (fun db => inr (shard_names db)) ;;
   match r with
   | inl e => ffail (FixWrap "failed to query existing shard tables" (CauseSql e))
   | inr names =>
       existingShards <- scan_tables env names [] ;;
       r <- f_query env FQueryRange root_range ;;
       match r with
       | inl e =>
           if is_ErrNoRows e then fret tt
           else ffail (FixWrap "failed to query version range" (CauseSql e))
       | inr (Some minVersion, Some maxVersion) =>
           create_missing env existingShards
             (calculateShardRange minVersion maxVersion)
       | inr (_, _) => ffail (FixWrap "failed to query version range" CauseScanNull)
       end
   end)%fixer.

Definition run_fixMissingShardInFile (env : Env) (db : TreeDest)
  : (fix_error + unit) * FState :=
  fixMissingShardInFile env (mkFState db []).

(** The shard tables the fixer appends for the ids [created]. *)
Definition new_shards (created : list Z) : list (Z * list BranchRow) :=
  map (fun shardID => (shardID, [])) created.

(** A migrated store whose roots reach into the third shard and whose branch
    rows are all in the first. *)
Definition short_tree : TreeDest :=
  mkTreeDest
    (Some [ mkRoot (Some 1200000) (Some 1200000) (Some 1) (bytes_of "r2");
            mkRoot (Some 10) (Some 10) (Some 1) (bytes_of "r1") ])
    (Some [])
    [(1, [mkBranch (Some 10) (Some 1) (bytes_of "n") false])]
    false.

(** A store without rows. *)
Definition empty_tree : TreeSource := mkTreeSource (Some []) (Some []) (Some []).

(** * Properties *)

(** ** 64-bit arithmetic *)


Lemma wrap_in_range z : Int64.in_range (Int64.wrap z).
Proof.
  unfold Int64.wrap, Int64.in_range, Int64.min_int, Int64.max_int.
  pose proof (Z.mod_pos_bound (z + 2 ^ 63) (2 ^ 64) ltac:(lia)). lia.
Qed.

Lemma wrap_small z : Int64.in_range z -> Int64.wrap z = z.
Proof.
  unfold Int64.wrap, Int64.in_range, Int64.min_int, Int64.max_int. intros H.
  rewrite Z.mod_small by lia. lia.
Qed.

Ltac int64_small :=
  apply wrap_small; unfold Int64.in_range, Int64.min_int, Int64.max_int in *; lia.

(** ** Shard arithmetic *)

Lemma ToShardID_nonpos v : v <= 0 -> ToShardID v = 1.
Proof.
  intros H. unfold ToShardID.
  destruct (Z.leb_spec v 0); [reflexivity | lia].
Qed.

Lemma ToShardID_pos v :
  Int64.in_range v -> 0 < v -> ToShardID v = (v - 1) / 500000 + 1.
Proof.
  intros Hr Hv. unfold ToShardID, defaultStartShardID, defaultTreeShardSize.
  destruct (Z.leb_spec v 0); [lia |].
  unfold Int64.add, Int64.quot, Int64.sub.
  assert (Hs : Int64.wrap (v - 1) = v - 1) by int64_small.
  rewrite Hs, Z.quot_div_nonneg by lia.
  pose proof (Z.div_pos (v - 1) 500000 ltac:(lia) ltac:(lia)) as Hq0.
  assert (Hq : (v - 1) / 500000 <= v - 1)
    by (apply Z.div_le_upper_bound; lia).
  assert (Hw : Int64.wrap ((v - 1) / 500000) = (v - 1) / 500000) by int64_small.
  rewrite Hw. int64_small.
Qed.

Lemma ToShardID_bounds v :
  Int64.in_range v -> 1 <= ToShardID v <= 18446744073710.
Proof.
  intros Hr. destruct (Z.leb_spec v 0) as [Hv | Hv].
  - rewrite ToShardID_nonpos by lia. lia.
  - rewrite ToShardID_pos by (assumption || lia).
    pose proof (Z.div_pos (v - 1) 500000 ltac:(lia) ltac:(lia)).
    assert ((v - 1) / 500000 < 18446744073710).
    { apply Z.div_lt_upper_bound; [lia |].
      unfold Int64.in_range, Int64.max_int in Hr. lia. }
    lia.
Qed.

Lemma ToShardID_mono a b :
  Int64.in_range a -> Int64.in_range b -> a <= b -> ToShardID a <= ToShardID b.
Proof.
  intros Ha Hb Hab.
  destruct (Z.leb_spec a 0) as [Ha0 | Ha0].
  - rewrite (ToShardID_nonpos a) by lia.
    pose proof (ToShardID_bounds b Hb). lia.
  - rewrite !ToShardID_pos by (assumption || lia).
    pose proof (Z.div_le_mono (a - 1) (b - 1) 500000 ltac:(lia) ltac:(lia)).
    lia.
Qed.

(** ** The loop of [calculateShardRange] *)

Lemma Z_range_nil lo hi : hi < lo -> Z_range lo hi = [].
Proof.
  intros H. unfold Z_range.
  replace (Z.to_nat (hi - lo + 1)) with 0%nat by lia. reflexivity.
Qed.

Lemma Z_range_cons lo hi : lo <= hi -> Z_range lo hi = lo :: Z_range (lo + 1) hi.
Proof.
  intros H. unfold Z_range.
  replace (Z.to_nat (hi - lo + 1)) with (S (Z.to_nat (hi - (lo + 1) + 1))) by lia.
  cbn [seq map]. f_equal; [lia |].
  rewrite <- seq_shift, map_map. apply map_ext. intros i. lia.
Qed.

Lemma Z_range_In lo hi x : In x (Z_range lo hi) <-> lo <= x <= hi.
Proof.
  unfold Z_range. rewrite in_map_iff. split.
  - intros [i [<- Hi]]. apply in_seq in Hi. lia.
  - intros H. exists (Z.to_nat (x - lo)). split; [lia |].
    apply in_seq. lia.
Qed.

Lemma Z_range_sorted lo hi : StronglySorted Z.lt (Z_range lo hi).
Proof.
  remember (Z.to_nat (hi - lo + 1)) as n eqn:Hn.
  revert lo Hn. induction n as [| n IH]; intros lo Hn.
  - rewrite Z_range_nil by lia. constructor.
  - rewrite Z_range_cons by lia. constructor.
    + apply IH. lia.
    + apply Forall_forall. intros x Hx. apply Z_range_In in Hx. lia.
Qed.

Lemma Z_range_NoDup lo hi : NoDup (Z_range lo hi).
Proof.
  pose proof (Z_range_sorted lo hi) as H.
  induction H as [| x l _ IH Hx]; constructor; [| assumption].
  intros Hin. rewrite Forall_forall in Hx. specialize (Hx x Hin). lia.
Qed.

(** With fuel beyond the number of shards the loop leaves through its
    condition and has appended the whole range. *)
Lemma shard_loop_exits fuel lo hi acc :
  hi < Int64.max_int ->
  Int64.min_int <= lo ->
  (Z.to_nat (hi - lo + 1) < fuel)%nat ->
  shard_loop fuel lo hi acc = Some (acc ++ Z_range lo hi).
Proof.
  revert lo acc. induction fuel as [| fuel IH]; intros lo acc Hhi Hlo Hf.
  - lia.
  - cbn [shard_loop]. destruct (Z.leb_spec lo hi) as [Hle | Hgt].
    + assert (Hs : Int64.add lo 1 = lo + 1).
      { unfold Int64.add. int64_small. }
      rewrite Hs, IH by lia.
      rewrite (Z_range_cons lo hi) by lia. rewrite <- app_assoc. reflexivity.
    + rewrite Z_range_nil by lia. rewrite app_nil_r. reflexivity.
Qed.

Lemma calculateShardRange_pos minV maxV :
  Int64.in_range minV -> Int64.in_range maxV -> 0 < minV -> 0 < maxV ->
  calculateShardRange minV maxV = Z_range (ToShardID minV) (ToShardID maxV).
Proof.
  intros Hmin Hmax H1 H2. unfold calculateShardRange.
  destruct (Z.leb_spec minV 0); [lia |].
  destruct (Z.leb_spec maxV 0); [lia |]. cbn [orb].
  pose proof (ToShardID_bounds minV Hmin).
  pose proof (ToShardID_bounds maxV Hmax).
  rewrite shard_loop_exits; [reflexivity | | |].
  - unfold Int64.max_int. lia.
  - unfold Int64.min_int. lia.
  - unfold shard_loop_fuel. lia.
Qed.

Lemma calculateShardRange_nonpos minV maxV :
  minV <= 0 \/ maxV <= 0 -> calculateShardRange minV maxV = [1].
Proof.
  intros H. unfold calculateShardRange.
  destruct (Z.leb_spec minV 0); [reflexivity |].
  destruct (Z.leb_spec maxV 0); [reflexivity | lia].
Qed.

(** C2.  For every 64-bit version [v], [ToShardID v] is defined and is itself
    a 64-bit integer; it is 1 when [v <= 0] and [floor((v-1)/500000) + 1]
    when [v >= 1]; and it takes the six listed values. *)
Theorem ToShardID_spec (v : Z) :
  Int64.in_range v ->
  Int64.in_range (ToShardID v) /\
  (v <= 0 -> ToShardID v = 1) /\
  (1 <= v -> ToShardID v = (v - 1) / 500000 + 1) /\
  ToShardID 1 = 1 /\ ToShardID 500000 = 1 /\ ToShardID 500001 = 2 /\
  ToShardID 1000000 = 2 /\ ToShardID 1000001 = 3 /\ ToShardID 4312305 = 9.
Proof.
  intros Hr. split; [| split; [| split]].
  - pose proof (ToShardID_bounds v Hr).
    unfold Int64.in_range, Int64.min_int, Int64.max_int. lia.
  - apply ToShardID_nonpos.
  - intros Hv. apply ToShardID_pos; [assumption | lia].
  - repeat split; reflexivity.
Qed.

Lemma ToShardID_spec_witness :
  Int64.in_range 4312305 /\ ToShardID 4312305 = (4312305 - 1) / 500000 + 1.
Proof.
  assert (Hr : Int64.in_range 4312305).
  { unfold Int64.in_range, Int64.min_int, Int64.max_int. lia. }
  split; [exact Hr |].
  destruct (ToShardID_spec 4312305 Hr) as [_ [_ [Hpos _]]].
  apply Hpos. lia.
Defined.

(** C3.  [calculateShardRange] on 64-bit bounds: [[1]] when a bound is
    non-positive; for positive [minVersion <= maxVersion] exactly the
    integers from [ToShardID minVersion] to [ToShardID maxVersion], ascending,
    without gap or repetition; for positive [minVersion > maxVersion] the
    empty sequence or the one shard both bounds share.  The loop always
    leaves through its condition: more fuel gives the same sequence. *)
Theorem calculateShardRange_spec (minVersion maxVersion : Z) :
  Int64.in_range minVersion -> Int64.in_range maxVersion ->
  (minVersion <= 0 \/ maxVersion <= 0 ->
   calculateShardRange minVersion maxVersion = [1]) /\
  (0 < minVersion -> minVersion <= maxVersion ->
   calculateShardRange minVersion maxVersion
     = Z_range (ToShardID minVersion) (ToShardID maxVersion) /\
   ToShardID minVersion <= ToShardID maxVersion /\
   (forall s, In s (calculateShardRange minVersion maxVersion) <->
              ToShardID minVersion <= s <= ToShardID maxVersion) /\
   StronglySorted Z.lt (calculateShardRange minVersion maxVersion) /\
   NoDup (calculateShardRange minVersion maxVersion)) /\
  (0 < maxVersion -> maxVersion < minVersion ->
   calculateShardRange minVersion maxVersion = [] \/
   (ToShardID minVersion = ToShardID maxVersion /\
    calculateShardRange minVersion maxVersion = [ToShardID maxVersion])) /\
  (0 < minVersion -> 0 < maxVersion ->
   forall fuel,
     (shard_loop_fuel (ToShardID minVersion) (ToShardID maxVersion) <= fuel)%nat ->
     shard_loop fuel (ToShardID minVersion) (ToShardID maxVersion) []
       = Some (calculateShardRange minVersion maxVersion)).
Proof.
  intros Hmin Hmax.
  pose proof (ToShardID_bounds minVersion Hmin) as Bmin.
  pose proof (ToShardID_bounds maxVersion Hmax) as Bmax.
  split; [| split; [| split]].
  - apply calculateShardRange_nonpos.
  - intros H0 Hle.
    rewrite calculateShardRange_pos by (assumption || lia).
    split; [reflexivity |]. split; [apply ToShardID_mono; assumption |].
    split; [intros s; apply Z_range_In |].
    split; [apply Z_range_sorted | apply Z_range_NoDup].
  - intros H0 Hlt.
    rewrite calculateShardRange_pos by (assumption || lia).
    pose proof (ToShardID_mono maxVersion minVersion Hmax Hmin ltac:(lia)) as Hm.
    destruct (Z.eq_dec (ToShardID minVersion) (ToShardID maxVersion)) as [E | N].
    + right. split; [exact E |]. rewrite E.
      rewrite Z_range_cons by lia. rewrite Z_range_nil by lia. reflexivity.
    + left. apply Z_range_nil. lia.
  - intros H1 H2 fuel Hf.
    rewrite calculateShardRange_pos by (assumption || lia).
    rewrite shard_loop_exits; [reflexivity | | |].
    + unfold Int64.max_int. lia.
    + unfold Int64.min_int. lia.
    + unfold shard_loop_fuel in Hf. lia.
Qed.

Lemma calculateShardRange_spec_witness :
  Int64.in_range 1 /\ Int64.in_range 4312305 /\
  calculateShardRange 1 4312305 = [1; 2; 3; 4; 5; 6; 7; 8; 9].
Proof.
  assert (H1 : Int64.in_range 1).
  { unfold Int64.in_range, Int64.min_int, Int64.max_int. lia. }
  assert (H2 : Int64.in_range 4312305).
  { unfold Int64.in_range, Int64.min_int, Int64.max_int. lia. }
  split; [exact H1 |]. split; [exact H2 |].
  destruct (calculateShardRange_spec 1 4312305 H1 H2) as [_ [Hpos _]].
  destruct (Hpos ltac:(lia) ltac:(lia)) as [Heq _].
  rewrite Heq. reflexivity.
Defined.

(** ** Version windows *)

Lemma window_bounds s :
  1 <= s <= 18446744073709 ->
  startVersion s = (s - 1) * 500000 + 1 /\ endVersion s = s * 500000.
Proof.
  intros Hs. unfold startVersion, endVersion, Int64.add, Int64.mul, Int64.sub.
  assert (E1 : Int64.wrap (s - 1) = s - 1) by int64_small.
  rewrite E1.
  assert (E2 : Int64.wrap ((s - 1) * 500000) = (s - 1) * 500000) by int64_small.
  rewrite E2. split; int64_small.
Qed.

Lemma window_last_empty v : in_window 18446744073710 v = false.
Proof.
  unfold in_window.
  change (startVersion 18446744073710) with 9223372036854500001.
  change (endVersion 18446744073710) with (-9223372036854551616).
  destruct (Z.leb_spec 9223372036854500001 v);
    destruct (Z.leb_spec v (-9223372036854551616)); try reflexivity; lia.
Qed.

Lemma in_window_iff s v :
  1 <= s <= 18446744073709 ->
  in_window s v = true <-> (s - 1) * 500000 + 1 <= v <= s * 500000.
Proof.
  intros Hs. unfold in_window.
  destruct (window_bounds s Hs) as [-> ->].
  rewrite andb_true_iff, !Z.leb_le. tauto.
Qed.

Lemma ToShardID_safe v :
  1 <= v <= max_safe_version ->
  1 <= ToShardID v <= 18446744073709 /\
  (ToShardID v - 1) * 500000 + 1 <= v <= ToShardID v * 500000.
Proof.
  unfold max_safe_version. intros Hv.
  rewrite ToShardID_pos
    by (unfold Int64.in_range, Int64.min_int, Int64.max_int; lia).
  pose proof (Z.div_mod (v - 1) 500000 ltac:(lia)) as Hdm.
  pose proof (Z.mod_pos_bound (v - 1) 500000 ltac:(lia)) as Hmod.
  pose proof (Z.div_pos (v - 1) 500000 ltac:(lia) ltac:(lia)) as Hq0.
  assert ((v - 1) / 500000 < 18446744073709).
  { apply Z.div_lt_upper_bound; lia. }
  lia.
Qed.

(** A version up to [max_safe_version] is in the window of its own shard. *)
Lemma in_window_own_shard v :
  1 <= v <= max_safe_version -> in_window (ToShardID v) v = true.
Proof.
  intros Hv. destruct (ToShardID_safe v Hv) as [Hs Hw].
  apply in_window_iff; assumption.
Qed.

(** Among the shard identifiers the program can compute, only the version's
    own shard has it in its window. *)
Lemma in_window_unique s v :
  1 <= s <= 18446744073710 -> 1 <= v <= max_safe_version ->
  in_window s v = true -> s = ToShardID v.
Proof.
  intros Hs Hv Hin.
  destruct (Z.eq_dec s 18446744073710) as [-> | Hne].
  - rewrite window_last_empty in Hin. discriminate.
  - apply in_window_iff in Hin; [| lia].
    destruct (ToShardID_safe v Hv) as [Ht Hw]. nia.
Qed.

Lemma windows_disjoint s1 s2 v :
  1 <= s1 <= 18446744073710 -> 1 <= s2 <= 18446744073710 ->
  in_window s1 v = true -> in_window s2 v = true -> s1 = s2.
Proof.
  intros H1 H2 W1 W2.
  destruct (Z.eq_dec s1 18446744073710) as [-> | N1];
    [rewrite window_last_empty in W1; discriminate |].
  destruct (Z.eq_dec s2 18446744073710) as [-> | N2];
    [rewrite window_last_empty in W2; discriminate |].
  apply in_window_iff in W1; [| lia]. apply in_window_iff in W2; [| lia]. nia.
Qed.

(** C10.  At version [2^63 - 1] the claim fails: its shard is
    18446744073710, whose [endVersion] overflows to a negative number, so the
    version is outside the window of its own shard; a run on a branch table
    with one row at that version returns nil with an empty shard table, the
    row copied nowhere.  Up to [max_safe_version] the claim holds: the version
    is in its own shard's window and in no other computable shard's. *)
Theorem window_overflow_at_max_int64 :
  Int64.in_range 9223372036854775807 /\
  ToShardID 9223372036854775807 = 18446744073710 /\
  startVersion 18446744073710 = 9223372036854500001 /\
  endVersion 18446744073710 = -9223372036854551616 /\
  in_window (ToShardID 9223372036854775807) 9223372036854775807 = false /\
  calculateShardRange 9223372036854775807 9223372036854775807
    = [18446744073710] /\
  fst (run_migrateTree env_ok max_version_tree) = Val tt /\
  dst_shards (ts_db (snd (run_migrateTree env_ok max_version_tree)))
    = [(18446744073710, [])] /\
  (forall v s, 1 <= v <= max_safe_version -> 1 <= s <= 18446744073710 ->
     (in_window s v = true <-> s = ToShardID v)) /\
  (forall v s1 s2, 1 <= s1 <= 18446744073710 -> 1 <= s2 <= 18446744073710 ->
     in_window s1 v = true -> in_window s2 v = true -> s1 = s2).
Proof.
  split.
  { unfold Int64.in_range, Int64.min_int, Int64.max_int. lia. }
  split; [reflexivity |]. split; [reflexivity |]. split; [reflexivity |].
  split; [reflexivity |]. split; [reflexivity |].
  split; [vm_compute; reflexivity |]. split; [vm_compute; reflexivity |].
  split.
  - intros v s Hv Hs. split.
    + apply in_window_unique; assumption.
    + intros ->. apply in_window_own_shard. assumption.
  - intros v s1 s2. apply windows_disjoint.
Qed.

(** ** Deduplication by (version, sequence) *)

Lemma optZ_eqb_eq a b : optZ_eqb a b = true <-> a = b.
Proof.
  destruct a as [x |], b as [y |]; cbn; try (split; congruence).
  rewrite Z.eqb_eq. split; congruence.
Qed.

Lemma same_key_eq a b : same_key a b = true <-> branch_key a = branch_key b.
Proof.
  unfold same_key, branch_key.
  rewrite andb_true_iff, !optZ_eqb_eq. split.
  - intros [-> ->]. reflexivity.
  - intros H. inversion H. auto.
Qed.

Lemma same_key_neq a b : same_key a b = false <-> branch_key a <> branch_key b.
Proof.
  rewrite <- same_key_eq. destruct (same_key a b); split; congruence.
Qed.

Lemma filter_nil_existsb {A} (f : A -> bool) l :
  (1 + Z.of_nat (length (filter f l)) =? 1) = negb (existsb f l).
Proof.
  induction l as [| x l IH]; [reflexivity |].
  cbn [filter existsb]. destruct (f x); cbn [orb negb length].
  - apply Z.eqb_neq. lia.
  - exact IH.
Qed.

Lemma keep_first_from_cons before r rest :
  keep_first_from before (r :: rest)
  = (if existsb (same_key r) before then [] else [r])
      ++ keep_first_from (before ++ [r]) rest.
Proof.
  unfold keep_first_from. cbn [row_numbers filter snd].
  rewrite filter_nil_existsb.
  destruct (existsb (same_key r) before); reflexivity.
Qed.

Lemma keep_first_eq rows : keep_first rows = keep_first_from [] rows.
Proof. reflexivity. Qed.

Lemma keep_first_from_In before rows x :
  In x (keep_first_from before rows) -> In x rows.
Proof.
  revert before. induction rows as [| r rest IH]; intros before H.
  - contradiction.
  - rewrite keep_first_from_cons in H. apply in_app_or in H.
    destruct H as [H | H].
    + destruct (existsb (same_key r) before); [contradiction |].
      destruct H as [-> | []]. left. reflexivity.
    + right. eapply IH. eassumption.
Qed.

Lemma keep_first_from_fresh before rows x y :
  In x (keep_first_from before rows) -> In y before ->
  branch_key x <> branch_key y.
Proof.
  revert before. induction rows as [| r rest IH]; intros before Hx Hy.
  - contradiction.
  - rewrite keep_first_from_cons in Hx. apply in_app_or in Hx.
    destruct Hx as [Hx | Hx].
    + destruct (existsb (same_key r) before) eqn:E; [contradiction |].
      destruct Hx as [-> | []].
      apply same_key_neq.
      destruct (same_key x y) eqn:K; [| reflexivity].
      assert (existsb (same_key x) before = true)
        by (apply existsb_exists; eauto).
      congruence.
    + apply (IH (before ++ [r])); [assumption |].
      apply in_or_app. left. assumption.
Qed.

Lemma keep_first_from_NoDup before rows :
  NoDup (map branch_key (keep_first_from before rows)).
Proof.
  revert before. induction rows as [| r rest IH]; intros before.
  - constructor.
  - rewrite keep_first_from_cons.
    destruct (existsb (same_key r) before); cbn [app map]; [apply IH |].
    constructor; [| apply IH].
    intros Hin. apply in_map_iff in Hin. destruct Hin as [x [Hk Hx]].
    apply (keep_first_from_fresh (before ++ [r]) rest x r Hx); [| exact Hk].
    apply in_or_app. right. left. reflexivity.
Qed.

Lemma keep_first_from_first before l1 r l2 :
  (forall x, In x (before ++ l1) -> branch_key x <> branch_key r) ->
  In r (keep_first_from before (l1 ++ r :: l2)).
Proof.
  revert before. induction l1 as [| a l1 IH]; intros before Hfresh.
  - cbn [app]. rewrite keep_first_from_cons. apply in_or_app. left.
    destruct (existsb (same_key r) before) eqn:E; [| left; reflexivity].
    apply existsb_exists in E. destruct E as [x [Hx Hk]].
    apply same_key_eq in Hk. exfalso.
    apply (Hfresh x); [rewrite app_nil_r; assumption | congruence].
  - cbn [app]. rewrite keep_first_from_cons. apply in_or_app. right.
    apply IH. intros x Hx. apply Hfresh.
    rewrite <- app_assoc in Hx. exact Hx.
Qed.

(** A row that is kept is the first row of its key. *)
Lemma keep_first_from_split before rows r :
  In r (keep_first_from before rows) ->
  exists l1 l2,
    rows = l1 ++ r :: l2 /\
    forall x, In x (before ++ l1) -> branch_key x <> branch_key r.
Proof.
  revert before. induction rows as [| a rest IH]; intros before H.
  - contradiction.
  - rewrite keep_first_from_cons in H. apply in_app_or in H.
    destruct H as [H | H].
    + destruct (existsb (same_key a) before) eqn:E; [contradiction |].
      destruct H as [-> | []]. exists [], rest. split; [reflexivity |].
      intros x Hx K. rewrite app_nil_r in Hx.
      assert (existsb (same_key r) before = true).
      { apply existsb_exists. exists x. split; [exact Hx |].
        apply same_key_eq. congruence. }
      congruence.
    + destruct (IH (before ++ [a]) H) as [l1 [l2 [-> Hf]]].
      exists (a :: l1), l2. split; [reflexivity |].
      intros x Hx. apply Hf. rewrite <- app_assoc. exact Hx.
Qed.

(** Every key of the table is the key of a row that is kept, or of a row
    before. *)
Lemma keep_first_from_covers before rows r :
  In r rows ->
  (exists x, In x before /\ branch_key x = branch_key r) \/
  (exists x, In x (keep_first_from before rows) /\ branch_key x = branch_key r).
Proof.
  revert before. induction rows as [| a rest IH]; intros before Hr.
  - contradiction.
  - rewrite keep_first_from_cons. destruct Hr as [-> | Hr].
    + destruct (existsb (same_key r) before) eqn:E.
      * apply existsb_exists in E. destruct E as [x [Hx Hk]].
        apply same_key_eq in Hk. left. exists x. split; congruence.
      * right. exists r. split; [left; reflexivity | reflexivity].
    + destruct (IH (before ++ [a]) Hr) as [[x [Hx Hk]] | [x [Hx Hk]]].
      * apply in_app_or in Hx. destruct Hx as [Hx | [<- | []]].
        -- left. exists x. split; assumption.
        -- destruct (existsb (same_key a) before) eqn:E.
           ++ apply existsb_exists in E. destruct E as [y [Hy Hky]].
              apply same_key_eq in Hky. left. exists y. split; congruence.
           ++ right. exists a. split; [left; reflexivity | assumption].
      * right. exists x. split; [| assumption].
        apply in_or_app. right. assumption.
Qed.


(** A filter on the partition key commutes with keeping the first row of
    each partition. *)
Lemma keep_first_from_filter (P : BranchRow -> bool) before rows :
  (forall a b, branch_key a = branch_key b -> P a = P b) ->
  keep_first_from (filter P before) (filter P rows)
  = filter P (keep_first_from before rows).
Proof.
  intros HP. revert before. induction rows as [| r rest IH]; intros before.
  - reflexivity.
  - rewrite keep_first_from_cons, filter_app, <- IH, filter_app.
    cbn [filter]. destruct (P r) eqn:Pr.
    + rewrite keep_first_from_cons.
      assert (E : existsb (same_key r) (filter P before)
                  = existsb (same_key r) before).
      { destruct (existsb (same_key r) before) eqn:E.
        - apply existsb_exists in E. destruct E as [x [Hx Hk]].
          apply existsb_exists. exists x. split; [| assumption].
          apply filter_In. split; [assumption |].
          apply same_key_eq in Hk. rewrite <- (HP r x Hk). assumption.
        - destruct (existsb (same_key r) (filter P before)) eqn:F;
            [| reflexivity].
          apply existsb_exists in F. destruct F as [x [Hx Hk]].
          apply filter_In in Hx.
          assert (existsb (same_key r) before = true)
            by (apply existsb_exists; exists x; tauto).
          congruence. }
      rewrite E.
      destruct (existsb (same_key r) before); cbn [filter app];
        rewrite ?Pr; reflexivity.
    + rewrite app_nil_r.
      destruct (existsb (same_key r) before); cbn [filter app];
        rewrite ?Pr; reflexivity.
Qed.

Lemma NoDup_key_rows (l : list BranchRow) :
  NoDup (map branch_key l) -> NoDup l.
Proof. apply NoDup_map_inv. Qed.


Lemma NoDup_key_count (l : list BranchRow) x :
  NoDup (map branch_key l) -> In x l ->
  filter (same_key x) l = [x].
Proof.
  induction l as [| a l IH]; intros Hnd Hx; [contradiction |].
  cbn [map] in Hnd. inversion Hnd as [| ? ? Hni Hnd']; subst.
  cbn [filter]. destruct Hx as [-> | Hx].
  - assert (K : same_key x x = true) by (apply same_key_eq; reflexivity).
    rewrite K. f_equal.
    clear IH Hnd Hnd'. induction l as [| b l IHl]; [reflexivity |].
    cbn [filter]. destruct (same_key x b) eqn:E.
    + apply same_key_eq in E. exfalso. apply Hni. rewrite E. left. reflexivity.
    + apply IHl. intros H. apply Hni. right. assumption.
  - destruct (same_key x a) eqn:E.
    + apply same_key_eq in E. exfalso. apply Hni. rewrite <- E.
      apply in_map. assumption.
    + apply IH; assumption.
Qed.

(** ** Runs of the migrators' monad *)

Lemma bind_Val_inv {O S A B} (m : M O S A) (k : A -> M O S B) s b s2 :
  bind m k s = (Val b, s2) ->
  exists a s1, m s = (Val a, s1) /\ k a s1 = (Val b, s2).
Proof.
  unfold bind. destruct (m s) as [[a | e | op e] s1]; intros H;
    [eauto | discriminate | discriminate].
Qed.

Lemma insert_rows_app {R K} (pk : R -> option K) eqb tbl new t :
  insert_rows pk eqb tbl new = Some t -> t = tbl ++ new.
Proof.
  revert tbl. induction new as [| r rest IH]; intros tbl H; cbn in H.
  - rewrite app_nil_r. congruence.
  - destruct (pk r); [| discriminate].
    destruct (existsb _ tbl); [discriminate |].
    apply IH in H. rewrite <- app_assoc in H. exact H.
Qed.

Lemma exec_Val_inv env old s st u st' :
  exec env old s st = (Val u, st') ->
  exists db', exec_tree_stmt old s (ts_db st) = inr db' /\
              st' = mkTState db' (ts_log st ++ [(TExec s, None)]).
Proof.
  unfold exec. destruct (fault_at env (length (ts_log st))); [discriminate |].
  destruct (exec_tree_stmt old s (ts_db st)) as [e | db']; [discriminate |].
  intros H. inversion H. eauto.
Qed.

Lemma query_Val_inv {A} env q (answer : sqlerr + A) st r st' :
  query env q answer st = (Val r, st') ->
  ts_db st' = ts_db st /\ (r = answer \/ r = inl ErrIO).
Proof.
  unfold query, fault_at. intros H. inversion H; subst; clear H. cbn.
  split; [reflexivity |].
  destruct (env_fault env (length (ts_log st))); auto.
Qed.

Lemma find_shard_None id shards :
  find_shard id shards = None <-> ~ In id (map fst shards).
Proof.
  induction shards as [| [i t] rest IH]; cbn.
  - tauto.
  - destruct (Z.eqb_spec i id); split; intros H.
    + discriminate.
    + exfalso. apply H. left. assumption.
    + intros [E | Hin]; [contradiction | tauto].
    + apply IH. tauto.
Qed.

Lemma find_shard_map (f : Z -> list BranchRow) id ids t :
  find_shard id (map (fun i => (i, f i)) ids) = Some t -> t = f id /\ In id ids.
Proof.
  induction ids as [| i rest IH]; cbn; [discriminate |].
  destruct (Z.eqb_spec i id) as [-> | N]; intros H.
  - inversion H. auto.
  - destruct (IH H). auto.
Qed.

Lemma set_shard_map (f : Z -> list BranchRow) id t ids :
  set_shard id t (map (fun i => (i, f i)) ids)
  = map (fun i => (i, if i =? id then t else f i)) ids.
Proof.
  unfold set_shard. rewrite map_map. apply map_ext. intros i. cbn.
  destruct (Z.eqb_spec i id); congruence.
Qed.

(** The table-creation loop, when it completes. *)
Lemma create_shards_Val env old ids st st' :
  for_each ids (fun id => exec env old (CreateShard id)) st = (Val tt, st') ->
  dst_shards (ts_db st') = dst_shards (ts_db st) ++ map (fun id => (id, [])) ids /\
  NoDup ids /\
  (forall id, In id ids -> ~ In id (map fst (dst_shards (ts_db st)))) /\
  dst_root (ts_db st') = dst_root (ts_db st) /\
  dst_branch_orphan (ts_db st') = dst_branch_orphan (ts_db st) /\
  dst_attached (ts_db st') = dst_attached (ts_db st).
Proof.
  revert st. induction ids as [| id rest IH]; intros st H; cbn [for_each] in H.
  - inversion H; subst. rewrite app_nil_r.
    repeat split; try constructor. intros ? [].
  - apply bind_Val_inv in H. destruct H as [u [s1 [H1 H2]]].
    apply exec_Val_inv in H1. destruct H1 as [db' [Hx ->]].
    cbn [exec_tree_stmt] in Hx.
    destruct (find_shard id (dst_shards (ts_db st))) eqn:F; [discriminate |].
    inversion Hx; subst db'; clear Hx.
    apply IH in H2. cbn [ts_db dst_shards dst_root dst_branch_orphan dst_attached] in H2.
    destruct H2 as [Hs [Hnd [Hfresh [Hr [Ho Ha]]]]].
    apply find_shard_None in F.
    split; [rewrite Hs, <- app_assoc; reflexivity |].
    split.
    { constructor; [| assumption]. intros Hin. apply (Hfresh id Hin).
      rewrite map_app. apply in_or_app. right. left. reflexivity. }
    split.
    { intros i [<- | Hi]; [assumption |].
      intros Hin. apply (Hfresh i Hi). rewrite map_app.
      apply in_or_app. left. assumption. }
    auto.
Qed.

(** The copy loop, when it completes, on tables that were empty. *)
Lemma copy_shards_Val env old rows ids0 ids :
  src_tree_1 old = Some rows ->
  NoDup ids ->
  forall f st st',
  dst_shards (ts_db st) = map (fun i => (i, f i)) ids0 ->
  (forall i, In i ids -> f i = []) ->
  for_each ids (fun id =>
    exec env old (CopyShard id (startVersion id) (endVersion id))) st
    = (Val tt, st') ->
  exists f',
    dst_shards (ts_db st') = map (fun i => (i, f' i)) ids0 /\
    (forall i, In i ids ->
       f' i = select_shard (startVersion i) (endVersion i) rows) /\
    (forall i, ~ In i ids -> f' i = f i) /\
    dst_root (ts_db st') = dst_root (ts_db st) /\
    dst_branch_orphan (ts_db st') = dst_branch_orphan (ts_db st) /\
    dst_attached (ts_db st') = dst_attached (ts_db st).
Proof.
  intros Hsrc Hnd. induction Hnd as [| id rest Hni Hnd IH];
    intros f st st' Hs Hempty H; cbn [for_each] in H.
  - inversion H; subst. exists f. repeat split; auto. intros ? [].
  - apply bind_Val_inv in H. destruct H as [u [s1 [H1 H2]]].
    apply exec_Val_inv in H1. destruct H1 as [db' [Hx ->]].
    cbn [exec_tree_stmt] in Hx. rewrite Hsrc in Hx.
    destruct (dst_attached (ts_db st)) eqn:Att; [| discriminate].
    destruct (find_shard id (dst_shards (ts_db st))) as [tbl |] eqn:F;
      [| discriminate].
    destruct (insert_rows branch_pk (pair_eqb Z.eqb Z.eqb) tbl
                (select_shard (startVersion id) (endVersion id) rows))
      as [tbl' |] eqn:I; [| discriminate].
    inversion Hx; subst db'; clear Hx.
    rewrite Hs in F. apply find_shard_map in F. destruct F as [-> _].
    apply insert_rows_app in I.
    rewrite Hempty in I by (left; reflexivity). cbn [app] in I. subst tbl'.
    set (g := fun i => if i =? id
                       then select_shard (startVersion id) (endVersion id) rows
                       else f i).
    assert (Hg : forall i, In i rest -> g i = []).
    { intros i Hi. unfold g.
      destruct (Z.eqb_spec i id) as [-> | N]; [contradiction |].
      apply Hempty. right. assumption. }
    assert (Hs1 : dst_shards (ts_db
                    (mkTState
                       (mkTreeDest (dst_root (ts_db st))
                          (dst_branch_orphan (ts_db st))
                          (set_shard id
                             (select_shard (startVersion id) (endVersion id) rows)
                             (dst_shards (ts_db st)))
                          true)
                       (ts_log st ++
                        [(TExec (CopyShard id (startVersion id) (endVersion id)),
                          None)])))
                  = map (fun i => (i, g i)) ids0).
    { cbn [ts_db dst_shards]. rewrite Hs, set_shard_map. reflexivity. }
    destruct (IH g _ _ Hs1 Hg H2) as [f' [Hs' [Hsel [Hkeep [Hr [Ho Ha]]]]]].
    cbn [ts_db dst_root dst_branch_orphan dst_attached] in Hr, Ho, Ha.
    exists f'. split; [exact Hs' |]. split.
    { intros i [<- | Hi]; [| apply Hsel; assumption].
      rewrite Hkeep by assumption. unfold g.
      rewrite Z.eqb_refl. reflexivity. }
    split.
    { intros i Hi. rewrite Hkeep by (intros ?; apply Hi; right; assumption).
      unfold g. destruct (Z.eqb_spec i id) as [-> | N]; [| reflexivity].
      exfalso. apply Hi. left. reflexivity. }
    auto.
Qed.

(** ** Completed runs of [migrateTree] *)

Lemma CopyRoot_inv old db db' :
  exec_tree_stmt old CopyRoot db = inr db' ->
  exists roots tbl,
    src_root old = Some roots /\ dst_root db = Some tbl /\
    db' = mkTreeDest (Some (tbl ++ roots)) (dst_branch_orphan db)
            (dst_shards db) (dst_attached db).
Proof.
  cbn [exec_tree_stmt]. intros H.
  destruct (dst_attached db); [| discriminate].
  destruct (src_root old) as [roots |]; [| discriminate].
  destruct (dst_root db) as [tbl |]; [| discriminate].
  destruct (insert_rows root_pk Z.eqb tbl roots) as [tbl' |] eqn:I;
    [| discriminate].
  apply insert_rows_app in I. subst tbl'.
  inversion H. eauto.
Qed.

Lemma CopyOrphan_inv old db db' :
  exec_tree_stmt old CopyOrphan db = inr db' ->
  exists orphans tbl,
    src_orphan old = Some orphans /\ dst_branch_orphan db = Some tbl /\
    db' = mkTreeDest (dst_root db) (Some (tbl ++ orphans))
            (dst_shards db) (dst_attached db).
Proof.
  cbn [exec_tree_stmt]. intros H.
  destruct (dst_attached db); [| discriminate].
  destruct (src_orphan old) as [orphans |]; [| discriminate].
  destruct (dst_branch_orphan db) as [tbl |]; [| discriminate].
  destruct (insert_rows orphan_pk _ tbl orphans) as [tbl' |] eqn:I;
    [| discriminate].
  apply insert_rows_app in I. subst tbl'.
  inversion H. eauto.
Qed.

Lemma DetachOld_inv old db db' :
  exec_tree_stmt old DetachOld db = inr db' ->
  db' = mkTreeDest (dst_root db) (dst_branch_orphan db) (dst_shards db) false.
Proof.
  cbn [exec_tree_stmt]. destruct (dst_attached db); [| discriminate].
  intros H. inversion H. reflexivity.
Qed.

Lemma exec_DetachOld_Val env old st u st' :
  exec env old DetachOld st = (Val u, st') ->
  ts_db st'
  = mkTreeDest (dst_root (ts_db st)) (dst_branch_orphan (ts_db st))
      (dst_shards (ts_db st)) false.
Proof.
  intros H. apply exec_Val_inv in H. destruct H as [db' [Hx ->]].
  apply DetachOld_inv in Hx. exact Hx.
Qed.

Lemma count_rows_inr {R} (tbl : option (list R)) n :
  count_rows tbl = inr n -> exists rows, tbl = Some rows /\ n = Z.of_nat (length rows).
Proof.
  destruct tbl as [rows |]; cbn; intros H; [| discriminate].
  inversion H. eauto.
Qed.

Lemma migrate_shards_Val env old rows minV maxV st st' :
  src_tree_1 old = Some rows ->
  dst_shards (ts_db st) = [] ->
  migrate_shards env old minV maxV st = (Val tt, st') ->
  ts_db st'
  = mkTreeDest (dst_root (ts_db st)) (dst_branch_orphan (ts_db st))
      (map (fun id => (id, select_shard (startVersion id) (endVersion id) rows))
         (calculateShardRange minV maxV))
      false.
Proof.
  intros Hsrc Hnil H. unfold migrate_shards in H.
  apply bind_Val_inv in H. destruct H as [[] [s1 [H1 H]]].
  apply bind_Val_inv in H. destruct H as [[] [s2 [H2 H]]].
  apply create_shards_Val in H1.
  destruct H1 as [Hs1 [Hnd [_ [Hr1 [Ho1 Ha1]]]]].
  rewrite Hnil in Hs1. cbn [app] in Hs1.
  eapply (copy_shards_Val env old rows _ _ Hsrc Hnd (fun _ => [])) in H2;
    [| exact Hs1 | reflexivity].
  destruct H2 as [f' [Hs2 [Hsel [_ [Hr2 [Ho2 Ha2]]]]]].
  apply exec_DetachOld_Val in H. rewrite H. f_equal.
  - congruence.
  - congruence.
  - rewrite Hs2. apply map_ext_in. intros i Hi. rewrite Hsel by assumption.
    reflexivity.
Qed.


Lemma length_zero_nil {A} (l : list A) : Z.of_nat (length l) = 0 -> l = [].
Proof. destruct l; cbn [length]; [reflexivity | lia]. Qed.

(** What a run of [migrateTree] that returns nil has done. *)
Lemma migrateTree_Val env old st :
  run_migrateTree env old = (Val tt, st) ->
  exists rows roots,
    src_tree_1 old = Some rows /\ src_root old = Some roots /\
    dst_root (ts_db st) = Some roots /\
    dst_attached (ts_db st) = false /\
    dst_shards (ts_db st) = shard_tables rows /\
    ((rows = [] /\ roots = [] /\ dst_branch_orphan (ts_db st) = Some []) \/
     (~ (rows = [] /\ roots = []) /\
      exists orphans, src_orphan old = Some orphans /\
                      dst_branch_orphan (ts_db st) = Some orphans)).
Proof.
  unfold run_migrateTree, migrateTree. intros H.
  destruct (env_mkdir_ok env); cbn [negb] in H; [| discriminate].
  apply bind_Val_inv in H. destruct H as [[] [s1 [H1 H]]].
  apply exec_Val_inv in H1. destruct H1 as [db1 [Hx1 ->]].
  cbn in Hx1. inversion Hx1; subst db1; clear Hx1.
  apply bind_Val_inv in H. destruct H as [[] [s2 [H2 H]]].
  apply exec_Val_inv in H2. destruct H2 as [db2 [Hx2 ->]].
  cbn in Hx2. inversion Hx2; subst db2; clear Hx2.
  apply bind_Val_inv in H. destruct H as [[] [s3 [H3 H]]].
  apply exec_Val_inv in H3. destruct H3 as [db3 [Hx3 ->]].
  cbn in Hx3. inversion Hx3; subst db3; clear Hx3.
  apply bind_Val_inv in H. destruct H as [r1 [s4 [H4 H]]].
  apply query_Val_inv in H4. destruct H4 as [Hdb4 Hr1].
  destruct r1 as [e | count]; [discriminate |].
  destruct Hr1 as [Hr1 | Hr1]; [| discriminate].
  symmetry in Hr1. apply count_rows_inr in Hr1.
  destruct Hr1 as [rows [Hrows ->]].
  apply bind_Val_inv in H. destruct H as [r2 [s5 [H5 H]]].
  apply query_Val_inv in H5. destruct H5 as [Hdb5 Hr2].
  destruct r2 as [e | rootCount]; [discriminate |].
  destruct Hr2 as [Hr2 | Hr2]; [| discriminate].
  symmetry in Hr2. apply count_rows_inr in Hr2.
  destruct Hr2 as [roots [Hroots ->]].
  rewrite Hdb4 in Hdb5. cbn [ts_db] in Hdb5.
  exists rows, roots. split; [assumption |]. split; [assumption |].
  destruct ((Z.of_nat (length rows) =? 0) && (Z.of_nat (length roots) =? 0))
    eqn:Empty.
  - (* both tables empty *)
    apply andb_true_iff in Empty. destruct Empty as [E1 E2].
    apply Z.eqb_eq, length_zero_nil in E1. apply Z.eqb_eq, length_zero_nil in E2.
    subst rows roots.
    apply exec_DetachOld_Val in H. rewrite H, Hdb5. cbn.
    repeat split. left. repeat split.
  - assert (Hne : ~ (rows = [] /\ roots = [])).
    { intros [-> ->]. discriminate. }
    apply bind_Val_inv in H. destruct H as [[] [s6 [H6 H]]].
    assert (Hdb6 : ts_db s6 = mkTreeDest (Some roots) (Some []) [] true).
    { destruct (0 <? Z.of_nat (length roots)) eqn:Pos.
      - apply exec_Val_inv in H6. destruct H6 as [db6 [Hx6 ->]].
        apply CopyRoot_inv in Hx6.
        destruct Hx6 as [roots' [tbl [Hs [Ht ->]]]].
        rewrite Hdb5 in *. cbn in Ht |- *.
        rewrite Hroots in Hs. inversion Hs; inversion Ht; subst.
        reflexivity.
      - inversion H6; subst s6. rewrite Hdb5.
        apply Z.ltb_ge in Pos.
        assert (roots = []) as -> by (apply length_zero_nil; lia).
        reflexivity. }
    apply bind_Val_inv in H. destruct H as [[] [s7 [H7 H]]].
    apply exec_Val_inv in H7. destruct H7 as [db7 [Hx7 ->]].
    apply CopyOrphan_inv in Hx7.
    destruct Hx7 as [orphans [tbl [Hso [Ht ->]]]].
    rewrite Hdb6 in *. cbn in Ht. inversion Ht; subst tbl; clear Ht.
    cbn [app dst_root dst_shards dst_attached] in H.
    set (s7 := mkTState _ _) in H.
    assert (Hfin : ts_db st = mkTreeDest (Some roots) (Some orphans)
                                (shard_tables rows) false).
    { destruct (0 <? Z.of_nat (length rows)) eqn:Pos.
      - apply bind_Val_inv in H. destruct H as [r3 [s8 [H8 H]]].
        apply query_Val_inv in H8. destruct H8 as [Hdb8 Hr3].
        destruct Hr3 as [-> | ->]; [| discriminate].
        unfold min_max_version in H. rewrite Hrows in H.
        unfold shard_tables.
        destruct (sql_min (versions rows)) as [minV |],
                 (sql_max (versions rows)) as [maxV |].
        + apply (migrate_shards_Val env old rows) in H;
            [| assumption | rewrite Hdb8; reflexivity].
          rewrite H, Hdb8. reflexivity.
        + apply exec_DetachOld_Val in H. rewrite H, Hdb8. reflexivity.
        + apply exec_DetachOld_Val in H. rewrite H, Hdb8. reflexivity.
        + apply exec_DetachOld_Val in H. rewrite H, Hdb8. reflexivity.
      - apply Z.ltb_ge in Pos.
        assert (rows = []) as -> by (apply length_zero_nil; lia).
        apply exec_DetachOld_Val in H. rewrite H. reflexivity. }
    rewrite Hfin. cbn. repeat split. right. split; [assumption |].
    exists orphans. auto.
Qed.

(** ** MIN and MAX of the versions *)

Lemma fold_min_spec xs x :
  In (fold_left Z.min xs x) (x :: xs) /\
  forall y, In y (x :: xs) -> fold_left Z.min xs x <= y.
Proof.
  revert x. induction xs as [| a xs IH]; intros x; cbn [fold_left].
  - split; [left; reflexivity |]. intros y [<- | []]. lia.
  - destruct (IH (Z.min x a)) as [Hin Hle]. split.
    + destruct Hin as [E | Hin].
      * rewrite <- E. destruct (Z.min_spec x a) as [[_ ->] | [_ ->]];
          [left | right; left]; reflexivity.
      * right. right. assumption.
    + intros y Hy.
      assert (Hm : fold_left Z.min xs (Z.min x a) <= Z.min x a)
        by (apply Hle; left; reflexivity).
      destruct Hy as [<- | [<- | Hy]]; [lia | lia |].
      apply Hle. right. assumption.
Qed.

Lemma fold_max_spec xs x :
  In (fold_left Z.max xs x) (x :: xs) /\
  forall y, In y (x :: xs) -> y <= fold_left Z.max xs x.
Proof.
  revert x. induction xs as [| a xs IH]; intros x; cbn [fold_left].
  - split; [left; reflexivity |]. intros y [<- | []]. lia.
  - destruct (IH (Z.max x a)) as [Hin Hle]. split.
    + destruct Hin as [E | Hin].
      * rewrite <- E. destruct (Z.max_spec x a) as [[_ ->] | [_ ->]];
          [right; left | left]; reflexivity.
      * right. right. assumption.
    + intros y Hy.
      assert (Hm : Z.max x a <= fold_left Z.max xs (Z.max x a))
        by (apply Hle; left; reflexivity).
      destruct Hy as [<- | [<- | Hy]]; [lia | lia |].
      apply Hle. right. assumption.
Qed.

Lemma versions_In rows v :
  In v (versions rows) <-> exists r, In r rows /\ br_version r = Some v.
Proof.
  unfold versions. rewrite in_flat_map. split.
  - intros [r [Hr Hv]]. exists r. split; [assumption |].
    destruct (br_version r) as [w |]; [| contradiction].
    destruct Hv as [-> | []]. reflexivity.
  - intros [r [Hr Hv]]. exists r. split; [assumption |].
    rewrite Hv. left. reflexivity.
Qed.

Lemma min_max_spec l :
  l <> [] ->
  exists mn mx, sql_min l = Some mn /\ sql_max l = Some mx /\
                In mn l /\ In mx l /\ forall x, In x l -> mn <= x <= mx.
Proof.
  destruct l as [| x xs]; [congruence |]. intros _.
  destruct (fold_min_spec xs x) as [Hmi Hml].
  destruct (fold_max_spec xs x) as [Hxi Hxl].
  exists (fold_left Z.min xs x), (fold_left Z.max xs x).
  repeat split; auto.
Qed.


(** ** The shard tables of a completed run *)

Lemma where_version_key lo hi a b :
  branch_key a = branch_key b -> where_version lo hi a = where_version lo hi b.
Proof.
  unfold branch_key, where_version. intros H. inversion H as [[Hv Hs]].
  rewrite Hv. reflexivity.
Qed.

Lemma select_shard_filter lo hi rows :
  select_shard lo hi rows = filter (where_version lo hi) (dedup rows).
Proof.
  unfold select_shard, dedup. rewrite !keep_first_eq.
  change (@nil BranchRow) with (filter (where_version lo hi) []) at 1.
  apply keep_first_from_filter. apply where_version_key.
Qed.

Lemma select_shard_In id rows r :
  In r (select_shard (startVersion id) (endVersion id) rows) <->
  In r (dedup rows) /\ exists v, br_version r = Some v /\ in_window id v = true.
Proof.
  rewrite select_shard_filter, filter_In. unfold where_version, in_window.
  split.
  - intros [Hin Hw]. split; [assumption |].
    destruct (br_version r) as [v |]; [| discriminate]. eauto.
  - intros [Hin [v [Hv Hw]]]. split; [assumption |]. rewrite Hv. exact Hw.
Qed.

Lemma select_shard_NoDup lo hi rows :
  NoDup (map branch_key (select_shard lo hi rows)).
Proof. unfold select_shard. apply keep_first_from_NoDup. Qed.

Lemma dedup_NoDup rows : NoDup (map branch_key (dedup rows)).
Proof. unfold dedup. apply keep_first_from_NoDup. Qed.

Lemma dedup_In rows r : In r (dedup rows) -> In r rows.
Proof. unfold dedup. apply keep_first_from_In. Qed.

Lemma NoDup_concat_keys (sel : Z -> list BranchRow) ids :
  NoDup ids ->
  (forall i, NoDup (map branch_key (sel i))) ->
  (forall i j x y, In i ids -> In j ids -> In x (sel i) -> In y (sel j) ->
                   branch_key x = branch_key y -> i = j) ->
  NoDup (map branch_key (concat (map sel ids))).
Proof.
  intros Hnd Hsel Hcross. induction Hnd as [| i rest Hni Hnd IH].
  - constructor.
  - cbn [map concat]. rewrite map_app. apply NoDup_app.
    + apply Hsel.
    + apply IH. intros a b x y Ha Hb. apply Hcross; right; assumption.
    + intros k Hk1 Hk2.
      apply in_map_iff in Hk1. destruct Hk1 as [x [Hkx Hx]].
      apply in_map_iff in Hk2. destruct Hk2 as [y [Hky Hy]].
      apply in_concat in Hy. destruct Hy as [l [Hl Hy]].
      apply in_map_iff in Hl. destruct Hl as [j [<- Hj]].
      assert (i = j).
      { apply (Hcross i j x y); [left; reflexivity | right; assumption
                                | assumption | assumption | congruence]. }
      subst j. contradiction.
Qed.

Lemma source_safe_In old rows r v :
  source_safe old = true -> src_tree_1 old = Some rows ->
  In r rows -> br_version r = Some v -> 1 <= v <= max_safe_version.
Proof.
  unfold source_safe. intros Hs Hrows Hr Hv. rewrite Hrows in Hs.
  rewrite forallb_forall in Hs. specialize (Hs r Hr).
  unfold version_safe in Hs. rewrite Hv in Hs.
  apply andb_true_iff in Hs. rewrite !Z.leb_le in Hs. exact Hs.
Qed.

Lemma safe_in_range v : 1 <= v <= max_safe_version -> Int64.in_range v.
Proof.
  unfold max_safe_version, Int64.in_range, Int64.min_int, Int64.max_int. lia.
Qed.

(** The shard tables of a source in the safe range. *)
Lemma shard_tables_safe old rows :
  source_safe old = true -> src_tree_1 old = Some rows ->
  exists ids,
    shard_tables rows
    = map (fun id => (id, select_shard (startVersion id) (endVersion id) rows)) ids /\
    NoDup ids /\
    (forall id, In id ids -> 1 <= id <= 18446744073709) /\
    (forall r v, In r rows -> br_version r = Some v -> In (ToShardID v) ids).
Proof.
  intros Hsafe Hrows. unfold shard_tables.
  destruct (versions rows) as [| x xs] eqn:Hvs.
  - exists []. cbn. repeat split; try constructor; try contradiction.
    intros r v Hr Hv.
    assert (In v (versions rows)) by (apply versions_In; eauto).
    rewrite Hvs in H. contradiction.
  - destruct (min_max_spec (x :: xs) ltac:(congruence))
      as [mn [mx [Hmin [Hmax [Imn [Imx Hb]]]]]].
    rewrite Hmin, Hmax. rewrite <- Hvs in Imn, Imx, Hb.
    apply versions_In in Imn. destruct Imn as [rmn [Hrmn Hvmn]].
    apply versions_In in Imx. destruct Imx as [rmx [Hrmx Hvmx]].
    pose proof (source_safe_In old rows rmn mn Hsafe Hrows Hrmn Hvmn) as Smn.
    pose proof (source_safe_In old rows rmx mx Hsafe Hrows Hrmx Hvmx) as Smx.
    exists (calculateShardRange mn mx). split; [reflexivity |].
    rewrite calculateShardRange_pos
      by (try apply safe_in_range; assumption || lia).
    destruct (ToShardID_safe mn Smn) as [Bmn _].
    destruct (ToShardID_safe mx Smx) as [Bmx _].
    split; [apply Z_range_NoDup |]. split.
    + intros id Hid. apply Z_range_In in Hid. lia.
    + intros r v Hr Hv. apply Z_range_In.
      pose proof (source_safe_In old rows r v Hsafe Hrows Hr Hv) as Sv.
      assert (Hin : In v (versions rows)) by (apply versions_In; eauto).
      specialize (Hb v Hin).
      split; apply ToShardID_mono; try apply safe_in_range; assumption || lia.
Qed.

Lemma find_shard_map_In (f : Z -> list BranchRow) id ids :
  In id ids -> find_shard id (map (fun i => (i, f i)) ids) = Some (f id).
Proof.
  induction ids as [| i rest IH]; intros H; [contradiction |].
  cbn. destruct (Z.eqb_spec i id) as [-> | N]; [reflexivity |].
  destruct H as [E | H]; [contradiction | auto].
Qed.

Lemma filter_none {A} (f : A -> bool) l :
  (forall x, In x l -> f x = false) -> filter f l = [].
Proof.
  induction l as [| a l IH]; intros H; [reflexivity |].
  cbn. rewrite (H a (or_introl eq_refl)). apply IH.
  intros x Hx. apply H. right. assumption.
Qed.


(** The facts about the shard tables of a completed run that the statements
    below share. *)
Lemma migrateTree_shards_aux env old st :
  run_migrateTree env old = (Val tt, st) ->
  source_safe old = true ->
  exists rows ids,
    src_tree_1 old = Some rows /\
    dst_shards (ts_db st)
    = map (fun id => (id, select_shard (startVersion id) (endVersion id) rows)) ids /\
    NoDup ids /\
    (forall id r,
       In id ids -> In r (select_shard (startVersion id) (endVersion id) rows) ->
       In r (dedup rows) /\ exists v, br_version r = Some v /\ id = ToShardID v) /\
    (forall r v, In r rows -> br_version r = Some v -> In (ToShardID v) ids) /\
    NoDup (map branch_key
             (concat (map (fun id =>
                             select_shard (startVersion id) (endVersion id) rows)
                        ids))).
Proof.
  intros Hrun Hsafe.
  destruct (migrateTree_Val env old st Hrun)
    as [rows [roots [Hrows [Hroots [Hr [Ha [Hs Ho]]]]]]].
  destruct (shard_tables_safe old rows Hsafe Hrows)
    as [ids [Hids [Hnd [Hb Hcover]]]].
  rewrite Hids in Hs. exists rows, ids.
  set (sel := fun id => select_shard (startVersion id) (endVersion id) rows) in *.
  assert (Hplace : forall id r, In id ids -> In r (sel id) ->
            In r (dedup rows) /\
            exists v, br_version r = Some v /\ id = ToShardID v).
  { intros id r Hid Hin. apply select_shard_In in Hin.
    destruct Hin as [Hd [v [Hv Hw]]]. split; [assumption |].
    exists v. split; [assumption |].
    apply in_window_unique; [specialize (Hb id Hid); lia | | assumption].
    apply (source_safe_In old rows r v); auto using dedup_In. }
  repeat (split; [assumption |]).
  apply NoDup_concat_keys; [assumption | |].
  - intros i. apply select_shard_NoDup.
  - intros i j x y Hi Hj Hx Hy Hk.
    destruct (Hplace i x Hi Hx) as [_ [v [Hv ->]]].
    destruct (Hplace j y Hj Hy) as [_ [w [Hw ->]]].
    unfold branch_key in Hk. inversion Hk as [[E1 E2]].
    rewrite Hv, Hw in E1. inversion E1. reflexivity.
Qed.

(** C1, as the code has it.  When [migrateTree] returns nil on a source whose
    non-NULL branch versions all lie between 1 and [max_safe_version]: the
    rows of all shard tables together are the deduplicated rows of [tree_1]
    that have a version (rows with a NULL version are not migrated).  Said
    without the deduplicating query: every row of a shard table is the first
    row, in rowid order, of its (version, sequence) in [tree_1]; every row of
    [tree_1] with a version has a row of its (version, sequence) in the shard
    table of [ToShardID] of that version; and no (version, sequence) occurs
    twice in the shard tables, so every such row is in one shard table only.
    The root table is the source's; and the branch-orphan table is the
    source's, unless the source has neither branch nor root rows, when
    nothing is copied. *)
Theorem migrateTree_shards_union env old st :
  run_migrateTree env old = (Val tt, st) ->
  source_safe old = true ->
  exists rows roots,
    src_tree_1 old = Some rows /\ src_root old = Some roots /\
    Permutation (all_shard_rows (ts_db st)) (filter has_version (dedup rows)) /\
    (forall r, In r (all_shard_rows (ts_db st)) ->
       exists l1 l2,
         rows = l1 ++ r :: l2 /\
         forall x, In x l1 -> branch_key x <> branch_key r) /\
    (forall r v, In r rows -> br_version r = Some v ->
       exists tbl r',
         find_shard (ToShardID v) (dst_shards (ts_db st)) = Some tbl /\
         In r' tbl /\ branch_key r' = branch_key r) /\
    NoDup (map branch_key (all_shard_rows (ts_db st))) /\
    NoDup (map fst (dst_shards (ts_db st))) /\
    (forall id tbl r, In (id, tbl) (dst_shards (ts_db st)) -> In r tbl ->
       exists v, br_version r = Some v /\ id = ToShardID v) /\
    dst_root (ts_db st) = Some roots /\
    ((rows = [] /\ roots = [] /\ dst_branch_orphan (ts_db st) = Some []) \/
     (~ (rows = [] /\ roots = []) /\
      exists orphans, src_orphan old = Some orphans /\
                      dst_branch_orphan (ts_db st) = Some orphans)).
Proof.
  intros Hrun Hsafe.
  destruct (migrateTree_Val env old st Hrun)
    as [rows [roots [Hrows [Hroots [Hr [Ha [_ Ho]]]]]]].
  destruct (migrateTree_shards_aux env old st Hrun Hsafe)
    as [rows' [ids [Hrows' [Hs [Hnd [Hplace [Hcover Hkeys]]]]]]].
  rewrite Hrows in Hrows'. inversion Hrows'; subst rows'; clear Hrows'.
  exists rows, roots. split; [assumption |]. split; [assumption |].
  set (sel := fun id => select_shard (startVersion id) (endVersion id) rows) in *.
  assert (Hall : all_shard_rows (ts_db st) = concat (map sel ids)).
  { unfold all_shard_rows. rewrite Hs, map_map. reflexivity. }
  split; [| split; [| split; [| split; [| split; [| split; [| split]]]]]].
  2:{ intros r Hin. rewrite Hall in Hin. apply in_concat in Hin.
      destruct Hin as [l [Hl Hin]]. apply in_map_iff in Hl.
      destruct Hl as [id [<- Hid]].
      destruct (Hplace id r Hid Hin) as [Hd _].
      unfold dedup in Hd. rewrite keep_first_eq in Hd.
      destruct (keep_first_from_split [] rows r Hd) as [l1 [l2 [E Hf]]].
      exists l1, l2. split; [exact E | exact Hf]. }
  2:{ intros r v Hin Hv.
      destruct (keep_first_from_covers [] rows r Hin)
        as [[x [[] _]] | [x [Hx Hk]]].
      assert (Hxv : br_version x = Some v).
      { unfold branch_key in Hk. inversion Hk as [[E1 E2]]. congruence. }
      assert (Hxd : In x (dedup rows)) by exact Hx.
      exists (sel (ToShardID v)), x. split; [| split; [| exact Hk]].
      - rewrite Hs. apply find_shard_map_In. exact (Hcover r v Hin Hv).
      - apply select_shard_In. split; [exact Hxd |]. exists v.
        split; [exact Hxv |]. apply in_window_own_shard.
        apply (source_safe_In old rows x v); auto using dedup_In. }
  - rewrite Hall. apply NoDup_Permutation.
    + apply NoDup_key_rows. assumption.
    + apply NoDup_filter, NoDup_key_rows, dedup_NoDup.
    + intros r. rewrite in_concat, filter_In. split.
      * intros [l [Hl Hin]]. apply in_map_iff in Hl.
        destruct Hl as [id [<- Hid]].
        destruct (Hplace id r Hid Hin) as [Hd [v [Hv _]]].
        split; [assumption |]. unfold has_version. rewrite Hv. reflexivity.
      * intros [Hd Hv]. unfold has_version in Hv.
        destruct (br_version r) as [v |] eqn:Ev; [| discriminate].
        exists (sel (ToShardID v)). split.
        -- apply in_map. apply (Hcover r v); auto using dedup_In.
        -- apply select_shard_In. split; [assumption |].
           exists v. split; [assumption |]. apply in_window_own_shard.
           apply (source_safe_In old rows r v); auto using dedup_In.
  - rewrite Hall. assumption.
  - rewrite Hs, map_map. cbn [fst]. rewrite map_id. assumption.
  - intros id tbl r Hin Hr'. rewrite Hs in Hin. apply in_map_iff in Hin.
    destruct Hin as [i [E Hi]]. inversion E; subst.
    apply (Hplace id r Hi Hr').
  - assumption.
  - assumption.
Qed.

(** C4, as the code has it.  When [migrateTree] returns nil on a source in
    the safe range and [r] is the first row, in rowid order, of [tree_1] with
    its (version, sequence), its version not NULL: the shard table of
    [ToShardID] of that version holds exactly one row with this key, which is
    [r] itself, and no other shard table holds any. *)
Theorem migrateTree_keeps_first env old st rows l1 r l2 v :
  run_migrateTree env old = (Val tt, st) ->
  source_safe old = true ->
  src_tree_1 old = Some rows ->
  rows = l1 ++ r :: l2 ->
  (forall x, In x l1 -> branch_key x <> branch_key r) ->
  br_version r = Some v ->
  (exists tbl, find_shard (ToShardID v) (dst_shards (ts_db st)) = Some tbl /\
               filter (same_key r) tbl = [r]) /\
  (forall id tbl, In (id, tbl) (dst_shards (ts_db st)) -> id <> ToShardID v ->
                  filter (same_key r) tbl = []) /\
  filter (same_key r) (all_shard_rows (ts_db st)) = [r].
Proof.
  intros Hrun Hsafe Hrows Hsplit Hfirst Hv.
  destruct (migrateTree_shards_aux env old st Hrun Hsafe)
    as [rows' [ids [Hrows' [Hs [Hnd [Hplace [Hcover Hkeys]]]]]]].
  rewrite Hrows in Hrows'. inversion Hrows'; subst rows'; clear Hrows'.
  set (sel := fun id => select_shard (startVersion id) (endVersion id) rows) in *.
  assert (Hr : In r rows) by (rewrite Hsplit; apply in_elt).
  assert (Hd : In r (dedup rows)).
  { unfold dedup. rewrite keep_first_eq, Hsplit.
    apply keep_first_from_first. exact Hfirst. }
  assert (Hid : In (ToShardID v) ids) by (apply (Hcover r v); assumption).
  assert (Hin : In r (sel (ToShardID v))).
  { apply select_shard_In. split; [assumption |]. exists v.
    split; [assumption |]. apply in_window_own_shard.
    apply (source_safe_In old rows r v); assumption. }
  split; [| split].
  - exists (sel (ToShardID v)). split.
    + rewrite Hs. apply find_shard_map_In. assumption.
    + apply NoDup_key_count; [apply select_shard_NoDup | assumption].
  - intros id tbl Hmem Hne. rewrite Hs in Hmem. apply in_map_iff in Hmem.
    destruct Hmem as [i [E Hi]]. inversion E; subst.
    apply filter_none. intros x Hx.
    destruct (same_key r x) eqn:K; [| reflexivity].
    apply same_key_eq in K.
    destruct (Hplace id x Hi Hx) as [Hdx [w [Hw ->]]].
    unfold branch_key in K. inversion K as [[E1 E2]].
    rewrite Hv, Hw in E1. inversion E1; subst. contradiction.
  - apply NoDup_key_count.
    + unfold all_shard_rows. rewrite Hs, map_map. exact Hkeys.
    + unfold all_shard_rows. rewrite Hs, map_map. apply in_concat.
      exists (sel (ToShardID v)). split; [apply in_map; assumption | assumption].
Qed.

(** C1, the claim as stated fails: a branch row with a NULL version is in
    the deduplicated rows of the source, the run returns nil, and no shard
    table holds the row (there is no shard table at all). *)
Lemma migrateTree_null_version_not_migrated :
  fst (run_migrateTree env_ok null_version_tree) = Val tt /\
  In null_row_a (dedup [null_row_a; null_row_b]) /\
  dst_shards (ts_db (snd (run_migrateTree env_ok null_version_tree))) = [] /\
  ~ In null_row_a
      (all_shard_rows (ts_db (snd (run_migrateTree env_ok null_version_tree)))).
Proof.
  split; [reflexivity |]. split; [left; reflexivity |].
  split; [reflexivity |]. intros H. exact H.
Qed.

Lemma migrateTree_shards_union_witness :
  run_migrateTree env_ok example_tree = (Val tt, example_tree_final) /\
  source_safe example_tree = true /\
  exists rows roots,
    src_tree_1 example_tree = Some rows /\
    src_root example_tree = Some roots /\
    Permutation (all_shard_rows (ts_db example_tree_final))
      (filter has_version (dedup rows)) /\
    (forall r, In r (all_shard_rows (ts_db example_tree_final)) ->
       exists l1 l2,
         rows = l1 ++ r :: l2 /\
         forall x, In x l1 -> branch_key x <> branch_key r) /\
    (forall r v, In r rows -> br_version r = Some v ->
       exists tbl r',
         find_shard (ToShardID v) (dst_shards (ts_db example_tree_final))
         = Some tbl /\
         In r' tbl /\ branch_key r' = branch_key r) /\
    NoDup (map branch_key (all_shard_rows (ts_db example_tree_final))) /\
    NoDup (map fst (dst_shards (ts_db example_tree_final))) /\
    (forall id tbl r,
       In (id, tbl) (dst_shards (ts_db example_tree_final)) -> In r tbl ->
       exists v, br_version r = Some v /\ id = ToShardID v) /\
    dst_root (ts_db example_tree_final) = Some roots /\
    ((rows = [] /\ roots = [] /\
      dst_branch_orphan (ts_db example_tree_final) = Some []) \/
     (~ (rows = [] /\ roots = []) /\
      exists orphans,
        src_orphan example_tree = Some orphans /\
        dst_branch_orphan (ts_db example_tree_final) = Some orphans)).
Proof.
  assert (Hrun : run_migrateTree env_ok example_tree
                 = (Val tt, example_tree_final))
    by (vm_compute; reflexivity).
  assert (Hsafe : source_safe example_tree = true) by reflexivity.
  split; [exact Hrun |]. split; [exact Hsafe |].
  exact (migrateTree_shards_union env_ok example_tree example_tree_final
           Hrun Hsafe).
Defined.

(** C4, the claim as stated fails: two rows of the key (NULL, 1); the run
    returns nil and no shard table holds a row of that key. *)
Lemma migrateTree_null_version_key_dropped :
  same_key null_row_a null_row_b = true /\
  fst (run_migrateTree env_ok null_version_tree) = Val tt /\
  filter (same_key null_row_a)
    (all_shard_rows (ts_db (snd (run_migrateTree env_ok null_version_tree))))
  = [].
Proof. repeat split; reflexivity. Qed.

Lemma migrateTree_keeps_first_witness :
  run_migrateTree env_ok example_tree = (Val tt, example_tree_final) /\
  find_shard 1 (dst_shards (ts_db example_tree_final))
  = Some [ mkBranch (Some 1) (Some 1) (bytes_of "data1") false;
           mkBranch (Some 500000) (Some 1) (bytes_of "data2") false ] /\
  filter (same_key (mkBranch (Some 1) (Some 1) (bytes_of "data1") false))
    (all_shard_rows (ts_db example_tree_final))
  = [mkBranch (Some 1) (Some 1) (bytes_of "data1") false].
Proof.
  assert (Hrun : run_migrateTree env_ok example_tree
                 = (Val tt, example_tree_final))
    by (vm_compute; reflexivity).
  split; [exact Hrun |]. split; [vm_compute; reflexivity |].
  refine (proj2 (proj2 (migrateTree_keeps_first env_ok example_tree
                          example_tree_final example_rows []
                          (mkBranch (Some 1) (Some 1) (bytes_of "data1") false)
                          (tl example_rows) 1 Hrun _ _ _ _ _))).
  - reflexivity.
  - reflexivity.
  - reflexivity.
  - intros x [].
  - reflexivity.
Defined.

(** Rows whose version is not positive: version 0 makes [[1]] the shard
    range, the window of shard 1 starts at version 1, and the run returns nil
    with an empty [tree_1], having copied neither the row at version 0 nor the
    row at version 600000. *)
Lemma migrateTree_zero_version_rows_lost :
  ToShardID 0 = 1 /\
  in_window 1 0 = false /\
  calculateShardRange 0 600000 = [1] /\
  fst (run_migrateTree env_ok zero_version_tree) = Val tt /\
  dst_shards (ts_db (snd (run_migrateTree env_ok zero_version_tree)))
  = [(1, [])].
Proof. repeat split; reflexivity. Qed.

(** ** Runs without outside faults *)

Lemma fault_at_none env n :
  (forall n, env_fault env n = false) -> fault_at env n = None.
Proof. intros H. unfold fault_at. rewrite H. reflexivity. Qed.










(** ** Failures of the tree migrator *)

Lemma no_failed_exec_app log op :
  no_failed_exec log -> (forall s e, op <> (TExec s, Some e)) ->
  no_failed_exec (log ++ [op]).
Proof.
  intros H Hop s e Hin. apply in_app_or in Hin.
  destruct Hin as [Hin | [E | []]]; [exact (H s e Hin) | exact (Hop s e E)].
Qed.

Lemma tree_sat_ret {A} (a : A) : tree_sat (ret a).
Proof. intros st r st' H E. inversion E; subst. exact H. Qed.

Lemma tree_sat_fail_mkdir {A} : tree_sat (@fail tree_op TState A ErrorMkdir).
Proof. intros st r st' H E. inversion E; subst. split; auto. Qed.

Lemma tree_sat_bind {A B} (m : M tree_op TState A) (k : A -> M tree_op TState B) :
  tree_sat m -> (forall a, tree_sat (k a)) -> tree_sat (bind m k).
Proof.
  intros Hm Hk st r st' H E. unfold bind in E.
  destruct (m st) as [[a | e | op e] s1] eqn:Em.
  - apply (Hk a s1 r st'); [| exact E]. exact (Hm st _ _ H Em).
  - inversion E; subst. exact (Hm st _ _ H Em).
  - inversion E; subst. exact (Hm st _ _ H Em).
Qed.

Lemma tree_sat_exec env old s : tree_sat (exec env old s).
Proof.
  intros st r st' H E. unfold exec in E.
  destruct (match fault_at env (length (ts_log st)) with
            | Some e => inl e
            | None => exec_tree_stmt old s (ts_db st)
            end) as [e | db']; inversion E; subst; cbn.
  - exists s, (ts_log st). auto.
  - apply no_failed_exec_app; [assumption | intros; discriminate].
Qed.

Lemma tree_sat_for_each {A} (l : list A) (body : A -> M tree_op TState unit) :
  (forall x, tree_sat (body x)) -> tree_sat (for_each l body).
Proof.
  intros Hb. induction l as [| x l IH]; cbn [for_each].
  - apply tree_sat_ret.
  - apply tree_sat_bind; [apply Hb | intros _; exact IH].
Qed.

(** A query of the source, whose error is wrapped and returned. *)
Lemma tree_sat_query {A B} env q (answer : sqlerr + A) what
  (k : A -> M tree_op TState B) :
  (forall a, tree_sat (k a)) ->
  tree_sat (bind (query env q answer)
              (fun r => match r with
                        | inl e => fail (ErrorWrap what e)
                        | inr a => k a
                        end)).
Proof.
  intros Hk st r st' H E. unfold bind, query in E.
  set (res := match fault_at env (length (ts_log st)) with
              | Some e => inl e
              | None => answer
              end) in E.
  assert (Hlog : no_failed_exec
                   (ts_log st ++
                    [(TQuery q, match res with inl e => Some e | inr _ => None end)])).
  { apply no_failed_exec_app; [assumption | intros; discriminate]. }
  destruct res as [e | a].
  - inversion E; subst. cbn. split; [assumption |]. right.
    exists q, e, what. split; [reflexivity |].
    apply in_or_app. right. left. reflexivity.
  - eapply Hk; [| exact E]. exact Hlog.
Qed.

Lemma migrate_shards_sat env old minV maxV :
  tree_sat (migrate_shards env old minV maxV).
Proof.
  unfold migrate_shards.
  apply tree_sat_bind; [apply tree_sat_for_each; intros; apply tree_sat_exec |].
  intros _.
  apply tree_sat_bind; [apply tree_sat_for_each; intros; apply tree_sat_exec |].
  intros _. apply tree_sat_exec.
Qed.

Lemma migrateTree_sat env old : tree_sat (migrateTree env old).
Proof.
  unfold migrateTree. destruct (negb (env_mkdir_ok env)).
  { apply tree_sat_fail_mkdir. }
  apply tree_sat_bind; [apply tree_sat_exec | intros _].
  apply tree_sat_bind; [apply tree_sat_exec | intros _].
  apply tree_sat_bind; [apply tree_sat_exec | intros _].
  apply tree_sat_query. intros count.
  apply tree_sat_query. intros rootCount.
  destruct ((count =? 0) && (rootCount =? 0)); [apply tree_sat_exec |].
  apply tree_sat_bind.
  { destruct (0 <? rootCount); [apply tree_sat_exec | apply tree_sat_ret]. }
  intros _.
  apply tree_sat_bind; [apply tree_sat_exec | intros _].
  destruct (0 <? count); [| apply tree_sat_exec].
  intros st r st' H E. unfold bind, query in E.
  set (res := match fault_at env (length (ts_log st)) with
              | Some e => inl e
              | None => min_max_version old
              end) in E.
  assert (Hlog : no_failed_exec
                   (ts_log st ++
                    [(TQuery MinMaxVersion,
                      match res with inl e => Some e | inr _ => None end)])).
  { apply no_failed_exec_app; [assumption | intros; discriminate]. }
  destruct res as [e | [[minV |] [maxV |]]].
  - destruct (is_ErrNoRows e).
    + eapply tree_sat_exec; [| exact E]. exact Hlog.
    + inversion E; subst. cbn. split; [assumption |]. right.
      exists MinMaxVersion, e, "failed to query version range from tree_1"%string.
      split; [reflexivity |]. apply in_or_app. right. left. reflexivity.
  - eapply migrate_shards_sat; [| exact E]. exact Hlog.
  - eapply tree_sat_exec; [| exact E]. exact Hlog.
  - eapply tree_sat_exec; [| exact E]. exact Hlog.
  - eapply tree_sat_exec; [| exact E]. exact Hlog.
Qed.

(** C8, as the code has it.  In every run of [migrateTree], whatever fails:
    a statement on the destination that fails, a row copy as much as a table
    creation, ends the process there; the process ends for no other reason;
    and an error returned to the caller is that of [os.MkdirAll] or of a
    query of the source (a row count or the version range). *)
Theorem migrateTree_failures env old :
  let r := fst (run_migrateTree env old) in
  let log := ts_log (snd (run_migrateTree env old)) in
  (forall s e, In (TExec s, Some e) log -> r = Fatal (TExec s) e) /\
  (forall s e, is_create s = true -> In (TExec s, Some e) log ->
               r = Fatal (TExec s) e) /\
  (forall s e, is_copy s = true -> In (TExec s, Some e) log ->
               r = Fatal (TExec s) e /\ forall err, r <> Err err) /\
  (forall op e, r = Fatal op e ->
                exists s, op = TExec s /\ In (TExec s, Some e) log) /\
  (forall err, r = Err err ->
               err = ErrorMkdir \/
               exists q c what, err = ErrorWrap what c /\ In (TQuery q, Some c) log).
Proof.
  intros r log. subst r log. unfold run_migrateTree.
  destruct (migrateTree env old tree_init) as [r st] eqn:E. cbn [fst snd].
  assert (Hinv : tree_inv r st).
  { apply (migrateTree_sat env old tree_init r st); [| exact E].
    intros s e []. }
  assert (Hfail : forall s e, In (TExec s, Some e) (ts_log st) ->
                              r = Fatal (TExec s) e).
  { intros s e Hin. destruct r as [a | err | op e']; cbn in Hinv.
    - exfalso. exact (Hinv s e Hin).
    - exfalso. exact (proj1 Hinv s e Hin).
    - destruct Hinv as [s' [log0 [-> [Hlog Hclean]]]].
      rewrite Hlog in Hin. apply in_app_or in Hin.
      destruct Hin as [Hin | [Heq | []]].
      + exfalso. exact (Hclean s e Hin).
      + inversion Heq. reflexivity. }
  split; [exact Hfail |]. split; [intros s e _; apply Hfail |].
  split.
  { intros s e _ Hin. rewrite (Hfail s e Hin). split; [reflexivity |].
    intros err. discriminate. }
  split.
  - intros op e ->. cbn in Hinv.
    destruct Hinv as [s [log0 [-> [Hlog _]]]]. exists s. split; [reflexivity |].
    rewrite Hlog. apply in_or_app. right. left. reflexivity.
  - intros err ->. cbn in Hinv. exact (proj2 Hinv).
Qed.

(** C8, the claim as stated fails: the copy of a root row whose version is
    NULL violates the primary key of the target; the process ends in
    [log.Fatalf], no error is returned to the caller. *)
Lemma migrateTree_copy_failure_is_fatal :
  is_copy CopyRoot = true /\
  fst (run_migrateTree env_ok null_root_tree)
  = Fatal (TExec CopyRoot) ErrConstraint /\
  forall err, fst (run_migrateTree env_ok null_root_tree) <> Err err.
Proof.
  split; [reflexivity |]. split; [reflexivity |]. intros err. discriminate.
Qed.



(** ** Runs of the changelog migrator *)

Lemma cl_call_inv env old op st r st' :
  cl_call env old op st = (r, st') ->
  (exists s1, r = Val None /\ cl_step old op st = inr s1 /\
              st' = cl_log s1 op None) \/
  (exists e, r = Val (Some e) /\ st' = cl_log st op (Some e)).
Proof.
  unfold cl_call. intros H.
  destruct (fault_at env (length (cs_log st))) as [e |].
  - right. exists e. inversion H. auto.
  - destruct (cl_step old op st) as [e | s1] eqn:E.
    + right. exists e. inversion H. auto.
    + left. exists s1. inversion H. auto.
Qed.

Lemma or_return_Val env old wrap op st u st' :
  or_return wrap (cl_call env old op) st = (Val u, st') ->
  exists s1, cl_step old op st = inr s1 /\ st' = cl_log s1 op None.
Proof.
  unfold or_return, bind. intros H.
  destruct (cl_call env old op st) as [r s2] eqn:E.
  apply cl_call_inv in E. destruct E as [[s1 [-> [Hs ->]]] | [e [-> ->]]].
  - exists s1. inversion H. auto.
  - discriminate.
Qed.

Lemma cl_step_log old op st s1 : cl_step old op st = inr s1 -> cs_log s1 = cs_log st.
Proof.
  unfold cl_step, set_tx. intros H.
  destruct op; repeat
    match type of H with
    | match ?x with _ => _ end = _ => destruct x
    | inl _ = inr _ => discriminate
    | inr _ = inr _ => inversion H; clear H; subst
    end; try reflexivity; try discriminate.
Qed.


Lemma rekey_Some blake3 r v s :
  lf_version r = Some v -> lf_sequence r = Some s ->
  rekey blake3 r = Some (mkNewLeaf v s (blake3 (lf_key r)) (lf_bytes r) None).
Proof. unfold rekey. intros -> ->. reflexivity. Qed.

(** The row loop, when it ends with every [rows.Next()] having succeeded:
    each source row, in order, has been inserted under the hash of its key. *)
Lemma leaf_loop_Val blake3 env old rows :
  forall st st',
  leaf_loop blake3 env old rows st = (Val tt, st') ->
  (forall e, ~ In (Next, Some e) (cs_log st')) ->
  forall tx leaves,
  cs_tx st = Some tx -> cd_leaf tx = Some leaves ->
  exists new,
    map Some new = map (rekey blake3) rows /\
    cs_tx st' = Some (mkChangelogDest (Some (leaves ++ new)) (cd_leaf_idx tx)
                        (cd_leaf_orphan tx)) /\
    cs_committed st' = cs_committed st /\
    cs_attached st' = cs_attached st.
Proof.
  induction rows as [| r rest IH]; intros st st' H Hnext tx leaves Htx Hleaf;
    cbn [leaf_loop] in H; unfold bind at 1 in H;
    destruct (cl_call env old Next st) as [res s1] eqn:E;
    apply cl_call_inv in E;
    destruct E as [[s0 [-> [Hs ->]]] | [e [-> ->]]];
    try (inversion H; subst st'; exfalso; apply (Hnext e); cbn;
         apply in_or_app; right; left; reflexivity).
  - cbn in Hs. inversion Hs; subst s0. inversion H; subst st'.
    exists []. cbn. rewrite app_nil_r, Htx, <- Hleaf.
    destruct tx; auto.
  - cbn in Hs. inversion Hs; subst s0; clear Hs.
    destruct (lf_version r) as [v |] eqn:Ev; [| discriminate].
    destruct (lf_sequence r) as [s |] eqn:Es; [| discriminate].
    cbn in H.
    apply bind_Val_inv in H. destruct H as [[] [s2 [H2 H]]].
    apply or_return_Val in H2. destruct H2 as [s3 [Hs3 ->]].
    cbn in Hs3. rewrite Htx in Hs3. cbn in Hs3. rewrite Hleaf in Hs3.
    destruct (existsb _ leaves); [discriminate |].
    inversion Hs3; subst s3; clear Hs3.
    eapply IH in H; [| exact Hnext | reflexivity | reflexivity].
    destruct H as [new [Hmap [Htx' [Hc Ha]]]].
    exists (mkNewLeaf v s (blake3 (lf_key r)) (lf_bytes r) None :: new).
    split; [| split; [| split]].
    + cbn [map]. rewrite Hmap, (rekey_Some blake3 r v s Ev Es). reflexivity.
    + rewrite Htx'. cbn. rewrite <- app_assoc. reflexivity.
    + exact Hc.
    + exact Ha.
Qed.

Lemma create_tables_Val env old st st' :
  for_each createStmt (fun stmt =>
    or_return (ErrorWrap "exec"%string) (cl_call env old stmt)) st = (Val tt, st') ->
  cs_tx st = Some empty_changelog_dest ->
  cs_tx st' = Some (mkChangelogDest (Some []) true (Some [])) /\
  cs_committed st' = cs_committed st /\ cs_attached st' = cs_attached st /\
  exists ev, cs_log st' = cs_log st ++ ev /\ forall e, ~ In (Next, e) ev.
Proof.
  unfold createStmt. cbn [for_each]. intros H Htx.
  apply bind_Val_inv in H. destruct H as [[] [s1 [H1 H]]].
  apply or_return_Val in H1. destruct H1 as [t1 [Ht1 ->]].
  cbn in Ht1. rewrite Htx in Ht1. cbn in Ht1. inversion Ht1; subst t1; clear Ht1.
  apply bind_Val_inv in H. destruct H as [[] [s2 [H2 H]]].
  apply or_return_Val in H2. destruct H2 as [t2 [Ht2 ->]].
  cbn in Ht2. inversion Ht2; subst t2; clear Ht2.
  apply bind_Val_inv in H. destruct H as [[] [s3 [H3 H]]].
  apply or_return_Val in H3. destruct H3 as [t3 [Ht3 ->]].
  cbn in Ht3. inversion Ht3; subst t3; clear Ht3.
  inversion H; subst st'. cbn. repeat split.
  exists [(TxCreateLeaf, None); (TxCreateLeafIdx, None); (TxCreateLeafOrphan, None)].
  split; [rewrite <- !app_assoc; reflexivity |].
  intros e Hin. cbn in Hin.
  repeat (destruct Hin as [Hin | Hin]; [discriminate |]). exact Hin.
Qed.

(** What a run of [migrateChangelog] that returns nil has done, when no
    fetch of a source row failed. *)
Lemma migrateChangelog_Val blake3 env old pooled st :
  run_migrateChangelog blake3 env old pooled = (Val tt, st) ->
  (forall e, ~ In (Next, Some e) (cs_log st)) ->
  exists rows orphans leaves,
    src_leaf old = Some rows /\ src_leaf_orphan old = Some orphans /\
    map Some leaves = map (rekey blake3) rows /\
    cs_committed st = mkChangelogDest (Some leaves) true (Some orphans) /\
    cs_tx st = None /\ cs_attached st = false.
Proof.
  unfold run_migrateChangelog, migrateChangelog. intros H Hnext.
  destruct (env_mkdir_ok env); cbn [negb] in H; [| discriminate].
  apply bind_Val_inv in H. destruct H as [[] [s1 [H1 H]]].
  apply or_return_Val in H1. destruct H1 as [t1 [Ht1 ->]].
  cbn in Ht1. inversion Ht1; subst t1; clear Ht1.
  apply bind_Val_inv in H. destruct H as [[] [s2 [H2 H]]].
  apply create_tables_Val in H2; [| reflexivity].
  destruct H2 as [Htx2 [Hc2 [Ha2 _]]]. cbn in Hc2, Ha2.
  apply bind_Val_inv in H. destruct H as [[] [s3 [H3 H]]].
  apply or_return_Val in H3. destruct H3 as [t3 [Ht3 ->]].
  cbn in Ht3. destruct (src_leaf old) as [rows |] eqn:Hrows; [| discriminate].
  inversion Ht3; subst t3; clear Ht3.
  apply bind_Val_inv in H. destruct H as [[] [s4 [H4 H]]].
  apply or_return_Val in H4. destruct H4 as [t4 [Ht4 ->]].
  cbn in Ht4. rewrite Htx2 in Ht4. cbn in Ht4. inversion Ht4; subst t4; clear Ht4.
  apply bind_Val_inv in H. destruct H as [[] [s5 [H5 H]]].
  apply bind_Val_inv in H. destruct H as [[] [s6 [H6 H]]].
  apply or_return_Val in H6. destruct H6 as [t6 [Ht6 ->]].
  apply bind_Val_inv in H. destruct H as [[] [s7 [H7 H]]].
  apply or_return_Val in H7. destruct H7 as [t7 [Ht7 ->]].
  apply bind_Val_inv in H. destruct H as [[] [s8 [H8 H]]].
  apply or_return_Val in H8. destruct H8 as [t8 [Ht8 ->]].
  apply or_return_Val in H. destruct H as [t9 [Ht9 ->]].
  pose proof (cl_step_log _ _ _ _ Ht6) as L6.
  pose proof (cl_step_log _ _ _ _ Ht7) as L7.
  pose proof (cl_step_log _ _ _ _ Ht8) as L8.
  pose proof (cl_step_log _ _ _ _ Ht9) as L9.
  cbn [cl_log cs_log] in L7, L8, L9, Hnext.
  assert (Hn5 : forall e, ~ In (Next, Some e) (cs_log s5)).
  { intros e Hin. apply (Hnext e). rewrite L9, L8, L7, L6.
    repeat (apply in_or_app; left). exact Hin. }
  eapply (leaf_loop_Val blake3 env old rows) in H5;
    [| exact Hn5 | cbn; reflexivity | reflexivity].
  destruct H5 as [leaves [Hmap [Htx5 [Hc5 Ha5]]]].
  cbn in Htx5, Hc5, Ha5. rewrite Hc2 in Hc5. rewrite Ha2 in Ha5.
  exists rows.
  cbn in Ht6. rewrite Htx5, Ha5 in Ht6. inversion Ht6; subst t6; clear Ht6.
  cbn in Ht7.
  destruct (src_leaf_orphan old) as [orphans |] eqn:Horph; [| discriminate].
  destruct (insert_rows orphan_pk _ [] orphans) as [tbl |] eqn:I; [| discriminate].
  apply insert_rows_app in I. cbn in I. subst tbl.
  inversion Ht7; subst t7; clear Ht7.
  cbn in Ht8. inversion Ht8; subst t8; clear Ht8.
  cbn in Ht9. inversion Ht9; subst t9; clear Ht9.
  exists orphans, leaves. cbn. repeat split; assumption.
Qed.

(** ** The transaction of the changelog migrator *)

Lemma cl_sat_ret {A} (a : A) : cl_sat (ret a).
Proof. intros st r st' H E. inversion E; subst. split; [exact H | discriminate]. Qed.

Lemma cl_sat_fail {A} e : cl_sat (@fail cl_op CState A e).
Proof. intros st r st' H E. inversion E; subst. split; [exact H | discriminate]. Qed.

Lemma cl_sat_bind {A B} (m : M cl_op CState A) (k : A -> M cl_op CState B) :
  cl_sat m -> (forall a, cl_sat (k a)) -> cl_sat (bind m k).
Proof.
  intros Hm Hk st r st' H E. unfold bind in E.
  destruct (m st) as [[a | e | op e] s1] eqn:Em;
    destruct (Hm st _ _ H Em) as [H1 Hnf].
  - exact (Hk a s1 r st' H1 E).
  - inversion E; subst. split; [exact H1 | discriminate].
  - exfalso. exact (Hnf op e eq_refl).
Qed.

Lemma cl_sat_for_each {A} (l : list A) (body : A -> M cl_op CState unit) :
  (forall x, In x l -> cl_sat (body x)) -> cl_sat (for_each l body).
Proof.
  induction l as [| x l IH]; intros Hb; cbn [for_each].
  - apply cl_sat_ret.
  - apply cl_sat_bind; [apply Hb; left; reflexivity |].
    intros _. apply IH. intros y Hy. apply Hb. right. exact Hy.
Qed.

Lemma cl_step_committed old op st s1 :
  is_tx_write op = true -> cl_step old op st = inr s1 ->
  cs_committed s1 = cs_committed st.
Proof.
  unfold cl_step, set_tx. intros Hw H.
  destruct op; try discriminate; repeat
    match type of H with
    | match ?x with _ => _ end = _ => destruct x
    | inl _ = inr _ => discriminate
    | inr _ = inr _ => inversion H; clear H; subst
    end; try reflexivity; try discriminate.
Qed.

Lemma cl_pre_log st st' op e :
  cl_pre st -> is_tx_write op = true ->
  cs_committed st' = cs_committed st -> cs_log st' = cs_log st ++ [(op, e)] ->
  cl_pre st'.
Proof.
  intros [Hc [Hcm Hd]] Hw Hc' Hl. unfold cl_pre. rewrite Hc', Hl.
  split; [exact Hc |]. split; intros e' Hin; apply in_app_or in Hin;
    destruct Hin as [Hin | [Heq | []]];
    try (inversion Heq; subst op; discriminate).
  - exact (Hcm e' Hin).
  - exact (Hd e' Hin).
Qed.

Lemma cl_sat_call env old op :
  is_tx_write op = true -> cl_sat (cl_call env old op).
Proof.
  intros Hw st r st' H E. apply cl_call_inv in E.
  destruct E as [[s1 [-> [Hs ->]]] | [e [-> ->]]];
    (split; [| discriminate]).
  - apply (cl_pre_log st _ op None H Hw).
    + cbn. apply (cl_step_committed old op); assumption.
    + cbn. rewrite (cl_step_log old op st s1 Hs). reflexivity.
  - apply (cl_pre_log st _ op (Some e) H Hw); reflexivity.
Qed.

Lemma cl_sat_or_return env old wrap op :
  is_tx_write op = true -> cl_sat (or_return wrap (cl_call env old op)).
Proof.
  intros Hw. unfold or_return. apply cl_sat_bind; [apply cl_sat_call; exact Hw |].
  intros [e |]; [apply cl_sat_fail | apply cl_sat_ret].
Qed.

Lemma cl_sat_hasher (f : CState -> list byte) {A} (a : CState -> A) :
  cl_sat (fun st => (Val (a st),
                     mkCState (cs_committed st) (cs_tx st) (cs_attached st)
                       (f st) (cs_log st))).
Proof.
  intros st r st' H E. inversion E; subst. split; [exact H | discriminate].
Qed.

Lemma cl_sat_leaf_loop blake3 env old rows : cl_sat (leaf_loop blake3 env old rows).
Proof.
  induction rows as [| r rest IH]; cbn [leaf_loop];
    (apply cl_sat_bind; [apply cl_sat_call; reflexivity |]);
    intros [e |]; try apply cl_sat_ret.
  destruct (lf_version r); [| apply cl_sat_fail].
  destruct (lf_sequence r); [| apply cl_sat_fail].
  apply cl_sat_bind; [apply (cl_sat_hasher (fun _ => []) (fun _ => tt)) |].
  intros _.
  apply cl_sat_bind;
    [apply (cl_sat_hasher (fun st => cs_hasher st ++ lf_key r) (fun _ => tt)) |].
  intros _.
  apply cl_sat_bind.
  { intros st res st' H E. inversion E; subst. split; [exact H | discriminate]. }
  intros keyHash.
  apply cl_sat_bind; [apply cl_sat_or_return; reflexivity |].
  intros _. exact IH.
Qed.

Lemma cl_sat_post_bind {A B} (m : M cl_op CState A) (k : A -> M cl_op CState B) :
  cl_sat m -> (forall a, cl_sat_post (k a)) -> cl_sat_post (bind m k).
Proof.
  intros Hm Hk st r st' H E. unfold bind in E.
  destruct (m st) as [[a | e | op e] s1] eqn:Em;
    destruct (Hm st _ _ H Em) as [H1 Hnf].
  - exact (Hk a s1 r st' H1 E).
  - inversion E; subst. destruct H1 as [Hc [Hcm Hd]].
    split; [discriminate |]. split; [intros _; split; eauto |].
    intros e' Hin. exfalso. exact (Hd e' Hin).
  - exfalso. exact (Hnf op e eq_refl).
Qed.

Lemma cl_sat_post_fail {A} e : cl_sat_post (@fail cl_op CState A e).
Proof.
  intros st r st' [Hc [Hcm Hd]] E. inversion E; subst.
  split; [discriminate |]. split; [intros _; split; eauto |].
  intros e' Hin. exfalso. exact (Hd e' Hin).
Qed.

(** The commit and the detach that follows it. *)
Lemma commit_detach_post env old w :
  cl_sat_post
    (bind (or_return ErrorSql (cl_call env old Commit))
       (fun _ => or_return w (cl_call env old Detach))).
Proof.
  intros st r st' [Hc [Hcm Hd]] E. unfold bind at 1, or_return at 1, bind at 1 in E.
  destruct (cl_call env old Commit st) as [rc sc] eqn:Ec.
  apply cl_call_inv in Ec.
  destruct Ec as [[s1 [-> [Hs ->]]] | [e [-> ->]]].
  - cbn in E. unfold or_return, bind in E.
    destruct (cl_call env old Detach (cl_log s1 Commit None)) as [rd sd] eqn:Ed.
    apply cl_call_inv in Ed.
    assert (Hin : In (Commit, @None sqlerr) (cs_log (cl_log s1 Commit None))).
    { cbn. apply in_or_app. right. left. reflexivity. }
    destruct Ed as [[s2 [-> [Hs2 ->]]] | [e [-> ->]]]; inversion E; subst;
      (split; [discriminate |]); cbn [cl_log cs_log];
      rewrite ?(cl_step_log _ _ _ _ Hs2);
      (split; [intros Hn; exfalso; apply Hn |
               intros e' _]); apply in_or_app; left; exact Hin.
  - cbn in E. inversion E; subst. split; [discriminate |].
    split.
    + intros _. split; [exact Hc | eauto].
    + intros e' Hin. cbn in Hin. apply in_app_or in Hin.
      destruct Hin as [Hin | [Heq | []]]; [| discriminate].
      exfalso. exact (Hd e' Hin).
Qed.

Lemma migrateChangelog_post blake3 env old :
  cl_sat_post (migrateChangelog blake3 env old).
Proof.
  unfold migrateChangelog. destruct (negb (env_mkdir_ok env)).
  { apply cl_sat_post_fail. }
  apply cl_sat_post_bind; [apply cl_sat_or_return; reflexivity | intros _].
  apply cl_sat_post_bind.
  { apply cl_sat_for_each. intros stmt Hin. apply cl_sat_or_return.
    unfold createStmt in Hin. cbn in Hin.
    destruct Hin as [<- | [<- | [<- | []]]]; reflexivity. }
  intros _.
  apply cl_sat_post_bind; [apply cl_sat_or_return; reflexivity | intros _].
  apply cl_sat_post_bind; [apply cl_sat_or_return; reflexivity | intros _].
  apply cl_sat_post_bind; [apply cl_sat_leaf_loop | intros _].
  apply cl_sat_post_bind; [apply cl_sat_or_return; reflexivity | intros _].
  apply cl_sat_post_bind; [apply cl_sat_or_return; reflexivity | intros _].
  apply commit_detach_post.
Qed.

Lemma changelog_init_pre pooled : cl_pre (changelog_init pooled).
Proof. repeat split; intros e []. Qed.

(** The part of C5 that holds.  In every run of [migrateChangelog]: the
    process does not end inside it; unless the commit has succeeded nothing is
    committed in the destination and an error is returned; and the source is
    detached only after the commit has succeeded. *)
Lemma migrateChangelog_transactional blake3 env old pooled :
  let r := fst (run_migrateChangelog blake3 env old pooled) in
  let st := snd (run_migrateChangelog blake3 env old pooled) in
  (forall op e, r <> Fatal op e) /\
  (~ In (Commit, None) (cs_log st) ->
   cs_committed st = empty_changelog_dest /\ exists e, r = Err e) /\
  (forall e, In (Detach, e) (cs_log st) -> In (Commit, None) (cs_log st)).
Proof.
  cbn zeta. unfold run_migrateChangelog.
  destruct (migrateChangelog blake3 env old (changelog_init pooled))
    as [r st] eqn:E. cbn [fst snd].
  exact (migrateChangelog_post blake3 env old _ r st
           (changelog_init_pre pooled) E).
Qed.

(** C5.  The second [rows.Next()] fails while two leaves are to be read:
    the loop ends as at the end of the rows, the run goes on, commits the one
    leaf it has inserted and returns nil.  A step has failed, the transaction
    is committed with part of the leaves, and no error reaches the caller. *)
Theorem migrateChangelog_fetch_failure_commits_part blake3 :
  let run := run_migrateChangelog blake3 (env_fault_at 8) example_changelog [] in
  In (Next, Some ErrIO) (cs_log (snd run)) /\
  fst run = Val tt /\
  In (Commit, None) (cs_log (snd run)) /\
  cd_leaf (cs_committed (snd run))
  = Some [mkNewLeaf 1 1 (blake3 (bytes_of "k1")) (bytes_of "v1") None] /\
  src_leaf example_changelog
  = Some [ mkLeaf (Some 1) (Some 1) (bytes_of "k1") (bytes_of "v1") (Some true);
           mkLeaf (Some 2) (Some 1) (bytes_of "k2") (bytes_of "v2") None ].
Proof.
  cbn zeta. split; [| split; [| split; [| split]]].
  - cbn. tauto.
  - reflexivity.
  - cbn. tauto.
  - reflexivity.
  - reflexivity.
Qed.

(** The part of C6 that holds.  Whatever the digest, the source and the
    failures, the process does not end inside [migrateChangelog].  When it
    returns nil and no fetch of a source row has failed, the target [leaf]
    table holds, for every source leaf row in order, one row with the row's
    version, sequence and payload under the digest of the row's key, its
    [orphaned] NULL whatever the source's flag; a source row is found in the
    target under that digest. *)
Theorem migrateChangelog_rekeys blake3 env old pooled :
  (forall op e, fst (run_migrateChangelog blake3 env old pooled) <> Fatal op e) /\
  (forall st,
     run_migrateChangelog blake3 env old pooled = (Val tt, st) ->
     (forall e, ~ In (Next, Some e) (cs_log st)) ->
     exists rows leaves,
       src_leaf old = Some rows /\
       cd_leaf (cs_committed st) = Some leaves /\
       map Some leaves = map (rekey blake3) rows /\
       (forall r, In r rows ->
          exists v s,
            lf_version r = Some v /\ lf_sequence r = Some s /\
            In (mkNewLeaf v s (blake3 (lf_key r)) (lf_bytes r) None) leaves) /\
       (forall l, In l leaves -> nl_orphaned l = None)).
Proof.
  split.
  { apply (migrateChangelog_transactional blake3 env old pooled). }
  intros st Hrun Hnext.
  destruct (migrateChangelog_Val blake3 env old pooled st Hrun Hnext)
    as [rows [orphans [leaves [Hrows [_ [Hmap [Hc _]]]]]]].
  exists rows, leaves. rewrite Hc. cbn [cd_leaf].
  split; [assumption |]. split; [reflexivity |]. split; [assumption |].
  split.
  - intros r Hr.
    assert (Hin : In (rekey blake3 r) (map Some leaves)).
    { rewrite Hmap. apply in_map. exact Hr. }
    apply in_map_iff in Hin. destruct Hin as [l [Hl Hinl]].
    unfold rekey in Hl.
    destruct (lf_version r) as [v |]; [| discriminate].
    destruct (lf_sequence r) as [s |]; [| discriminate].
    exists v, s. inversion Hl; subst. auto.
  - intros l Hl.
    assert (Hin : In (Some l) (map (rekey blake3) rows)).
    { rewrite <- Hmap. apply in_map. exact Hl. }
    apply in_map_iff in Hin. destruct Hin as [r [Hr _]].
    unfold rekey in Hr.
    destruct (lf_version r); [| discriminate].
    destruct (lf_sequence r); [| discriminate].
    inversion Hr. reflexivity.
Qed.

Lemma migrateChangelog_rekeys_witness :
  run_migrateChangelog const_hash env_ok example_changelog (bytes_of "stale")
  = (Val tt,
     snd (run_migrateChangelog const_hash env_ok example_changelog
            (bytes_of "stale"))) /\
  exists rows leaves,
    src_leaf example_changelog = Some rows /\
    cd_leaf (cs_committed
               (snd (run_migrateChangelog const_hash env_ok example_changelog
                       (bytes_of "stale")))) = Some leaves /\
    map Some leaves = map (rekey const_hash) rows /\
    (forall r, In r rows ->
       exists v s,
         lf_version r = Some v /\ lf_sequence r = Some s /\
         In (mkNewLeaf v s (const_hash (lf_key r)) (lf_bytes r) None) leaves) /\
    (forall l, In l leaves -> nl_orphaned l = None).
Proof.
  assert (Hrun : run_migrateChangelog const_hash env_ok example_changelog
                   (bytes_of "stale")
                 = (Val tt,
                    snd (run_migrateChangelog const_hash env_ok
                           example_changelog (bytes_of "stale"))))
    by (vm_compute; reflexivity).
  split; [exact Hrun |].
  apply (proj2 (migrateChangelog_rekeys const_hash env_ok example_changelog
                  (bytes_of "stale")) _ Hrun).
  intros e Hin. vm_compute in Hin.
  repeat (destruct Hin as [Hin | Hin]; [discriminate |]). exact Hin.
Defined.

(** C6.  The second [rows.Next()] fails while two leaves are to be read.
    Whatever the digest, the run returns nil, and of the two source leaf rows
    only the first has a row in the target [leaf] table: the row of the
    second, (2, 1, digest of k2, v2), is not there, and no row of version 2
    is.  A source leaf row has not been inserted and the caller is told the
    migration succeeded. *)
Theorem migrateChangelog_fetch_failure_drops_leaf blake3 :
  let run := run_migrateChangelog blake3 (env_fault_at 8) example_changelog [] in
  src_leaf example_changelog
  = Some [ mkLeaf (Some 1) (Some 1) (bytes_of "k1") (bytes_of "v1") (Some true);
           mkLeaf (Some 2) (Some 1) (bytes_of "k2") (bytes_of "v2") None ] /\
  fst run = Val tt /\
  exists leaves,
    cd_leaf (cs_committed (snd run)) = Some leaves /\
    In (mkNewLeaf 1 1 (blake3 (bytes_of "k1")) (bytes_of "v1") None) leaves /\
    ~ In (mkNewLeaf 2 1 (blake3 (bytes_of "k2")) (bytes_of "v2") None) leaves /\
    forall l, In l leaves -> nl_version l <> 2.
Proof.
  cbn zeta. split; [reflexivity |]. split; [reflexivity |].
  exists [mkNewLeaf 1 1 (blake3 (bytes_of "k1")) (bytes_of "v1") None].
  split; [reflexivity |]. split; [left; reflexivity |]. split.
  - intros [E | []]. discriminate.
  - intros l [<- | []]. discriminate.
Qed.

(** ** The per-store driver *)

(** C9, as the code has it.  [migrateStore] fails with
    [tree.sqlite not found: <path>] when the tree store file is absent,
    starting no migrator.  When the file is present it runs the tree
    migrator; an error of that run is returned as it is, and the changelog
    migrator is not started.  Only when the tree migrator has returned nil is
    the changelog store file looked for: absent, [migrateStore] fails with
    [changelog.sqlite not found: <path>]; present, the changelog migrator
    runs and its outcome is the outcome.  The changelog migrator is never
    started unless the tree migrator has returned nil. *)
Theorem migrateStore_sequence blake3 Join w store baseOld baseNew :
  let oldTreePath := Join baseOld store "tree.sqlite"%string in
  let oldChangelogPath := Join baseOld store "changelog.sqlite"%string in
  let tree_run := run_migrateTree (w_tree_env w) (w_tree w oldTreePath) in
  let cl_run := run_migrateChangelog blake3 (w_changelog_env w)
                  (w_changelog w oldChangelogPath) (w_pooled w) in
  let res := migrateStore blake3 Join w store baseOld baseNew in
  (w_stat w oldTreePath = false ->
   res = (StoreErr (ErrorNew (String.append "tree.sqlite not found: " oldTreePath)),
          mkStoreRun None None)) /\
  (w_stat w oldTreePath = true ->
   sr_tree (snd res) = Some tree_run /\
   (forall e, fst tree_run = Err e ->
              fst res = StoreErr e /\ sr_changelog (snd res) = None) /\
   (forall op e, fst tree_run = Fatal op e ->
                 fst res = StoreFatal e /\ sr_changelog (snd res) = None) /\
   (fst tree_run = Val tt ->
    (w_stat w oldChangelogPath = false ->
     fst res = StoreErr (ErrorNew (String.append "changelog.sqlite not found: "
                                     oldChangelogPath)) /\
     sr_changelog (snd res) = None) /\
    (w_stat w oldChangelogPath = true ->
     sr_changelog (snd res) = Some cl_run /\
     fst res = match fst cl_run with
               | Val _ => StoreOk
               | Err e => StoreErr e
               | Fatal _ e => StoreFatal e
               end))) /\
  (forall run, sr_changelog (snd res) = Some run ->
               exists t, sr_tree (snd res) = Some t /\ fst t = Val tt).
Proof.
  cbn zeta. unfold migrateStore.
  destruct (w_stat w (Join baseOld store "tree.sqlite"%string)) eqn:St.
  - split; [discriminate |].
    destruct (run_migrateTree _ _) as [rt stt] eqn:Et. cbn [fst].
    destruct rt as [[] | e | op e].
    + destruct (w_stat w (Join baseOld store "changelog.sqlite"%string)) eqn:Sc.
      * destruct (run_migrateChangelog _ _ _ _) as [rc stc] eqn:Ec. cbn [fst].
        split.
        { intros _. split; [destruct rc; reflexivity |].
          split; [discriminate |]. split; [discriminate |]. intros _.
          split; [discriminate |]. intros _.
          destruct rc; split; reflexivity. }
        intros run Hrun. exists (Val tt, stt).
        split; [destruct rc; reflexivity | reflexivity].
      * split.
        { intros _. split; [reflexivity |].
          split; [discriminate |]. split; [discriminate |]. intros _.
          split; [intros _; split; reflexivity | discriminate]. }
        intros run Hrun. discriminate.
    + split.
      { intros _. split; [reflexivity |]. split.
        - intros e' E. inversion E; subst. split; reflexivity.
        - split; [discriminate | discriminate]. }
      intros run Hrun. discriminate.
    + split.
      { intros _. split; [reflexivity |]. split; [discriminate |]. split.
        - intros op' e' E. inversion E; subst. split; reflexivity.
        - discriminate. }
      intros run Hrun. discriminate.
  - split; [reflexivity |]. split; [discriminate |].
    intros run Hrun. discriminate.
Qed.

(** C9, the claim as stated fails: the changelog store file is absent, the
    tree store file is present but holds no table; [migrateStore] fails with
    the error of the tree migrator's row count, not with a not-found error. *)
Lemma migrateStore_changelog_absent_other_error :
  w_stat broken_world (simple_join "old" "bank" "changelog.sqlite") = false /\
  fst (migrateStore const_hash simple_join broken_world "bank" "old" "new")
  = StoreErr (ErrorWrap "failed to count rows in tree_1" ErrSchema).
Proof. split; reflexivity. Qed.

(** The store of the examples migrates: both migrators run, in that order. *)
Lemma migrateStore_example :
  fst (migrateStore const_hash simple_join example_world "bank" "old" "new")
  = StoreOk.
Proof. vm_compute. reflexivity. Qed.

(** * Further properties *)

(** ** Store enumeration *)

Lemma filterSet_has_In filterSet k :
  filterSet_has filterSet k = true <-> In k filterSet.
Proof.
  unfold filterSet_has. rewrite existsb_exists. split.
  - intros [x [Hx E]]. apply String.eqb_eq in E. subst. exact Hx.
  - intros H. exists k. split; [exact H | apply String.eqb_refl].
Qed.

Lemma filterSet_fold filter acc k :
  In k (fold_left filterSet_add filter acc) <-> In k acc \/ In k filter.
Proof.
  revert acc. induction filter as [| x rest IH]; intros acc; cbn [fold_left].
  - cbn. tauto.
  - rewrite IH. unfold filterSet_add.
    destruct (filterSet_has acc x) eqn:E.
    + apply filterSet_has_In in E. cbn. split; [tauto |].
      intros [H | [<- | H]]; auto.
    + rewrite in_app_iff. cbn. tauto.
Qed.

Lemma filterSet_empty filter :
  fold_left filterSet_add filter [] = [] <-> filter = [].
Proof.
  split.
  - intros H. destruct filter as [| x rest]; [reflexivity |].
    assert (Hin : In x (fold_left filterSet_add (x :: rest) []))
      by (apply filterSet_fold; right; left; reflexivity).
    rewrite H in Hin. contradiction.
  - intros ->. reflexivity.
Qed.

Lemma store_loop_filter keys entries stores :
  store_loop (fold_left filterSet_add keys []) entries stores
  = stores ++ map de_name (filter (store_kept keys) entries).
Proof.
  revert stores. induction entries as [| entry rest IH]; intros stores.
  - cbn. rewrite app_nil_r. reflexivity.
  - cbn [store_loop filter]. unfold store_kept at 1.
    destruct (de_isDir entry); cbn [negb andb]; [| apply IH].
    destruct keys as [| x xs].
    + cbn [fold_left length Z.of_nat Z.ltb Z.compare andb map].
      rewrite IH, <- app_assoc. reflexivity.
    + assert (Hpos : (0 <? Z.of_nat (length (fold_left filterSet_add (x :: xs) [])))
                     = true).
      { apply Z.ltb_lt.
        destruct (fold_left filterSet_add (x :: xs) []) eqn:E.
        - apply (proj1 (filterSet_empty (x :: xs))) in E. discriminate.
        - cbn [length]. lia. }
      rewrite Hpos. cbn [andb].
      assert (Hhas : filterSet_has (fold_left filterSet_add (x :: xs) [])
                       (de_name entry)
                     = existsb (String.eqb (de_name entry)) (x :: xs)).
      { destruct (existsb (String.eqb (de_name entry)) (x :: xs)) eqn:E.
        - apply filterSet_has_In, filterSet_fold. right.
          apply (proj1 (filterSet_has_In (x :: xs) (de_name entry))). exact E.
        - destruct (filterSet_has _ (de_name entry)) eqn:F; [| reflexivity].
          apply filterSet_has_In, filterSet_fold in F.
          destruct F as [[] | F].
          apply filterSet_has_In in F. unfold filterSet_has in F. congruence. }
      rewrite Hhas.
      destruct (existsb (String.eqb (de_name entry)) (x :: xs)); cbn [negb map].
      * rewrite IH, <- app_assoc. reflexivity.
      * apply IH.
Qed.

(** X1.  [getStoreKeys] hands back the error of [os.ReadDir]; otherwise it
    returns, in the order of the directory listing, the names of the entries
    that are directories and, when the filter is not empty, are named by it.
    So a name is returned exactly if it is a directory of the listing and the
    filter is empty or contains it: plain files are skipped and filter names
    that are not on disk are ignored without an error. *)
Theorem getStoreKeys_spec readdir filter :
  match readdir with
  | inl err => getStoreKeys readdir filter = inl err
  | inr entries =>
      getStoreKeys readdir filter
      = inr (map de_name (List.filter (store_kept filter) entries)) /\
      forall name,
        In name (map de_name (List.filter (store_kept filter) entries)) <->
        (exists entry, In entry entries /\ de_name entry = name /\
                       de_isDir entry = true) /\
        (filter = [] \/ In name filter)
  end.
Proof.
  destruct readdir as [err | entries]; [reflexivity |].
  split.
  - unfold getStoreKeys. rewrite store_loop_filter. reflexivity.
  - intros name. rewrite in_map_iff. split.
    + intros [entry [Hn Hin]]. apply filter_In in Hin.
      destruct Hin as [Hin Hk]. unfold store_kept in Hk.
      apply andb_true_iff in Hk. destruct Hk as [Hd Hf].
      split; [exists entry; auto |].
      destruct filter as [| x xs]; [left; reflexivity | right].
      apply filterSet_has_In. subst name. exact Hf.
    + intros [[entry [Hin [Hn Hd]]] Hf]. exists entry. split; [exact Hn |].
      apply filter_In. split; [exact Hin |]. unfold store_kept.
      rewrite Hd. cbn [andb].
      destruct filter as [| x xs]; [reflexivity |].
      destruct Hf as [Hf | Hf]; [discriminate |].
      apply (proj2 (filterSet_has_In (x :: xs) (de_name entry))).
      subst name. exact Hf.
Qed.

(** X2.  When the names of the directory listing are distinct, no store is
    returned twice, also when the filter names a store more than once. *)
Theorem getStoreKeys_NoDup entries filter stores :
  NoDup (map de_name entries) ->
  getStoreKeys (inr entries) filter = inr stores ->
  NoDup stores.
Proof.
  intros Hnd H. unfold getStoreKeys in H. rewrite store_loop_filter in H.
  inversion H; subst stores; clear H. cbn [app].
  induction entries as [| e rest IH]; [constructor |].
  cbn [map] in Hnd. inversion Hnd as [| ? ? Hni Hnd']; subst.
  cbn [List.filter]. destruct (store_kept filter e); [| apply IH; assumption].
  cbn [map]. constructor; [| apply IH; assumption].
  intros Hin. apply Hni. apply in_map_iff in Hin.
  destruct Hin as [x [Hx Hin]]. apply filter_In in Hin.
  rewrite <- Hx. apply in_map. tauto.
Qed.

Lemma getStoreKeys_NoDup_witness :
  NoDup (map de_name example_entries) /\
  getStoreKeys (inr example_entries) ["evm"; "gov"; "evm"]%string
  = inr ["evm"%string] /\
  NoDup ["evm"%string].
Proof.
  assert (Hnd : NoDup (map de_name example_entries)).
  { cbn. repeat constructor; cbn; intros H;
      repeat (destruct H as [H | H]; [discriminate |]); exact H. }
  assert (Hrun : getStoreKeys (inr example_entries) ["evm"; "gov"; "evm"]%string
                 = inr ["evm"%string]) by reflexivity.
  split; [exact Hnd |]. split; [exact Hrun |].
  exact (getStoreKeys_NoDup example_entries _ _ Hnd Hrun).
Defined.

(** ** The sequential driver *)

Lemma migrate_loop_spec blake3 Join w baseOld baseNew stores :
  let res := migrate_loop blake3 Join w baseOld baseNew stores in
  (forall s run, In (s, run) (snd res) ->
                 run = snd (migrateStore blake3 Join w s baseOld baseNew)) /\
  (fst res = StoreOk ->
   map fst (snd res) = stores /\
   Forall (fun s => fst (migrateStore blake3 Join w s baseOld baseNew) = StoreOk)
     stores) /\
  (fst res <> StoreOk ->
   exists done s rest,
     stores = done ++ s :: rest /\
     map fst (snd res) = done ++ [s] /\
     Forall (fun d => fst (migrateStore blake3 Join w d baseOld baseNew) = StoreOk)
       done /\
     fst (migrateStore blake3 Join w s baseOld baseNew) = fst res).
Proof.
  cbn zeta. induction stores as [| store rest IH]; cbn [migrate_loop].
  - cbn. split; [intros ? ? [] |]. split; [auto | congruence].
  - destruct IH as [IH1 [IH2 IH3]].
    destruct (fst (migrateStore blake3 Join w store baseOld baseNew)) eqn:E;
      cbn [fst snd map].
    + split; [| split].
      * intros s run [H | H]; [inversion H; reflexivity | auto].
      * intros Hok. destruct (IH2 Hok) as [Hm Hall].
        split; [rewrite Hm; reflexivity |]. constructor; assumption.
      * intros Hne. destruct (IH3 Hne) as [done [s [rest' [Hs [Hm [Hd Hf]]]]]].
        exists (store :: done), s, rest'.
        split; [rewrite Hs; reflexivity |].
        split; [rewrite Hm; reflexivity |].
        split; [constructor; assumption | exact Hf].
    + split; [| split].
      * intros s run [H | []]. inversion H. reflexivity.
      * discriminate.
      * intros _. exists [], store, rest. repeat split; auto.
    + split; [| split].
      * intros s run [H | []]. inversion H. reflexivity.
      * discriminate.
      * intros _. exists [], store, rest. repeat split; auto.
Qed.

(** X3.  [migrate] in its sequential mode.  It hands back the error of
    [os.ReadDir], starting no migration.  Otherwise it migrates the stores of
    [getStoreKeys] in order and stops at the first store whose migration does
    not return nil: the stores before it have all returned nil, its outcome is
    the outcome of [migrate], and no later store is attempted.  It returns nil
    exactly when every store has been migrated and has returned nil. *)
Theorem migrate_sequential blake3 Join w readdir baseOld baseNew storeKeys :
  let ok s := fst (migrateStore blake3 Join w s baseOld baseNew) = StoreOk in
  let res := migrate blake3 Join w readdir baseOld baseNew storeKeys in
  match getStoreKeys readdir storeKeys with
  | inl err => res = (StoreErr err, [])
  | inr stores =>
      (forall s run, In (s, run) (snd res) ->
                     run = snd (migrateStore blake3 Join w s baseOld baseNew)) /\
      (fst res = StoreOk <-> map fst (snd res) = stores /\ Forall ok stores) /\
      (fst res <> StoreOk ->
       exists done s rest,
         stores = done ++ s :: rest /\
         map fst (snd res) = done ++ [s] /\
         Forall ok done /\
         fst (migrateStore blake3 Join w s baseOld baseNew) = fst res)
  end.
Proof.
  cbn zeta. unfold migrate.
  destruct (getStoreKeys readdir storeKeys) as [err | stores]; [reflexivity |].
  destruct (migrate_loop_spec blake3 Join w baseOld baseNew stores)
    as [H1 [H2 H3]].
  split; [exact H1 |]. split; [| exact H3].
  split; [exact H2 |].
  intros [Hm Hall].
  destruct (fst (migrate_loop blake3 Join w baseOld baseNew stores)) eqn:E;
    [reflexivity | exfalso | exfalso].
  - destruct H3 as [done [s [rest [Hs [Hm' [_ Hf]]]]]]; [congruence |].
    rewrite Hs in Hall. apply Forall_app in Hall. destruct Hall as [_ Hall].
    inversion Hall as [| ? ? Hok _]; subst. congruence.
  - destruct H3 as [done [s [rest [Hs [Hm' [_ Hf]]]]]]; [congruence |].
    rewrite Hs in Hall. apply Forall_app in Hall. destruct Hall as [_ Hall].
    inversion Hall as [| ? ? Hok _]; subst. congruence.
Qed.

(** ** More shard arithmetic *)

Lemma Z_range_length lo hi :
  lo <= hi + 1 -> Z.of_nat (length (Z_range lo hi)) = hi - lo + 1.
Proof.
  intros H. unfold Z_range. rewrite length_map, length_seq. lia.
Qed.

(** X4.  For 64-bit bounds [0 < minVersion <= maxVersion], the shard of every
    version between the bounds is in [calculateShardRange], which has
    [ToShardID maxVersion - ToShardID minVersion + 1] elements: no shard that
    a version of the range needs is left out, and none is listed that lies
    outside the shards of the bounds. *)
Theorem calculateShardRange_covers minVersion maxVersion v :
  Int64.in_range minVersion -> Int64.in_range maxVersion ->
  0 < minVersion -> minVersion <= v <= maxVersion ->
  In (ToShardID v) (calculateShardRange minVersion maxVersion) /\
  Z.of_nat (length (calculateShardRange minVersion maxVersion))
  = ToShardID maxVersion - ToShardID minVersion + 1.
Proof.
  intros Hmin Hmax H0 Hv.
  assert (Hvr : Int64.in_range v).
  { unfold Int64.in_range in *. lia. }
  rewrite calculateShardRange_pos by (assumption || lia).
  pose proof (ToShardID_mono minVersion v Hmin Hvr ltac:(lia)).
  pose proof (ToShardID_mono v maxVersion Hvr Hmax ltac:(lia)).
  split; [apply Z_range_In; lia | apply Z_range_length; lia].
Qed.

Lemma calculateShardRange_covers_witness :
  In (ToShardID 2500000) (calculateShardRange 1 4312305) /\
  Z.of_nat (length (calculateShardRange 1 4312305)) = ToShardID 4312305 - ToShardID 1 + 1.
Proof.
  apply (calculateShardRange_covers 1 4312305 2500000);
    unfold Int64.in_range, Int64.min_int, Int64.max_int; lia.
Defined.

(** ** The destination stays well formed *)

Lemma table_ok_nil {R K} (pk : R -> option K) : table_ok pk [].
Proof. split; [constructor | intros r []]. Qed.

Lemma insert_rows_ok {R K} (pk : R -> option K) (eqb : K -> K -> bool) :
  (forall a b, eqb a b = true <-> a = b) ->
  forall new tbl t,
    insert_rows pk eqb tbl new = Some t -> table_ok pk tbl -> table_ok pk t.
Proof.
  intros Heq new. induction new as [| r rest IH]; intros tbl t H Hok; cbn in H.
  - inversion H; subst. exact Hok.
  - destruct (pk r) as [k |] eqn:Ek; [| discriminate].
    destruct (existsb (has_pk pk eqb k) tbl) eqn:Ex; [discriminate |].
    apply (IH (tbl ++ [r]) t H). destruct Hok as [Hnd Hnn]. split.
    + rewrite map_app. cbn [map]. apply NoDup_app; [exact Hnd | |].
      * constructor; [intros [] | constructor].
      * intros a Ha [<- | []]. apply in_map_iff in Ha.
        destruct Ha as [x [Hx Hin]].
        assert (existsb (has_pk pk eqb k) tbl = true).
        { apply existsb_exists. exists x. split; [exact Hin |].
          unfold has_pk. rewrite Hx, Ek. apply Heq. reflexivity. }
        congruence.
    + intros x Hx. apply in_app_or in Hx.
      destruct Hx as [Hx | [<- | []]]; [auto | congruence].
Qed.

Lemma pair_eqb_eq {A B} (ea : A -> A -> bool) (eb : B -> B -> bool) :
  (forall a b, ea a b = true <-> a = b) ->
  (forall a b, eb a b = true <-> a = b) ->
  forall x y, pair_eqb ea eb x y = true <-> x = y.
Proof.
  intros Ha Hb [a1 b1] [a2 b2]. unfold pair_eqb. cbn.
  rewrite andb_true_iff, Ha, Hb. split; [intros [-> ->]; reflexivity |].
  intros H. inversion H. auto.
Qed.

Lemma set_shard_In id t shards p :
  In p (set_shard id t shards) -> p = (id, t) \/ In p shards.
Proof.
  unfold set_shard. intros H. apply in_map_iff in H.
  destruct H as [q [Hq Hin]]. destruct (fst q =? id); subst; auto.
Qed.

Lemma set_shard_names id t shards :
  map fst (set_shard id t shards) = map fst shards.
Proof.
  unfold set_shard. rewrite map_map. apply map_ext. intros q.
  destruct (Z.eqb_spec (fst q) id); cbn; congruence.
Qed.

Lemma find_shard_In id shards tbl :
  find_shard id shards = Some tbl -> In (id, tbl) shards.
Proof.
  induction shards as [| [i x] rest IH]; cbn; [discriminate |].
  destruct (Z.eqb_spec i id) as [-> | N]; intros H.
  - inversion H. left. reflexivity.
  - right. auto.
Qed.

Ltac dest_ok_split :=
  unfold dest_ok; cbn [dst_root dst_branch_orphan dst_shards dst_attached];
  split; [| split; [| split]].

Lemma exec_tree_stmt_ok old s db db' :
  exec_tree_stmt old s db = inr db' -> dest_ok db -> dest_ok db'.
Proof.
  intros H [Hr [Ho [Hs Hn]]]. destruct s; cbn in H.
  - destruct (dst_branch_orphan db); [discriminate |]. inversion H; subst.
    dest_ok_split; auto.
    intros t0 E0. inversion E0; subst. apply table_ok_nil.
  - destruct (dst_root db); [discriminate |]. inversion H; subst.
    dest_ok_split; auto.
    intros t0 E0. inversion E0; subst. apply table_ok_nil.
  - destruct (dst_attached db); [discriminate |]. inversion H; subst.
    dest_ok_split; auto.
  - destruct (dst_attached db); [| discriminate]. inversion H; subst.
    dest_ok_split; auto.
  - destruct (dst_attached db); [| discriminate].
    destruct (src_root old) as [rows |]; [| discriminate].
    destruct (dst_root db) as [tbl |] eqn:E; [| discriminate].
    destruct (insert_rows root_pk Z.eqb tbl rows) as [tbl' |] eqn:I;
      [| discriminate].
    inversion H; subst. dest_ok_split; auto.
    intros t0 Et. inversion Et; subst.
    eapply (insert_rows_ok root_pk Z.eqb Z.eqb_eq);
      [eassumption | apply Hr; reflexivity].
  - destruct (dst_attached db); [| discriminate].
    destruct (src_orphan old) as [rows |]; [| discriminate].
    destruct (dst_branch_orphan db) as [tbl |] eqn:E; [| discriminate].
    destruct (insert_rows orphan_pk _ tbl rows) as [tbl' |] eqn:I;
      [| discriminate].
    inversion H; subst. dest_ok_split; auto.
    intros t0 Et. inversion Et; subst.
    eapply (insert_rows_ok orphan_pk);
      [| eassumption | apply Ho; reflexivity].
    apply pair_eqb_eq; [apply Z.eqb_eq |].
    apply pair_eqb_eq; apply Z.eqb_eq.
  - destruct (find_shard shardID (dst_shards db)) eqn:F; [discriminate |].
    inversion H; subst. dest_ok_split; auto.
    + intros id0 t0 Hin. apply in_app_or in Hin.
      destruct Hin as [Hin | [E | []]]; [eauto |].
      inversion E; subst. apply table_ok_nil.
    + rewrite map_app. cbn [map fst]. apply NoDup_app; [exact Hn | |].
      * constructor; [intros [] | constructor].
      * intros a Ha [<- | []]. apply find_shard_None in F. contradiction.
  - destruct (dst_attached db); [| discriminate].
    destruct (src_tree_1 old) as [rows |]; [| discriminate].
    destruct (find_shard shardID (dst_shards db)) as [tbl |] eqn:F;
      [| discriminate].
    destruct (insert_rows branch_pk _ tbl _) as [tbl' |] eqn:I; [| discriminate].
    inversion H; subst. dest_ok_split; auto.
    + intros id0 t0 Hin. apply set_shard_In in Hin.
      destruct Hin as [E | Hin]; [| eauto]. inversion E; subst.
      eapply (insert_rows_ok branch_pk); [| eassumption |].
      * apply pair_eqb_eq; apply Z.eqb_eq.
      * apply (Hs shardID tbl). apply find_shard_In. exact F.
    + rewrite set_shard_names. exact Hn.
Qed.

Lemma keeps_ret {A} (a : A) : keeps_dest_ok (ret a).
Proof. intros st r st' H E. inversion E; subst. exact H. Qed.

Lemma keeps_fail {A} e : keeps_dest_ok (@fail tree_op TState A e).
Proof. intros st r st' H E. inversion E; subst. exact H. Qed.

Lemma keeps_bind {A B} (m : M tree_op TState A) (k : A -> M tree_op TState B) :
  keeps_dest_ok m -> (forall a, keeps_dest_ok (k a)) -> keeps_dest_ok (bind m k).
Proof.
  intros Hm Hk st r st' H E. unfold bind in E.
  destruct (m st) as [[a | e | op e] s1] eqn:Em.
  - exact (Hk a s1 r st' (Hm st _ _ H Em) E).
  - inversion E; subst. exact (Hm st _ _ H Em).
  - inversion E; subst. exact (Hm st _ _ H Em).
Qed.

Lemma keeps_exec env old s : keeps_dest_ok (exec env old s).
Proof.
  intros st r st' H E. unfold exec in E.
  destruct (fault_at env (length (ts_log st))).
  - inversion E; subst. exact H.
  - destruct (exec_tree_stmt old s (ts_db st)) as [e | db'] eqn:X;
      inversion E; subst; cbn; [exact H |].
    exact (exec_tree_stmt_ok old s _ _ X H).
Qed.

Lemma keeps_query {A} env q (answer : sqlerr + A) : keeps_dest_ok (query env q answer).
Proof. intros st r st' H E. unfold query in E. inversion E; subst. exact H. Qed.

Lemma keeps_for_each {A} (l : list A) (body : A -> M tree_op TState unit) :
  (forall x, keeps_dest_ok (body x)) -> keeps_dest_ok (for_each l body).
Proof.
  intros Hb. induction l as [| x l IH]; cbn [for_each].
  - apply keeps_ret.
  - apply keeps_bind; [apply Hb | intros _; exact IH].
Qed.

Lemma migrateTree_keeps_dest_ok env old : keeps_dest_ok (migrateTree env old).
Proof.
  unfold migrateTree. destruct (negb (env_mkdir_ok env)); [apply keeps_fail |].
  repeat (apply keeps_bind; [apply keeps_exec | intros _]).
  apply keeps_bind; [apply keeps_query | intros [e | count]]; [apply keeps_fail |].
  apply keeps_bind; [apply keeps_query | intros [e | rootCount]];
    [apply keeps_fail |].
  destruct ((count =? 0) && (rootCount =? 0)); [apply keeps_exec |].
  apply keeps_bind.
  { destruct (0 <? rootCount); [apply keeps_exec | apply keeps_ret]. }
  intros _. apply keeps_bind; [apply keeps_exec | intros _].
  destruct (0 <? count); [| apply keeps_exec].
  apply keeps_bind; [apply keeps_query |].
  intros [e | [[minV |] [maxV |]]]; try apply keeps_exec.
  - destruct (is_ErrNoRows e); [apply keeps_exec | apply keeps_fail].
  - unfold migrate_shards.
    apply keeps_bind; [apply keeps_for_each; intros; apply keeps_exec |].
    intros _.
    apply keeps_bind; [apply keeps_for_each; intros; apply keeps_exec |].
    intros _. apply keeps_exec.
Qed.

Lemma tree_init_ok : dest_ok (ts_db tree_init).
Proof.
  unfold tree_init, empty_tree_dest. dest_ok_split.
  - discriminate.
  - discriminate.
  - intros id t [].
  - constructor.
Qed.

(** Every statement keeps the primary keys of the tables it writes, so the
    destination of a run obeys them however the run ends.  This is a
    property of the statements, whatever program issues them. *)
Lemma run_migrateTree_ok env old : dest_ok (ts_db (snd (run_migrateTree env old))).
Proof.
  unfold run_migrateTree.
  destruct (migrateTree env old tree_init) as [r st] eqn:E.
  exact (migrateTree_keeps_dest_ok env old tree_init r st tree_init_ok E).
Qed.


(** ** More on completed runs of [migrateTree] *)

Lemma shard_tables_In rows id tbl :
  In (id, tbl) (shard_tables rows) ->
  exists minV maxV,
    sql_min (versions rows) = Some minV /\ sql_max (versions rows) = Some maxV /\
    In id (calculateShardRange minV maxV) /\
    tbl = select_shard (startVersion id) (endVersion id) rows.
Proof.
  unfold shard_tables.
  destruct (sql_min (versions rows)) as [minV |]; [| intros []].
  destruct (sql_max (versions rows)) as [maxV |]; [| intros []].
  intros H. apply in_map_iff in H. destruct H as [i [E Hi]].
  inversion E; subst. exists minV, maxV. auto.
Qed.

Lemma min_max_of_rows rows minV maxV :
  sql_min (versions rows) = Some minV -> sql_max (versions rows) = Some maxV ->
  In minV (versions rows) /\ In maxV (versions rows) /\
  forall v, In v (versions rows) -> minV <= v <= maxV.
Proof.
  intros Hmin Hmax.
  destruct (versions rows) as [| x xs] eqn:E; [discriminate |].
  destruct (min_max_spec (x :: xs) ltac:(congruence))
    as [mn [mx [Hmn [Hmx [Imn [Imx Hb]]]]]].
  rewrite Hmin in Hmn. rewrite Hmax in Hmx.
  inversion Hmn; inversion Hmx; subst. auto.
Qed.

Lemma calculateShardRange_bounds minV maxV id :
  Int64.in_range minV -> Int64.in_range maxV ->
  In id (calculateShardRange minV maxV) -> 1 <= id <= 18446744073710.
Proof.
  intros Hmin Hmax Hin.
  destruct (Z_le_gt_dec minV 0) as [H1 | H1].
  { rewrite calculateShardRange_nonpos in Hin by (left; exact H1).
    destruct Hin as [<- | []]. lia. }
  destruct (Z_le_gt_dec maxV 0) as [H2 | H2].
  { rewrite calculateShardRange_nonpos in Hin by (right; exact H2).
    destruct Hin as [<- | []]. lia. }
  rewrite calculateShardRange_pos in Hin by (assumption || lia).
  apply Z_range_In in Hin.
  pose proof (ToShardID_bounds minV Hmin). pose proof (ToShardID_bounds maxV Hmax).
  lia.
Qed.

(** X6.  When [migrateTree] returns nil on a source whose versions are 64-bit
    integers, every row of every shard table is a row of the source branch
    table, has a version and a sequence that are not NULL, and its version is
    at least 1 and lies in the version range of that shard,
    [(id-1)*500000+1 .. id*500000]: no row is put into a wrong shard, and no
    row whose version is NULL, zero or negative is ever copied. *)
Theorem migrateTree_shard_rows_sound env old st rows :
  run_migrateTree env old = (Val tt, st) ->
  src_tree_1 old = Some rows ->
  (forall r v, In r rows -> br_version r = Some v -> Int64.in_range v) ->
  forall id tbl r,
    In (id, tbl) (dst_shards (ts_db st)) -> In r tbl ->
    In r rows /\
    exists v s,
      br_version r = Some v /\ br_sequence r = Some s /\
      1 <= id /\ 1 <= v /\ (id - 1) * 500000 + 1 <= v <= id * 500000.
Proof.
  intros Hrun Hrows Hint id tbl r Hin Hr.
  destruct (migrateTree_Val env old st Hrun)
    as [rows' [roots [Hrows' [_ [_ [_ [Hs _]]]]]]].
  rewrite Hrows in Hrows'. inversion Hrows'; subst rows'; clear Hrows'.
  pose proof (run_migrateTree_ok env old) as Hok. rewrite Hrun in Hok.
  cbn [snd] in Hok. destruct Hok as [_ [_ [Hpk _]]].
  destruct (Hpk id tbl Hin) as [_ Hnn]. specialize (Hnn r Hr).
  rewrite Hs in Hin. apply shard_tables_In in Hin.
  destruct Hin as [minV [maxV [Hmin [Hmax [Hid ->]]]]].
  apply select_shard_In in Hr. destruct Hr as [Hd [v [Hv Hw]]].
  split; [apply dedup_In; exact Hd |].
  unfold branch_pk in Hnn. rewrite Hv in Hnn.
  destruct (br_sequence r) as [s |]; [| congruence].
  exists v, s. split; [exact Hv |]. split; [reflexivity |].
  destruct (min_max_of_rows rows minV maxV Hmin Hmax) as [Imn [Imx _]].
  apply versions_In in Imn. destruct Imn as [rmn [Hrmn Hvmn]].
  apply versions_In in Imx. destruct Imx as [rmx [Hrmx Hvmx]].
  pose proof (calculateShardRange_bounds minV maxV id
                (Hint rmn minV Hrmn Hvmn) (Hint rmx maxV Hrmx Hvmx) Hid) as Hb.
  destruct (Z.eq_dec id 18446744073710) as [-> | Hne].
  { rewrite window_last_empty in Hw. discriminate. }
  apply in_window_iff in Hw; lia.
Qed.

Lemma migrateTree_shard_rows_sound_witness :
  In (mkBranch (Some 500000) (Some 1) (bytes_of "data2") false) example_rows /\
  exists v s,
    br_version (mkBranch (Some 500000) (Some 1) (bytes_of "data2") false) = Some v /\
    br_sequence (mkBranch (Some 500000) (Some 1) (bytes_of "data2") false) = Some s /\
    1 <= 1 /\ 1 <= v /\ (1 - 1) * 500000 + 1 <= v <= 1 * 500000.
Proof.
  apply (migrateTree_shard_rows_sound env_ok example_tree example_tree_final
           example_rows
           ltac:(vm_compute; reflexivity) ltac:(reflexivity)
           ltac:(intros r v Hin Hv; cbn in Hin;
                 unfold Int64.in_range, Int64.min_int, Int64.max_int;
                 repeat (destruct Hin as [<- | Hin]; [inversion Hv; subst; lia |]);
                 contradiction)
           1 (select_shard 1 500000 example_rows)).
  - vm_compute. left. reflexivity.
  - vm_compute. right. left. reflexivity.
Defined.



(** X8.  When [migrateTree] returns nil on a source whose least and greatest
    versions are positive 64-bit integers, the shard tables are exactly those
    of the shards from [ToShardID] of the least to [ToShardID] of the greatest
    version, created in ascending order, one each: a shard in between that no
    row falls into gets a table too, and that table is empty. *)
Theorem migrateTree_shard_tables_contiguous env old st rows minV maxV :
  run_migrateTree env old = (Val tt, st) ->
  src_tree_1 old = Some rows ->
  sql_min (versions rows) = Some minV ->
  sql_max (versions rows) = Some maxV ->
  0 < minV -> Int64.in_range maxV ->
  map fst (dst_shards (ts_db st)) = Z_range (ToShardID minV) (ToShardID maxV) /\
  (forall id, ToShardID minV <= id <= ToShardID maxV <->
              exists tbl, In (id, tbl) (dst_shards (ts_db st))) /\
  (forall id tbl,
     In (id, tbl) (dst_shards (ts_db st)) ->
     (forall r v, In r rows -> br_version r = Some v -> in_window id v = false) ->
     tbl = []).
Proof.
  intros Hrun Hrows Hmin Hmax Hpos Hmaxr.
  destruct (migrateTree_Val env old st Hrun)
    as [rows' [roots [Hrows' [_ [_ [_ [Hs _]]]]]]].
  rewrite Hrows in Hrows'. inversion Hrows'; subst rows'; clear Hrows'.
  destruct (min_max_of_rows rows minV maxV Hmin Hmax) as [Imn [Imx Hb]].
  assert (Hle : minV <= maxV) by (apply (Hb minV Imn)).
  assert (Hminr : Int64.in_range minV).
  { unfold Int64.in_range, Int64.min_int in *. lia. }
  assert (Hsh : dst_shards (ts_db st)
                = map (fun id => (id, select_shard (startVersion id)
                                        (endVersion id) rows))
                    (Z_range (ToShardID minV) (ToShardID maxV))).
  { rewrite Hs. unfold shard_tables. rewrite Hmin, Hmax.
    rewrite calculateShardRange_pos by (assumption || lia). reflexivity. }
  split; [| split].
  - rewrite Hsh, map_map. cbn [fst]. apply map_id.
  - intros id. rewrite <- Z_range_In, Hsh. split.
    + intros Hid. eexists. apply in_map_iff. exists id. split; [reflexivity | exact Hid].
    + intros [tbl Hin]. apply in_map_iff in Hin.
      destruct Hin as [i [E Hi]]. inversion E; subst. exact Hi.
  - intros id tbl Hin Hnone. rewrite Hsh in Hin. apply in_map_iff in Hin.
    destruct Hin as [i [E Hi]]. inversion E; subst.
    destruct (select_shard (startVersion id) (endVersion id) rows)
      as [| r rest] eqn:Es; [reflexivity |].
    assert (Hr : In r (select_shard (startVersion id) (endVersion id) rows))
      by (rewrite Es; left; reflexivity).
    apply select_shard_In in Hr. destruct Hr as [Hd [v [Hv Hw]]].
    rewrite (Hnone r v (dedup_In rows r Hd) Hv) in Hw. discriminate.
Qed.

Lemma migrateTree_shard_tables_contiguous_witness :
  map fst (dst_shards (ts_db example_tree_final)) = Z_range (ToShardID 1) (ToShardID 4312305).
Proof.
  refine (proj1 (migrateTree_shard_tables_contiguous env_ok example_tree
                   example_tree_final example_rows 1 4312305 _ _ _ _ _ _)).
  - vm_compute. reflexivity.
  - reflexivity.
  - reflexivity.
  - reflexivity.
  - lia.
  - unfold Int64.in_range, Int64.min_int, Int64.max_int. lia.
Defined.

(** X9.  On a source whose versions all lie between 1 and
    [max_safe_version], a branch row that has a version but a NULL sequence
    keeps [migrateTree] from returning nil, whatever else happens: the shard
    table of that version cannot take a row without a sequence, so the run
    ends before it completes. *)
Theorem migrateTree_null_sequence_never_nil env old rows r v :
  source_safe old = true ->
  src_tree_1 old = Some rows ->
  In r rows -> br_version r = Some v -> br_sequence r = None ->
  fst (run_migrateTree env old) <> Val tt.
Proof.
  intros Hsafe Hrows Hr Hv Hseq Hval.
  destruct (run_migrateTree env old) as [res st] eqn:Hrun.
  cbn [fst] in Hval. subst res.
  destruct (migrateTree_shards_aux env old st Hrun Hsafe)
    as [rows' [ids [Hrows' [Hs [_ [_ [Hcover _]]]]]]].
  rewrite Hrows in Hrows'. inversion Hrows'; subst rows'; clear Hrows'.
  destruct (keep_first_from_covers [] rows r Hr) as [[x [[] _]] | [x [Hx Hk]]].
  assert (Hxv : br_version x = Some v /\ br_sequence x = None).
  { unfold branch_key in Hk. inversion Hk as [[E1 E2]].
    rewrite Hv in E1. rewrite Hseq in E2. auto. }
  destruct Hxv as [Hxv Hxs].
  pose proof (source_safe_In old rows r v Hsafe Hrows Hr Hv) as Hsv.
  assert (Hin : In x (select_shard (startVersion (ToShardID v))
                        (endVersion (ToShardID v)) rows)).
  { apply select_shard_In. split; [exact Hx |]. exists v.
    split; [exact Hxv | apply in_window_own_shard; exact Hsv]. }
  pose proof (run_migrateTree_ok env old) as Hok. rewrite Hrun in Hok.
  cbn [snd] in Hok. destruct Hok as [_ [_ [Hpk _]]].
  assert (Hmem : In (ToShardID v,
                     select_shard (startVersion (ToShardID v))
                       (endVersion (ToShardID v)) rows)
                   (dst_shards (ts_db st))).
  { rewrite Hs. apply in_map_iff. exists (ToShardID v).
    split; [reflexivity | apply (Hcover r v Hr Hv)]. }
  destruct (Hpk _ _ Hmem) as [_ Hnn]. apply (Hnn x Hin).
  unfold branch_pk. rewrite Hxv, Hxs. reflexivity.
Qed.

Lemma migrateTree_null_sequence_never_nil_witness :
  fst (run_migrateTree env_ok null_sequence_tree) <> Val tt.
Proof.
  apply (migrateTree_null_sequence_never_nil env_ok null_sequence_tree
           [ mkBranch (Some 7) (Some 1) (bytes_of "a") false;
             mkBranch (Some 7) None (bytes_of "b") false ]
           (mkBranch (Some 7) None (bytes_of "b") false) 7).
  - reflexivity.
  - reflexivity.
  - right. left. reflexivity.
  - reflexivity.
  - reflexivity.
Defined.

(** ** Runs of [migrateTree] that complete *)

Lemma insert_rows_total {R K} (pk : R -> option K) (eqb : K -> K -> bool) :
  (forall a b, eqb a b = true <-> a = b) ->
  forall new tbl,
    table_ok pk (tbl ++ new) -> insert_rows pk eqb tbl new = Some (tbl ++ new).
Proof.
  intros Heq new. induction new as [| r rest IH]; intros tbl Hok; cbn.
  - rewrite app_nil_r. reflexivity.
  - destruct Hok as [Hnd Hnn].
    destruct (pk r) as [k |] eqn:Ek.
    2:{ exfalso. apply (Hnn r); [| exact Ek].
        apply in_or_app. right. left. reflexivity. }
    destruct (existsb (has_pk pk eqb k) tbl) eqn:Ex.
    { exfalso. apply existsb_exists in Ex. destruct Ex as [x [Hx Hh]].
      unfold has_pk in Hh. destruct (pk x) as [k' |] eqn:Ekx; [| discriminate].
      apply Heq in Hh. subst k'.
      rewrite map_app in Hnd. cbn [map] in Hnd.
      apply NoDup_remove_2 in Hnd. apply Hnd. apply in_or_app. left.
      rewrite Ek, <- Ekx. apply in_map. exact Hx. }
    rewrite IH.
    + rewrite <- app_assoc. reflexivity.
    + rewrite <- app_assoc. split; assumption.
Qed.


Lemma bind_run {O S A B} (m : M O S A) (k : A -> M O S B) s a s1 :
  m s = (Val a, s1) -> bind m k s = k a s1.
Proof. intros H. unfold bind. rewrite H. reflexivity. Qed.

Lemma find_shard_app id shards i :
  find_shard id shards = None -> id <> i ->
  find_shard id (shards ++ [(i, [])]) = None.
Proof.
  intros H Hne. apply find_shard_None. rewrite map_app. cbn.
  intros Hin. apply in_app_or in Hin. destruct Hin as [Hin | [E | []]].
  - apply find_shard_None in H. contradiction.
  - congruence.
Qed.



Lemma calculateShardRange_NoDup minV maxV :
  Int64.in_range minV -> Int64.in_range maxV ->
  NoDup (calculateShardRange minV maxV).
Proof.
  intros Hmin Hmax.
  destruct (Z_le_gt_dec minV 0) as [H1 | H1].
  { rewrite calculateShardRange_nonpos by (left; exact H1).
    constructor; [intros [] | constructor]. }
  destruct (Z_le_gt_dec maxV 0) as [H2 | H2].
  { rewrite calculateShardRange_nonpos by (right; exact H2).
    constructor; [intros [] | constructor]. }
  rewrite calculateShardRange_pos by (assumption || lia). apply Z_range_NoDup.
Qed.




(** ** The pooled hasher of the changelog migrator *)

Lemma same_but_hasher_refl s : same_but_hasher s s.
Proof. repeat split. Qed.

Lemma cl_step_blind old op s1 s2 :
  same_but_hasher s1 s2 ->
  match cl_step old op s1, cl_step old op s2 with
  | inl e1, inl e2 => e1 = e2
  | inr t1, inr t2 => same_but_hasher t1 t2
  | _, _ => False
  end.
Proof.
  destruct s1 as [c1 t1 a1 h1 l1], s2 as [c2 t2 a2 h2 l2].
  unfold same_but_hasher. cbn. intros [-> [-> [-> ->]]].
  unfold cl_step, set_tx.
  destruct op; cbn -[tx_stmt];
    try (destruct t2 as [tx |]; cbn -[tx_stmt]);
    try (destruct a2; cbn -[tx_stmt]);
    try (destruct (src_leaf old); cbn -[tx_stmt]);
    try match goal with
        | |- context [tx_stmt ?a ?b ?c ?d] =>
            destruct (tx_stmt a b c d); cbn -[tx_stmt]
        end;
    auto; repeat split.
Qed.

Lemma hasher_blind_ret {A} (a : A) : hasher_blind (ret a).
Proof. intros s1 s2 H. cbn. auto. Qed.

Lemma hasher_blind_fail {A} e : hasher_blind (@fail cl_op CState A e).
Proof. intros s1 s2 H. cbn. auto. Qed.

Lemma hasher_blind_bind {A B} (m : M cl_op CState A) (k : A -> M cl_op CState B) :
  hasher_blind m -> (forall a, hasher_blind (k a)) -> hasher_blind (bind m k).
Proof.
  intros Hm Hk s1 s2 H. unfold bind.
  destruct (Hm s1 s2 H) as [Hr Hs].
  destruct (m s1) as [r1 t1], (m s2) as [r2 t2]. cbn in Hr, Hs. subst r2.
  destruct r1 as [a | e | op e]; cbn; auto.
  apply Hk. exact Hs.
Qed.

Lemma hasher_blind_call env old op : hasher_blind (cl_call env old op).
Proof.
  intros s1 s2 H. unfold cl_call.
  assert (Hl : cs_log s1 = cs_log s2) by apply H.
  rewrite Hl.
  destruct (fault_at env (length (cs_log s2))) as [e |].
  - cbn. split; [reflexivity |].
    destruct H as [Hc [Ht [Ha _]]]. unfold same_but_hasher. cbn.
    rewrite Hc, Ht, Ha, Hl. auto.
  - pose proof (cl_step_blind old op s1 s2 H) as Hs.
    destruct (cl_step old op s1) as [e1 | t1], (cl_step old op s2) as [e2 | t2];
      try contradiction.
    + subst e2. cbn. split; [reflexivity |].
      destruct H as [Hc [Ht [Ha _]]]. unfold same_but_hasher. cbn.
      rewrite Hc, Ht, Ha, Hl. auto.
    + cbn. split; [reflexivity |].
      destruct Hs as [Hc [Ht [Ha Hl']]]. unfold same_but_hasher. cbn.
      rewrite Hc, Ht, Ha, Hl'. auto.
Qed.

Lemma hasher_blind_or_return env old wrap op :
  hasher_blind (or_return wrap (cl_call env old op)).
Proof.
  unfold or_return. apply hasher_blind_bind; [apply hasher_blind_call |].
  intros [e |]; [apply hasher_blind_fail | apply hasher_blind_ret].
Qed.

Lemma hasher_blind_for_each {A} (l : list A) (body : A -> M cl_op CState unit) :
  (forall x, hasher_blind (body x)) -> hasher_blind (for_each l body).
Proof.
  intros Hb. induction l as [| x l IH]; cbn [for_each].
  - apply hasher_blind_ret.
  - apply hasher_blind_bind; [apply Hb | intros _; exact IH].
Qed.

(** Resetting the hasher before the key is written makes the digest, and
    all that follows, the same whatever the hasher held. *)
Lemma hasher_blind_digest blake3 p {A} (k : list byte -> M cl_op CState A) :
  (forall h, hasher_blind (k h)) ->
  hasher_blind (bind h_Reset (fun _ => bind (h_Write p) (fun _ => bind (h_Sum blake3) k))).
Proof.
  intros Hk s1 s2 H. unfold bind at 1 2 3, h_Reset, h_Write, h_Sum.
  cbn. apply Hk. destruct H as [Hc [Ht [Ha Hl]]].
  unfold same_but_hasher. cbn. auto.
Qed.

Lemma hasher_blind_leaf_loop blake3 env old rows :
  hasher_blind (leaf_loop blake3 env old rows).
Proof.
  induction rows as [| r rest IH]; cbn [leaf_loop];
    (apply hasher_blind_bind; [apply hasher_blind_call |]);
    intros [e |]; try apply hasher_blind_ret.
  destruct (lf_version r); [| apply hasher_blind_fail].
  destruct (lf_sequence r); [| apply hasher_blind_fail].
  apply hasher_blind_digest. intros h.
  apply hasher_blind_bind; [apply hasher_blind_or_return | intros _; exact IH].
Qed.

Lemma hasher_blind_migrateChangelog blake3 env old :
  hasher_blind (migrateChangelog blake3 env old).
Proof.
  unfold migrateChangelog. destruct (negb (env_mkdir_ok env)).
  { apply hasher_blind_fail. }
  repeat (apply hasher_blind_bind;
          [first [apply hasher_blind_or_return
                 | apply hasher_blind_for_each; intros x; apply hasher_blind_or_return
                 | apply hasher_blind_leaf_loop] | intros _]).
  apply hasher_blind_or_return.
Qed.

(** X11.  The hasher comes from a pool and may hold the input of an earlier
    use.  Because it is reset before every key is written, that input never
    shows: two runs of [migrateChangelog] that differ only in what the pooled
    hasher held return the same result, commit the same tables, leave the
    same transaction and attachment, and issue the same operations with the
    same outcomes. *)
Theorem migrateChangelog_pool_independent blake3 env old pooled1 pooled2 :
  let run1 := run_migrateChangelog blake3 env old pooled1 in
  let run2 := run_migrateChangelog blake3 env old pooled2 in
  fst run1 = fst run2 /\
  cs_committed (snd run1) = cs_committed (snd run2) /\
  cs_tx (snd run1) = cs_tx (snd run2) /\
  cs_attached (snd run1) = cs_attached (snd run2) /\
  cs_log (snd run1) = cs_log (snd run2).
Proof.
  cbn zeta. unfold run_migrateChangelog.
  apply (hasher_blind_migrateChangelog blake3 env old
           (changelog_init pooled1) (changelog_init pooled2)).
  repeat split.
Qed.

(** ** How a run of the changelog migrator ends *)

Lemma cl_outcome_early e st : cl_pre st -> cl_outcome (Err e) st.
Proof.
  intros [Hc [Hcm Hd]]. left. split; [apply Hcm |]. split; [exact Hc |].
  split; [exact Hd | eauto].
Qed.

Lemma cl_outcome_fail e : cl_sat_to cl_outcome (@fail cl_op CState unit e).
Proof. intros st r st' H E. inversion E; subst. apply cl_outcome_early. exact H. Qed.

Lemma cl_outcome_bind {A} (m : M cl_op CState A) (k : A -> M cl_op CState unit) :
  cl_sat m -> (forall a, cl_sat_to cl_outcome (k a)) ->
  cl_sat_to cl_outcome (bind m k).
Proof.
  intros Hm Hk st r st' H E. unfold bind in E.
  destruct (m st) as [[a | e | op e] s1] eqn:Em;
    destruct (Hm st _ _ H Em) as [H1 Hnf].
  - exact (Hk a s1 r st' H1 E).
  - inversion E; subst. apply cl_outcome_early. exact H1.
  - exfalso. exact (Hnf op e eq_refl).
Qed.

Lemma commit_detach_outcome env old :
  cl_sat_to cl_outcome
    (bind (or_return ErrorSql (cl_call env old Commit))
       (fun _ => or_return (ErrorWrap "failed to detach old database"%string)
                   (cl_call env old Detach))).
Proof.
  intros st r st' [Hc [Hcm Hd]] E.
  unfold bind at 1, or_return at 1, bind at 1 in E.
  destruct (cl_call env old Commit st) as [rc sc] eqn:Ec.
  apply cl_call_inv in Ec.
  destruct Ec as [[s1 [-> [Hs ->]]] | [e [-> ->]]].
  - cbn in E. unfold or_return, bind in E.
    destruct (cl_call env old Detach (cl_log s1 Commit None)) as [rd sd] eqn:Ed.
    apply cl_call_inv in Ed.
    pose proof (cl_step_log _ _ _ _ Hs) as L1.
    assert (Htx : cs_tx s1 = None).
    { cbn in Hs. destruct (cs_tx st); [| discriminate].
      inversion Hs. reflexivity. }
    right. exists (cs_log st).
    destruct Ed as [[s2 [-> [Hs2 ->]]] | [e [-> ->]]]; inversion E; subst.
    + exists None. pose proof (cl_step_log _ _ _ _ Hs2) as L2.
      cbn [cl_log cs_log cs_tx] in *. rewrite L2, L1, <- app_assoc.
      split; [reflexivity |]. split; [exact Hcm |]. split; [exact Hd |].
      split; [| reflexivity].
      cbn in Hs2. rewrite Htx in Hs2. destruct (cs_attached s1); [| discriminate].
      inversion Hs2. reflexivity.
    + exists (Some e). cbn [cl_log cs_log cs_tx]. rewrite L1, <- app_assoc.
      split; [reflexivity |]. split; [exact Hcm |]. split; [exact Hd |].
      split; [exact Htx | reflexivity].
  - cbn in E. inversion E; subst. left. cbn [cl_log cs_log cs_committed].
    split.
    { intros Hin. apply in_app_or in Hin.
      destruct Hin as [Hin | [Heq | []]]; [exact (Hcm _ Hin) | discriminate]. }
    split; [exact Hc |]. split; [| eauto].
    intros e' Hin. apply in_app_or in Hin.
    destruct Hin as [Hin | [Heq | []]]; [exact (Hd _ Hin) | discriminate].
Qed.

Lemma migrateChangelog_cl_outcome blake3 env old :
  cl_sat_to cl_outcome (migrateChangelog blake3 env old).
Proof.
  unfold migrateChangelog. destruct (negb (env_mkdir_ok env)).
  { apply cl_outcome_fail. }
  apply cl_outcome_bind; [apply cl_sat_or_return; reflexivity | intros _].
  apply cl_outcome_bind.
  { apply cl_sat_for_each. intros stmt Hin. apply cl_sat_or_return.
    unfold createStmt in Hin. cbn in Hin.
    destruct Hin as [<- | [<- | [<- | []]]]; reflexivity. }
  intros _.
  apply cl_outcome_bind; [apply cl_sat_or_return; reflexivity | intros _].
  apply cl_outcome_bind; [apply cl_sat_or_return; reflexivity | intros _].
  apply cl_outcome_bind; [apply cl_sat_leaf_loop | intros _].
  apply cl_outcome_bind; [apply cl_sat_or_return; reflexivity | intros _].
  apply cl_outcome_bind; [apply cl_sat_or_return; reflexivity | intros _].
  apply commit_detach_outcome.
Qed.

(** X12.  Every run of [migrateChangelog] ends in one of two ways.  Either
    the commit has not succeeded: then nothing is committed in the
    destination, the source was never detached, and an error is returned.  Or
    the commit has succeeded: then it is the only commit issued, the
    transaction is closed, the one operation after it is the detach of the
    source, and nil is returned exactly if that detach succeeded.  So an
    error whose cause is the failed detach is returned although all the data
    are committed. *)
Theorem migrateChangelog_outcome blake3 env old pooled :
  let r := fst (run_migrateChangelog blake3 env old pooled) in
  let st := snd (run_migrateChangelog blake3 env old pooled) in
  (~ In (Commit, None) (cs_log st) /\
   cs_committed st = empty_changelog_dest /\
   (forall e, ~ In (Detach, e) (cs_log st)) /\
   exists e, r = Err e) \/
  (exists before d,
     cs_log st = before ++ [(Commit, None); (Detach, d)] /\
     (forall e, ~ In (Commit, e) before) /\
     (forall e, ~ In (Detach, e) before) /\
     cs_tx st = None /\
     match d with
     | None => r = Val tt
     | Some e => r = Err (ErrorWrap "failed to detach old database" e)
     end).
Proof.
  cbn zeta. unfold run_migrateChangelog.
  destruct (migrateChangelog blake3 env old (changelog_init pooled))
    as [r st] eqn:E. cbn [fst snd].
  exact (migrateChangelog_cl_outcome blake3 env old _ r st
           (changelog_init_pre pooled) E).
Qed.

(** ** The keys of the target leaf table *)

Lemma bytes_eqb_eq a : forall b, bytes_eqb a b = true <-> a = b.
Proof.
  induction a as [| x a IH]; intros [| y b]; cbn [bytes_eqb].
  - split; reflexivity.
  - split; discriminate.
  - split; discriminate.
  - rewrite andb_true_iff, IH. split.
    + intros [Hx ->]. apply Byte.byte_dec_bl in Hx. subst. reflexivity.
    + intros H. inversion H; subst. split; [apply Byte.byte_dec_lb |]; reflexivity.
Qed.

Lemma leaf_conflict_false r x :
  leaf_conflict true r x = false <->
  (nl_key_hash r, nl_version r) <> (nl_key_hash x, nl_version x) /\
  (nl_version r, nl_sequence r) <> (nl_version x, nl_sequence x).
Proof.
  unfold leaf_conflict. rewrite orb_false_iff. cbn [andb].
  rewrite !andb_false_iff. split.
  - intros [H1 H2]. split; intros E; inversion E as [[Ea Eb]].
    + destruct H1 as [H1 | H1].
      * assert (bytes_eqb (nl_key_hash r) (nl_key_hash x) = true)
          by (apply bytes_eqb_eq; exact Ea). congruence.
      * apply Z.eqb_neq in H1. contradiction.
    + destruct H2 as [H2 | H2]; apply Z.eqb_neq in H2; contradiction.
  - intros [H1 H2]. split.
    + destruct (bytes_eqb (nl_key_hash r) (nl_key_hash x)) eqn:Eh; [| auto].
      right. apply Z.eqb_neq. intros Ev. apply H1.
      apply bytes_eqb_eq in Eh. congruence.
    + destruct (nl_version r =? nl_version x) eqn:Ev; [| auto].
      right. apply Z.eqb_neq. intros Es. apply H2.
      apply Z.eqb_eq in Ev. congruence.
Qed.

Lemma leaf_distinct_cons a l :
  leaf_distinct (a :: l) <->
  existsb (fun x => leaf_conflict true x a) l = false /\ leaf_distinct l.
Proof.
  unfold leaf_distinct. split.
  - intros H. inversion H as [| ? ? Hf Hl]; subst. split; [| exact Hl].
    destruct (existsb _ l) eqn:Ex; [| reflexivity].
    apply existsb_exists in Ex. destruct Ex as [x [Hx Hc]].
    rewrite Forall_forall in Hf. rewrite (Hf x Hx) in Hc. discriminate.
  - intros [Hex Hl]. constructor; [| exact Hl].
    apply Forall_forall. intros x Hx.
    destruct (leaf_conflict true x a) eqn:Ec; [| reflexivity].
    assert (existsb (fun x => leaf_conflict true x a) l = true)
      by (apply existsb_exists; exists x; auto).
    congruence.
Qed.

Lemma leaf_conflict_sym r x : leaf_conflict true r x = leaf_conflict true x r.
Proof.
  destruct (leaf_conflict true x r) eqn:E.
  - destruct (leaf_conflict true r x) eqn:E'; [reflexivity |].
    apply leaf_conflict_false in E'. destruct E' as [H1 H2].
    assert (leaf_conflict true x r = false)
      by (apply leaf_conflict_false; split; congruence).
    congruence.
  - apply leaf_conflict_false in E. destruct E as [H1 H2].
    apply leaf_conflict_false. split; congruence.
Qed.

(** A table stays free of conflicts exactly if the row appended conflicts
    with none of its rows: the test of the INSERT. *)
Lemma leaf_distinct_snoc l x :
  leaf_distinct (l ++ [x]) <->
  leaf_distinct l /\ existsb (leaf_conflict true x) l = false.
Proof.
  induction l as [| a l IH]; cbn [app existsb].
  - rewrite leaf_distinct_cons. cbn [existsb]. tauto.
  - rewrite !leaf_distinct_cons, IH, existsb_app, !orb_false_iff. cbn [existsb].
    rewrite orb_false_r, (leaf_conflict_sym x a). tauto.
Qed.

Lemma leaf_distinct_app_l l l' : leaf_distinct (l ++ l') -> leaf_distinct l.
Proof.
  induction l as [| a l IH]; cbn [app]; [intros _; constructor |].
  rewrite !leaf_distinct_cons, existsb_app, orb_false_iff.
  intros [[H _] Hl]. auto.
Qed.

Lemma leaf_distinct_NoDup l :
  leaf_distinct l <->
  NoDup (map (fun x => (nl_key_hash x, nl_version x)) l) /\
  NoDup (map (fun x => (nl_version x, nl_sequence x)) l).
Proof.
  induction l as [| a l IH]; cbn [map].
  - split; [intros _; split; constructor | intros _; constructor].
  - rewrite leaf_distinct_cons, IH, !NoDup_cons_iff.
    assert (Hex : existsb (fun x => leaf_conflict true x a) l = false <->
                  ~ In (nl_key_hash a, nl_version a)
                      (map (fun x => (nl_key_hash x, nl_version x)) l) /\
                  ~ In (nl_version a, nl_sequence a)
                      (map (fun x => (nl_version x, nl_sequence x)) l)).
    { split.
      - intros Hex. split; intros Hin; apply in_map_iff in Hin;
          destruct Hin as [x [Hx Hin]];
          assert (Hc : leaf_conflict true x a = false)
            by (destruct (leaf_conflict true x a) eqn:Ec; [| reflexivity];
                assert (existsb (fun x => leaf_conflict true x a) l = true)
                  by (apply existsb_exists; exists x; auto);
                congruence);
          apply leaf_conflict_false in Hc; destruct Hc as [H1 H2]; congruence.
      - intros [H1 H2].
        destruct (existsb _ l) eqn:Ex; [| reflexivity].
        apply existsb_exists in Ex. destruct Ex as [x [Hx Hc]].
        assert (Hf : leaf_conflict true x a = false); [| congruence].
        apply leaf_conflict_false. split; intros E.
        + apply H1. rewrite <- E.
          apply (in_map (fun x => (nl_key_hash x, nl_version x))). exact Hx.
        + apply H2. rewrite <- E.
          apply (in_map (fun x => (nl_version x, nl_sequence x))). exact Hx. }
    rewrite Hex. tauto.
Qed.

(** ** Runs of the changelog migrator that return nil *)

Lemma firstn_rekey blake3 rows n new r v s :
  map Some new = map (rekey blake3) (firstn n rows) ->
  lf_version r = Some v -> lf_sequence r = Some s ->
  map Some (mkNewLeaf v s (blake3 (lf_key r)) (lf_bytes r) None :: new)
  = map (rekey blake3) (firstn (S n) (r :: rows)).
Proof.
  intros H Hv Hs. cbn [firstn map]. rewrite H, (rekey_Some blake3 r v s Hv Hs).
  reflexivity.
Qed.

(** The row loop, when it ends and the run goes on: the rows of the source
    up to some point, in order, have been inserted under the hashes of their
    keys, and the table has no two rows with one key. *)
Lemma leaf_loop_prefix blake3 env old rows :
  forall st st',
  leaf_loop blake3 env old rows st = (Val tt, st') ->
  forall tx leaves,
  cs_tx st = Some tx -> cd_leaf tx = Some leaves -> cd_leaf_idx tx = true ->
  leaf_distinct leaves ->
  exists n new,
    map Some new = map (rekey blake3) (firstn n rows) /\
    leaf_distinct (leaves ++ new) /\
    cs_tx st' = Some (mkChangelogDest (Some (leaves ++ new)) true
                        (cd_leaf_orphan tx)) /\
    cs_committed st' = cs_committed st /\
    cs_attached st' = cs_attached st /\
    (next_ok st' -> firstn n rows = rows).
Proof.
  induction rows as [| r rest IH]; intros st st' H tx leaves Htx Hleaf Hidx Hd;
    cbn [leaf_loop] in H; unfold bind at 1 in H;
    destruct (cl_call env old Next st) as [res s1] eqn:E;
    apply cl_call_inv in E;
    destruct E as [[s0 [-> [Hs ->]]] | [e [-> ->]]];
    try (inversion H; subst st'; exists 0%nat, []; cbn;
         rewrite app_nil_r, Htx, <- Hleaf, <- Hidx;
         repeat (split; [destruct tx; auto; fail |]);
         intros Hn; exfalso; apply (Hn e); cbn;
         apply in_or_app; right; left; reflexivity).
  - cbn in Hs. inversion Hs; subst s0. inversion H; subst st'.
    exists 0%nat, []. cbn. rewrite app_nil_r, Htx, <- Hleaf, <- Hidx.
    destruct tx; auto 7.
  - cbn in Hs. inversion Hs; subst s0; clear Hs.
    destruct (lf_version r) as [v |] eqn:Ev; [| discriminate].
    destruct (lf_sequence r) as [s |] eqn:Es; [| discriminate].
    cbn in H.
    apply bind_Val_inv in H. destruct H as [[] [s2 [H2 H]]].
    apply or_return_Val in H2. destruct H2 as [s3 [Hs3 ->]].
    cbn in Hs3. rewrite Htx in Hs3. cbn in Hs3. rewrite Hleaf, Hidx in Hs3.
    destruct (existsb _ leaves) eqn:Ex; [discriminate |].
    inversion Hs3; subst s3; clear Hs3.
    eapply IH in H; [| reflexivity | reflexivity | reflexivity |].
    2:{ apply leaf_distinct_snoc. split; [exact Hd | exact Ex]. }
    destruct H as [n [new [Hmap [Hd' [Htx' [Hc [Ha Hall]]]]]]].
    exists (S n), (mkNewLeaf v s (blake3 (lf_key r)) (lf_bytes r) None :: new).
    rewrite <- app_assoc in Hd', Htx'. cbn [app] in Hd', Htx'.
    split; [apply firstn_rekey; assumption |].
    split; [exact Hd' |]. split; [exact Htx' |]. split; [exact Hc |].
    split; [exact Ha |].
    intros Hn. cbn [firstn]. rewrite (Hall Hn). reflexivity.
Qed.

Lemma orphan_key_eqb_eq (a b : Z * (Z * Z)) :
  pair_eqb Z.eqb (pair_eqb Z.eqb Z.eqb) a b = true <-> a = b.
Proof.
  apply pair_eqb_eq; [apply Z.eqb_eq |]. apply pair_eqb_eq; apply Z.eqb_eq.
Qed.

(** What a run of [migrateChangelog] that returns nil has committed. *)
Lemma migrateChangelog_nil_inv blake3 env old pooled st :
  run_migrateChangelog blake3 env old pooled = (Val tt, st) ->
  exists rows orphans leaves n,
    src_leaf old = Some rows /\ src_leaf_orphan old = Some orphans /\
    map Some leaves = map (rekey blake3) (firstn n rows) /\
    (next_ok st -> firstn n rows = rows) /\
    leaf_distinct leaves /\ table_ok orphan_pk orphans /\
    cs_committed st = mkChangelogDest (Some leaves) true (Some orphans) /\
    cs_tx st = None /\ cs_attached st = false.
Proof.
  unfold run_migrateChangelog, migrateChangelog. intros H.
  destruct (env_mkdir_ok env); cbn [negb] in H; [| discriminate].
  apply bind_Val_inv in H. destruct H as [[] [s1 [H1 H]]].
  apply or_return_Val in H1. destruct H1 as [t1 [Ht1 ->]].
  cbn in Ht1. inversion Ht1; subst t1; clear Ht1.
  apply bind_Val_inv in H. destruct H as [[] [s2 [H2 H]]].
  apply create_tables_Val in H2; [| reflexivity].
  destruct H2 as [Htx2 [Hc2 [Ha2 _]]]. cbn in Hc2, Ha2.
  apply bind_Val_inv in H. destruct H as [[] [s3 [H3 H]]].
  apply or_return_Val in H3. destruct H3 as [t3 [Ht3 ->]].
  cbn in Ht3. destruct (src_leaf old) as [rows |] eqn:Hrows; [| discriminate].
  inversion Ht3; subst t3; clear Ht3.
  apply bind_Val_inv in H. destruct H as [[] [s4 [H4 H]]].
  apply or_return_Val in H4. destruct H4 as [t4 [Ht4 ->]].
  cbn in Ht4. rewrite Htx2 in Ht4. cbn in Ht4. inversion Ht4; subst t4; clear Ht4.
  apply bind_Val_inv in H. destruct H as [[] [s5 [H5 H]]].
  apply bind_Val_inv in H. destruct H as [[] [s6 [H6 H]]].
  apply or_return_Val in H6. destruct H6 as [t6 [Ht6 ->]].
  apply bind_Val_inv in H. destruct H as [[] [s7 [H7 H]]].
  apply or_return_Val in H7. destruct H7 as [t7 [Ht7 ->]].
  apply bind_Val_inv in H. destruct H as [[] [s8 [H8 H]]].
  apply or_return_Val in H8. destruct H8 as [t8 [Ht8 ->]].
  apply or_return_Val in H. destruct H as [t9 [Ht9 ->]].
  pose proof (cl_step_log _ _ _ _ Ht6) as L6.
  pose proof (cl_step_log _ _ _ _ Ht7) as L7.
  pose proof (cl_step_log _ _ _ _ Ht8) as L8.
  pose proof (cl_step_log _ _ _ _ Ht9) as L9.
  cbn [cl_log cs_log] in L7, L8, L9.
  assert (Hn5 : next_ok (cl_log t9 Detach None) -> next_ok s5).
  { intros Hn e Hin. apply (Hn e). cbn [cl_log cs_log]. rewrite L9, L8, L7, L6.
    repeat (apply in_or_app; left). exact Hin. }
  eapply (leaf_loop_prefix blake3 env old rows) in H5;
    [| cbn; reflexivity | reflexivity | reflexivity | constructor].
  destruct H5 as [n [leaves [Hmap [Hd [Htx5 [Hc5 [Ha5 Hall]]]]]]].
  cbn in Htx5, Hc5, Ha5, Hd. rewrite Hc2 in Hc5. rewrite Ha2 in Ha5.
  exists rows.
  cbn in Ht6. rewrite Htx5, Ha5 in Ht6. inversion Ht6; subst t6; clear Ht6.
  cbn in Ht7.
  destruct (src_leaf_orphan old) as [orphans |] eqn:Horph; [| discriminate].
  destruct (insert_rows orphan_pk _ [] orphans) as [tbl |] eqn:I; [| discriminate].
  pose proof (insert_rows_ok orphan_pk _ orphan_key_eqb_eq _ _ _ I
                (table_ok_nil orphan_pk)) as Hok.
  apply insert_rows_app in I. cbn in I. subst tbl.
  inversion Ht7; subst t7; clear Ht7.
  cbn in Ht8. inversion Ht8; subst t8; clear Ht8.
  cbn in Ht9. inversion Ht9; subst t9; clear Ht9.
  exists orphans, leaves, n.
  split; [reflexivity |]. split; [reflexivity |]. split; [exact Hmap |].
  split; [intros Hn; exact (Hall (Hn5 Hn)) |].
  split; [exact Hd |]. split; [exact Hok |]. cbn. auto.
Qed.

(** X13.  When [migrateChangelog] returns nil, the committed destination has
    the three schema objects and its content is this: the [leaf] table holds
    the re-keyed rows of an initial part of the source's leaf rows, in order
    (all of them unless a fetch failed), no two of them with one
    (key_hash, version) or one (version, sequence); the [leaf_orphan] table
    holds the source's rows as they are, each with its three columns set and
    no two with one key; the transaction is closed and the source
    detached. *)
Theorem migrateChangelog_nil_committed blake3 env old pooled st :
  run_migrateChangelog blake3 env old pooled = (Val tt, st) ->
  exists rows orphans leaves n,
    src_leaf old = Some rows /\ src_leaf_orphan old = Some orphans /\
    map Some leaves = map (rekey blake3) (firstn n rows) /\
    ((forall e, ~ In (Next, Some e) (cs_log st)) ->
     map Some leaves = map (rekey blake3) rows) /\
    cs_committed st = mkChangelogDest (Some leaves) true (Some orphans) /\
    NoDup (map (fun l => (nl_key_hash l, nl_version l)) leaves) /\
    NoDup (map (fun l => (nl_version l, nl_sequence l)) leaves) /\
    table_ok orphan_pk orphans /\
    cs_tx st = None /\ cs_attached st = false.
Proof.
  intros H.
  destruct (migrateChangelog_nil_inv blake3 env old pooled st H)
    as [rows [orphans [leaves [n [Hr [Ho [Hmap [Hall [Hd [Hok [Hc [Ht Ha]]]]]]]]]]]].
  apply leaf_distinct_NoDup in Hd. destruct Hd as [Hpk Hvs].
  exists rows, orphans, leaves, n.
  split; [exact Hr |]. split; [exact Ho |]. split; [exact Hmap |].
  split; [intros Hn; rewrite <- (Hall Hn); exact Hmap |].
  repeat (split; [assumption |]). exact Ha.
Qed.

Lemma migrateChangelog_nil_committed_witness :
  run_migrateChangelog const_hash (env_fault_at 8) example_changelog []
  = (Val tt,
     snd (run_migrateChangelog const_hash (env_fault_at 8) example_changelog [])) /\
  exists rows orphans leaves n,
    src_leaf example_changelog = Some rows /\
    src_leaf_orphan example_changelog = Some orphans /\
    map Some leaves = map (rekey const_hash) (firstn n rows) /\
    ((forall e,
        ~ In (Next, Some e)
            (cs_log (snd (run_migrateChangelog const_hash (env_fault_at 8)
                            example_changelog [])))) ->
     map Some leaves = map (rekey const_hash) rows) /\
    cs_committed (snd (run_migrateChangelog const_hash (env_fault_at 8)
                         example_changelog []))
    = mkChangelogDest (Some leaves) true (Some orphans) /\
    NoDup (map (fun l => (nl_key_hash l, nl_version l)) leaves) /\
    NoDup (map (fun l => (nl_version l, nl_sequence l)) leaves) /\
    table_ok orphan_pk orphans /\
    cs_tx (snd (run_migrateChangelog const_hash (env_fault_at 8)
                  example_changelog [])) = None /\
    cs_attached (snd (run_migrateChangelog const_hash (env_fault_at 8)
                        example_changelog [])) = false.
Proof.
  assert (Hrun : run_migrateChangelog const_hash (env_fault_at 8)
                   example_changelog []
                 = (Val tt,
                    snd (run_migrateChangelog const_hash (env_fault_at 8)
                           example_changelog [])))
    by (vm_compute; reflexivity).
  split; [exact Hrun |].
  exact (migrateChangelog_nil_committed const_hash (env_fault_at 8)
           example_changelog [] _ Hrun).
Defined.

(** ** Runs of the changelog migrator that complete *)

Lemma cl_call_ok env old op st s1 :
  (forall n, env_fault env n = false) ->
  cl_step old op st = inr s1 ->
  cl_call env old op st = (Val None, cl_log s1 op None).
Proof.
  intros Hnf Hs. unfold cl_call.
  rewrite (fault_at_none env _ Hnf), Hs. reflexivity.
Qed.

Lemma or_return_ok {B} env old wrap op (k : unit -> M cl_op CState B) st s1 :
  (forall n, env_fault env n = false) ->
  cl_step old op st = inr s1 ->
  bind (or_return wrap (cl_call env old op)) k st = k tt (cl_log s1 op None).
Proof.
  intros Hnf Hs. unfold bind at 1, or_return, bind.
  rewrite (cl_call_ok env old op st s1 Hnf Hs). reflexivity.
Qed.

Lemma or_return_last env old wrap op st s1 :
  (forall n, env_fault env n = false) ->
  cl_step old op st = inr s1 ->
  or_return wrap (cl_call env old op) st = (Val tt, cl_log s1 op None).
Proof.
  intros Hnf Hs. unfold or_return, bind.
  rewrite (cl_call_ok env old op st s1 Hnf Hs). reflexivity.
Qed.

(** The row loop runs through when nothing fails outside and the re-keyed
    rows do not conflict. *)
Lemma leaf_loop_run blake3 env old rows :
  (forall n, env_fault env n = false) ->
  forall new st tx leaves,
  map Some new = map (rekey blake3) rows ->
  cs_tx st = Some tx -> cd_leaf tx = Some leaves -> cd_leaf_idx tx = true ->
  leaf_distinct (leaves ++ new) ->
  exists st',
    leaf_loop blake3 env old rows st = (Val tt, st') /\
    cs_tx st' = Some (mkChangelogDest (Some (leaves ++ new)) true
                        (cd_leaf_orphan tx)) /\
    cs_committed st' = cs_committed st /\
    cs_attached st' = cs_attached st.
Proof.
  intros Hnf. induction rows as [| r rest IH];
    intros new st tx leaves Hmap Htx Hleaf Hidx Hd;
    destruct new as [| l new]; cbn [map] in Hmap; try discriminate;
    cbn [leaf_loop];
    rewrite (bind_run _ _ _ _ _ (cl_call_ok env old Next st st Hnf eq_refl)).
  - eexists. split; [reflexivity |]. cbn. rewrite app_nil_r, Htx, <- Hleaf, <- Hidx.
    destruct tx; auto.
  - injection Hmap as Hl Hmap. unfold rekey in Hl.
    destruct (lf_version r) as [v |]; [| discriminate].
    destruct (lf_sequence r) as [s |]; [| discriminate].
    inversion Hl; subst l; clear Hl.
    assert (Hd' : leaf_distinct
                    ((leaves ++ [mkNewLeaf v s (blake3 (lf_key r)) (lf_bytes r) None])
                     ++ new))
      by (rewrite <- app_assoc; exact Hd).
    pose proof (leaf_distinct_app_l _ _ Hd') as Hs.
    apply leaf_distinct_snoc in Hs. destruct Hs as [_ Hex].
    unfold bind at 1 2 3, h_Reset, h_Write, h_Sum. cbn [app].
    erewrite or_return_ok;
      [| exact Hnf
       | cbn; rewrite Htx; cbn; rewrite Hleaf, Hidx, Hex; reflexivity].
    match goal with
    | |- exists st', leaf_loop _ _ _ _ ?s0 = _ /\ _ =>
        destruct (IH new s0
                    (mkChangelogDest
                       (Some (leaves
                              ++ [mkNewLeaf v s (blake3 (lf_key r)) (lf_bytes r) None]))
                       true (cd_leaf_orphan tx))
                    _ Hmap eq_refl eq_refl eq_refl Hd')
          as [st' [Hrun [Htx' [Hc Ha]]]]
    end.
    exists st'. split; [exact Hrun |].
    rewrite Htx', Hc, Ha, <- app_assoc. cbn. auto.
Qed.

Lemma rekeyed_rows blake3 rows :
  (forall r, In r rows -> lf_version r <> None /\ lf_sequence r <> None) ->
  exists new,
    map Some new = map (rekey blake3) rows /\
    map (fun l => (nl_key_hash l, Some (nl_version l))) new
    = map (fun r => (blake3 (lf_key r), lf_version r)) rows /\
    map (fun l => (Some (nl_version l), Some (nl_sequence l))) new
    = map (fun r => (lf_version r, lf_sequence r)) rows.
Proof.
  induction rows as [| r rows IH]; intros H.
  - exists []. auto.
  - destruct IH as [new [H1 [H2 H3]]]; [intros x Hx; apply H; right; exact Hx |].
    destruct (H r (or_introl eq_refl)) as [Hv Hs].
    destruct (lf_version r) as [v |] eqn:Ev; [| congruence].
    destruct (lf_sequence r) as [s |] eqn:Es; [| congruence].
    exists (mkNewLeaf v s (blake3 (lf_key r)) (lf_bytes r) None :: new).
    cbn [map]. rewrite H1, H2, H3, (rekey_Some blake3 r v s Ev Es), Ev, Es.
    auto.
Qed.

Lemma NoDup_map_compose {A B C} (f : A -> B) (g : B -> C) l :
  NoDup (map (fun x => g (f x)) l) -> NoDup (map f l).
Proof.
  intros H. rewrite <- (map_map f g) in H. exact (NoDup_map_inv g _ H).
Qed.

(** X14.  [migrateChangelog] runs to the end and returns nil when nothing
    fails outside, the source has both tables, every leaf row has its version
    and sequence, no two leaf rows have one (key digest, version) or one
    (version, sequence), and the leaf orphans have their three columns set
    and no key twice.  It then leaves, committed, every leaf row re-keyed, in
    order, the index, and the leaf orphans as they were. *)
Theorem migrateChangelog_completes blake3 env old rows orphans pooled :
  env_mkdir_ok env = true ->
  (forall n, env_fault env n = false) ->
  src_leaf old = Some rows -> src_leaf_orphan old = Some orphans ->
  (forall r, In r rows -> lf_version r <> None /\ lf_sequence r <> None) ->
  NoDup (map (fun r => (blake3 (lf_key r), lf_version r)) rows) ->
  NoDup (map (fun r => (lf_version r, lf_sequence r)) rows) ->
  table_ok orphan_pk orphans ->
  exists st leaves,
    run_migrateChangelog blake3 env old pooled = (Val tt, st) /\
    map Some leaves = map (rekey blake3) rows /\
    cs_committed st = mkChangelogDest (Some leaves) true (Some orphans) /\
    cs_tx st = None /\ cs_attached st = false.
Proof.
  intros Hmk Hnf Hrows Horph Hset Hpk Hvs Hok.
  destruct (rekeyed_rows blake3 rows Hset) as [leaves [Hmap [Hk1 Hk2]]].
  assert (Hd : leaf_distinct ([] ++ leaves)).
  { cbn [app]. apply leaf_distinct_NoDup. split.
    - rewrite <- Hk1 in Hpk.
      exact (NoDup_map_compose (fun l => (nl_key_hash l, nl_version l))
               (fun p => (fst p, Some (snd p))) leaves Hpk).
    - rewrite <- Hk2 in Hvs.
      exact (NoDup_map_compose (fun l => (nl_version l, nl_sequence l))
               (fun p => (Some (fst p), Some (snd p))) leaves Hvs). }
  unfold run_migrateChangelog, migrateChangelog. rewrite Hmk. cbn [negb].
  erewrite or_return_ok; [| exact Hnf | reflexivity].
  cbn [for_each createStmt]. unfold bind at 1 2.
  erewrite or_return_last; [| exact Hnf | reflexivity].
  erewrite or_return_ok; [| exact Hnf | reflexivity].
  unfold bind at 1.
  erewrite or_return_last; [| exact Hnf | reflexivity].
  cbn [ret].
  erewrite or_return_ok; [| exact Hnf | cbn; rewrite Hrows; reflexivity].
  erewrite or_return_ok; [| exact Hnf | reflexivity].
  rewrite Hrows.
  match goal with
  | |- context [bind (leaf_loop _ _ _ _) _ ?s] =>
      destruct (leaf_loop_run blake3 env old rows Hnf leaves s
                  (mkChangelogDest (Some []) true (Some [])) [] Hmap
                  eq_refl eq_refl eq_refl Hd)
        as [s5 [Hrun [Htx5 [Hc5 Ha5]]]]
  end.
  rewrite (bind_run _ _ _ _ _ Hrun). cbn in Htx5, Hc5, Ha5.
  erewrite or_return_ok;
    [| exact Hnf | cbn; rewrite Htx5, Ha5; reflexivity].
  erewrite or_return_ok;
    [| exact Hnf
     | cbn; rewrite ?Htx5, Horph; cbn;
       rewrite (insert_rows_total orphan_pk _ orphan_key_eqb_eq orphans []
                  Hok); reflexivity].
  erewrite or_return_ok; [| exact Hnf | reflexivity].
  erewrite or_return_last; [| exact Hnf | reflexivity].
  eexists. exists leaves. split; [reflexivity |]. cbn. auto.
Qed.

Lemma migrateChangelog_completes_witness :
  exists st leaves,
    run_migrateChangelog const_hash env_ok example_changelog (bytes_of "stale")
    = (Val tt, st) /\
    map Some leaves
    = map (rekey const_hash)
        [ mkLeaf (Some 1) (Some 1) (bytes_of "k1") (bytes_of "v1") (Some true);
          mkLeaf (Some 2) (Some 1) (bytes_of "k2") (bytes_of "v2") None ] /\
    cs_committed st
    = mkChangelogDest (Some leaves) true (Some [mkOrphan (Some 1) (Some 1) (Some 2)]) /\
    cs_tx st = None /\ cs_attached st = false.
Proof.
  apply (migrateChangelog_completes const_hash env_ok example_changelog).
  - reflexivity.
  - intros n. reflexivity.
  - reflexivity.
  - reflexivity.
  - intros r Hin. cbn in Hin.
    repeat (destruct Hin as [<- | Hin]; [split; discriminate |]). contradiction.
  - cbn. constructor; [| constructor; [intros [] | constructor]].
    intros [E | []]. discriminate.
  - cbn. constructor; [| constructor; [intros [] | constructor]].
    intros [E | []]. discriminate.
  - split; [constructor; [intros [] | constructor] |].
    intros r [<- | []]. discriminate.
Defined.

(** ** The shard fixer *)

Lemma f_query_inv {A} env op (answer : TreeDest -> sqlerr + A) st r st' :
  f_query env op answer st = (r, st') ->
  fs_db st' = fs_db st /\
  exists a, r = inr a /\ (a = inl ErrIO \/ a = answer (fs_db st)).
Proof.
  unfold f_query, fault_at. intros H.
  destruct (env_fault env (length (fs_log st))); inversion H; subst; cbn;
    (split; [reflexivity |]); eexists; (split; [reflexivity |]); auto.
Qed.

Lemma f_exec_inv env op stmt st r st' :
  f_exec env op stmt st = (r, st') ->
  (r = inr None /\ stmt (fs_db st) = inr (fs_db st')) \/
  (exists e, r = inr (Some e) /\ fs_db st' = fs_db st).
Proof.
  unfold f_exec, fault_at. intros H.
  destruct (env_fault env (length (fs_log st))).
  - inversion H; subst. right. eauto.
  - destruct (stmt (fs_db st)) as [e | db'] eqn:E; inversion H; subst.
    + right. eauto.
    + left. auto.
Qed.

Lemma scan_tables_inv env names :
  forall existing st r st',
  scan_tables env names existing st = (r, st') ->
  fs_db st' = fs_db st /\ forall l, r = inr l -> l = existing ++ names.
Proof.
  induction names as [| n rest IH]; intros existing st r st' H;
    cbn [scan_tables] in H; unfold fbind at 1 in H;
    destruct (f_query env FNext (fun _ => inr tt) st) as [q s1] eqn:E;
    apply f_query_inv in E; destruct E as [Hdb [a [-> Ha]]];
    destruct a as [e | []].
  - inversion H; subst. split; [exact Hdb | discriminate].
  - inversion H; subst. split; [exact Hdb |].
    intros l E. inversion E. rewrite app_nil_r. reflexivity.
  - inversion H; subst. split; [exact Hdb | discriminate].
  - apply IH in H. destruct H as [Hdb' Hl]. split; [congruence |].
    intros l E. rewrite (Hl l E), <- app_assoc. reflexivity.
Qed.

Lemma find_shard_snoc x shards id :
  find_shard x (shards ++ [(id, [])]) = None ->
  find_shard x shards = None /\ x <> id.
Proof.
  rewrite !find_shard_None, map_app. cbn. intros H. split.
  - intros Hin. apply H. apply in_or_app. left. exact Hin.
  - intros E. apply H. apply in_or_app. right. left. congruence.
Qed.

(** What the creation loop does, however it ends: it appends empty tables,
    each for a needed id that had no table and was not among the names
    collected, and touches nothing else. *)
Lemma create_missing_inv env existing needed :
  forall st r st',
  create_missing env existing needed st = (r, st') ->
  exists created,
    dst_shards (fs_db st') = dst_shards (fs_db st) ++ new_shards created /\
    dst_root (fs_db st') = dst_root (fs_db st) /\
    dst_branch_orphan (fs_db st') = dst_branch_orphan (fs_db st) /\
    dst_attached (fs_db st') = dst_attached (fs_db st) /\
    (forall id, In id created -> find_shard id (dst_shards (fs_db st)) = None) /\
    NoDup created /\
    (r = inr tt ->
     created = filter (fun id => negb (shard_known existing id)) needed).
Proof.
  induction needed as [| id rest IH]; intros st r st' H; cbn [create_missing] in H.
  - inversion H; subst. exists []. cbn. rewrite app_nil_r.
    repeat split; auto; try constructor. intros i [].
  - cbn [filter]. destruct (negb (shard_known existing id)) eqn:Ek.
    2:{ exact (IH st r st' H). }
    unfold fbind in H.
    destruct (f_exec env (FCreate id) (exec_tree_stmt no_source (CreateShard id)) st)
      as [q s1] eqn:E.
    apply f_exec_inv in E. destruct E as [[-> Hs] | [e [-> Hdb]]].
    + cbn in Hs.
      destruct (find_shard id (dst_shards (fs_db st))) eqn:Ef; [discriminate |].
      inversion Hs as [Hs']; clear Hs.
      apply IH in H. destruct H as [created [Hsh [Hr [Ho [Ha [Hnew [Hnd Hok]]]]]]].
      rewrite <- Hs' in Hsh, Hr, Ho, Ha, Hnew. cbn in Hsh, Hr, Ho, Ha, Hnew.
      exists (id :: created). cbn [new_shards map].
      split; [rewrite Hsh, <- app_assoc; reflexivity |].
      split; [exact Hr |]. split; [exact Ho |]. split; [exact Ha |].
      split; [| split].
      * intros i [<- | Hi]; [exact Ef |].
        exact (proj1 (find_shard_snoc _ _ _ (Hnew i Hi))).
      * constructor; [| exact Hnd].
        intros Hi. exact (proj2 (find_shard_snoc _ _ _ (Hnew id Hi)) eq_refl).
      * intros E. rewrite (Hok E). reflexivity.
    + inversion H; subst. exists []. cbn. rewrite app_nil_r, Hdb.
      repeat split; auto; try constructor; try discriminate. intros i [].
Qed.

(** A run of the fixer is the table query, the scan of the names, the range
    query and, if both versions are there, the creation loop. *)
Lemma fix_run_inv env st0 r st :
  fixMissingShardInFile env st0 = (r, st) ->
  (fs_db st = fs_db st0 /\ exists e, r = inl e) \/
  (exists s1 roots minV maxV,
     fs_db s1 = fs_db st0 /\
     dst_root (fs_db st0) = Some roots /\
     sql_min (root_versions roots) = Some minV /\
     sql_max (root_versions roots) = Some maxV /\
     create_missing env (shard_names (fs_db st0))
       (calculateShardRange minV maxV) s1 = (r, st)).
Proof.
  unfold fixMissingShardInFile. intros H. unfold fbind at 1 in H.
  destruct (f_query env FQueryTables (fun db => inr (shard_names db)) st0)
    as [q s1] eqn:E1.
  apply f_query_inv in E1. destruct E1 as [Hdb1 [a [-> Ha]]].
  destruct a as [e | names].
  { inversion H; subst. left. eauto. }
  destruct Ha as [Ha | Ha]; [discriminate |]. inversion Ha; subst names; clear Ha.
  unfold fbind at 1 in H.
  destruct (scan_tables env (shard_names (fs_db st0)) [] s1) as [q s2] eqn:E2.
  apply scan_tables_inv in E2. destruct E2 as [Hdb2 Hl].
  destruct q as [e | existing].
  { inversion H; subst. left. split; [congruence | eauto]. }
  specialize (Hl existing eq_refl). cbn [app] in Hl. subst existing.
  unfold fbind at 1 in H.
  destruct (f_query env FQueryRange root_range s2) as [q s3] eqn:E3.
  apply f_query_inv in E3. destruct E3 as [Hdb3 [a [-> Ha]]].
  assert (Hdb : fs_db s3 = fs_db st0) by congruence.
  destruct a as [e | [[minV |] [maxV |]]].
  - assert (He : is_ErrNoRows e = false).
    { destruct Ha as [Ha | Ha]; [inversion Ha; reflexivity |].
      unfold root_range in Ha. destruct (dst_root (fs_db s2)); [discriminate |].
      inversion Ha. reflexivity. }
    rewrite He in H. inversion H; subst. left. eauto.
  - destruct Ha as [Ha | Ha]; [discriminate |].
    unfold root_range in Ha. rewrite Hdb2, Hdb1 in Ha.
    destruct (dst_root (fs_db st0)) as [roots |] eqn:Er; [| discriminate].
    inversion Ha as [[Hmin Hmax]]. right. exists s3, roots, minV, maxV. auto.
  - inversion H; subst. left. eauto.
  - inversion H; subst. left. eauto.
  - inversion H; subst. left. eauto.
Qed.

Lemma all_shard_rows_new db db' created :
  dst_shards db' = dst_shards db ++ new_shards created ->
  all_shard_rows db' = all_shard_rows db.
Proof.
  unfold all_shard_rows. intros ->. rewrite map_app, concat_app.
  assert (H : concat (map snd (new_shards created)) = []).
  { induction created as [| id l IH]; [reflexivity | exact IH]. }
  rewrite H, app_nil_r. reflexivity.
Qed.

(** X15.  Whatever the store file holds and whatever fails, the fixer only
    appends empty shard tables: each for an id that had no table, none
    twice.  The tables of the roots and of the orphans and every shard table
    that was there stay as they were, so no migrated row is lost or
    changed; tables created before a failure remain. *)
Theorem fixMissingShardInFile_only_adds env db :
  let st := snd (run_fixMissingShardInFile env db) in
  exists created,
    dst_shards (fs_db st) = dst_shards db ++ new_shards created /\
    NoDup created /\
    (forall id, In id created -> ~ In id (shard_names db)) /\
    dst_root (fs_db st) = dst_root db /\
    dst_branch_orphan (fs_db st) = dst_branch_orphan db /\
    dst_attached (fs_db st) = dst_attached db /\
    all_shard_rows (fs_db st) = all_shard_rows db.
Proof.
  cbn zeta. unfold run_fixMissingShardInFile.
  destruct (fixMissingShardInFile env (mkFState db [])) as [r st] eqn:E.
  cbn [snd]. apply fix_run_inv in E. cbn [fs_db] in E.
  destruct E as [[Hdb _] | [s1 [roots [minV [maxV [Hdb [_ [_ [_ Hc]]]]]]]]].
  - exists []. rewrite Hdb. cbn. rewrite app_nil_r.
    repeat split; auto; try constructor.
  - apply create_missing_inv in Hc.
    destruct Hc as [created [Hsh [Hr [Ho [Ha [Hnew [Hnd _]]]]]]].
    rewrite Hdb in Hsh, Hr, Ho, Ha, Hnew.
    exists created. split; [exact Hsh |]. split; [exact Hnd |].
    split; [intros id Hi; apply find_shard_None; exact (Hnew id Hi) |].
    split; [exact Hr |]. split; [exact Ho |]. split; [exact Ha |].
    exact (all_shard_rows_new db (fs_db st) created Hsh).
Qed.

Lemma shard_known_In existing id : shard_known existing id = true <-> In id existing.
Proof.
  unfold shard_known. rewrite existsb_exists. split.
  - intros [x [Hx E]]. apply Z.eqb_eq in E. subst. exact Hx.
  - intros H. exists id. split; [exact H | apply Z.eqb_refl].
Qed.

Lemma find_shard_new shards existing needed id :
  existing = map fst shards -> In id needed ->
  find_shard id
    (shards ++ new_shards (filter (fun i => negb (shard_known existing i)) needed))
  <> None.
Proof.
  intros -> Hin H. apply find_shard_None in H. apply H.
  rewrite map_app. apply in_or_app.
  destruct (shard_known (map fst shards) id) eqn:Ek.
  - left. apply shard_known_In. exact Ek.
  - right. unfold new_shards. rewrite map_map. cbn. rewrite map_id.
    apply filter_In. split; [exact Hin |]. rewrite Ek. reflexivity.
Qed.

(** X16.  When the fixer returns nil the [root] table has a least and a
    greatest version, and the store file has a table for every shard of
    [calculateShardRange] on them: the tables it had, and after them an empty
    table for each shard of the range that had none, in the order of the
    range. *)
Theorem fixMissingShardInFile_nil env db st :
  run_fixMissingShardInFile env db = (inr tt, st) ->
  exists roots minV maxV,
    dst_root db = Some roots /\
    sql_min (root_versions roots) = Some minV /\
    sql_max (root_versions roots) = Some maxV /\
    dst_shards (fs_db st)
    = dst_shards db
      ++ new_shards (filter (fun id => negb (shard_known (shard_names db) id))
                       (calculateShardRange minV maxV)) /\
    forall id, In id (calculateShardRange minV maxV) ->
               find_shard id (dst_shards (fs_db st)) <> None.
Proof.
  unfold run_fixMissingShardInFile. intros H.
  apply fix_run_inv in H. cbn [fs_db] in H.
  destruct H as [[_ [e He]] | [s1 [roots [minV [maxV [Hdb [Hr [Hmin [Hmax Hc]]]]]]]]];
    [discriminate |].
  apply create_missing_inv in Hc.
  destruct Hc as [created [Hsh [_ [_ [_ [_ [_ Hok]]]]]]].
  rewrite (Hok eq_refl), Hdb in Hsh.
  exists roots, minV, maxV. repeat (split; [assumption |]).
  intros id Hin. rewrite Hsh. apply find_shard_new; [reflexivity | exact Hin].
Qed.

Lemma fixMissingShardInFile_nil_witness :
  run_fixMissingShardInFile env_ok short_tree
  = (inr tt, snd (run_fixMissingShardInFile env_ok short_tree)) /\
  exists roots minV maxV,
    dst_root short_tree = Some roots /\
    sql_min (root_versions roots) = Some minV /\
    sql_max (root_versions roots) = Some maxV /\
    dst_shards (fs_db (snd (run_fixMissingShardInFile env_ok short_tree)))
    = dst_shards short_tree
      ++ new_shards (filter (fun id => negb (shard_known (shard_names short_tree) id))
                       (calculateShardRange minV maxV)) /\
    forall id, In id (calculateShardRange minV maxV) ->
               find_shard id
                 (dst_shards (fs_db (snd (run_fixMissingShardInFile env_ok
                                            short_tree)))) <> None.
Proof.
  assert (Hrun : run_fixMissingShardInFile env_ok short_tree
                 = (inr tt, snd (run_fixMissingShardInFile env_ok short_tree)))
    by (vm_compute; reflexivity).
  split; [exact Hrun |].
  exact (fixMissingShardInFile_nil env_ok short_tree _ Hrun).
Defined.

Lemma f_query_ok {A} env op (answer : TreeDest -> sqlerr + A) st :
  (forall n, env_fault env n = false) ->
  exists st', f_query env op answer st = (inr (answer (fs_db st)), st') /\
              fs_db st' = fs_db st.
Proof.
  intros Hnf. unfold f_query. rewrite (fault_at_none env _ Hnf).
  eexists. split; reflexivity.
Qed.

Lemma scan_tables_run env names :
  (forall n, env_fault env n = false) ->
  forall existing st,
  exists st', scan_tables env names existing st = (inr (existing ++ names), st') /\
              fs_db st' = fs_db st.
Proof.
  intros Hnf. induction names as [| n rest IH]; intros existing st;
    cbn [scan_tables]; unfold fbind at 1;
    destruct (f_query_ok env FNext (fun _ => inr tt) st Hnf) as [s1 [-> Hdb]].
  - exists s1. rewrite app_nil_r. auto.
  - destruct (IH (existing ++ [n]) s1) as [st' [Hrun Hdb']].
    exists st'. rewrite Hrun, <- app_assoc. split; [reflexivity | congruence].
Qed.

Lemma create_missing_noop env existing needed st :
  (forall id, In id needed -> In id existing) ->
  create_missing env existing needed st = (inr tt, st).
Proof.
  induction needed as [| id rest IH]; intros H; cbn [create_missing].
  - reflexivity.
  - rewrite (proj2 (shard_known_In existing id) (H id (or_introl eq_refl))).
    cbn [negb]. apply IH. intros i Hi. apply H. right. exact Hi.
Qed.

(** X17.  On a store file whose [root] table has no version (it is empty,
    as after the migration of an empty store, or all its versions are NULL)
    the fixer returns an error and changes nothing, whatever else happens.
    When no operation fails that error is the failed scan of NULL into an
    integer: the branch for [sql.ErrNoRows], which would return nil, is not
    taken. *)
Theorem fixMissingShardInFile_no_versions env db roots :
  dst_root db = Some roots -> root_versions roots = [] ->
  (exists e, fst (run_fixMissingShardInFile env db) = inl e) /\
  fs_db (snd (run_fixMissingShardInFile env db)) = db /\
  ((forall n, env_fault env n = false) ->
   fst (run_fixMissingShardInFile env db)
   = inl (FixWrap "failed to query version range" CauseScanNull)).
Proof.
  intros Hr Hv. unfold run_fixMissingShardInFile.
  split; [| split].
  - destruct (fixMissingShardInFile env (mkFState db [])) as [r st] eqn:E.
    apply fix_run_inv in E. cbn [fs_db fst] in *.
    destruct E as [[_ He] | [s1 [roots' [minV [maxV [_ [Hr' [Hmin _]]]]]]]];
      [exact He |].
    rewrite Hr in Hr'. inversion Hr'; subst roots'. rewrite Hv in Hmin.
    discriminate.
  - destruct (fixMissingShardInFile env (mkFState db [])) as [r st] eqn:E.
    apply fix_run_inv in E. cbn [fs_db snd] in *.
    destruct E as [[Hdb _] | [s1 [roots' [minV [maxV [_ [Hr' [Hmin _]]]]]]]];
      [exact Hdb |].
    rewrite Hr in Hr'. inversion Hr'; subst roots'. rewrite Hv in Hmin.
    discriminate.
  - intros Hnf. unfold fixMissingShardInFile. unfold fbind at 1.
    destruct (f_query_ok env FQueryTables (fun db => inr (shard_names db))
                (mkFState db []) Hnf) as [s1 [-> Hdb1]].
    unfold fbind at 1.
    destruct (scan_tables_run env (shard_names (fs_db (mkFState db []))) Hnf [] s1)
      as [s2 [-> Hdb2]].
    unfold fbind at 1.
    destruct (f_query_ok env FQueryRange root_range s2 Hnf) as [s3 [-> Hdb3]].
    unfold root_range. rewrite Hdb2, Hdb1. cbn [fs_db]. rewrite Hr, Hv.
    reflexivity.
Qed.

Lemma fixMissingShardInFile_no_versions_witness :
  dst_root (ts_db (snd (run_migrateTree env_ok empty_tree))) = Some [] /\
  (exists e,
     fst (run_fixMissingShardInFile env_ok
            (ts_db (snd (run_migrateTree env_ok empty_tree)))) = inl e) /\
  fs_db (snd (run_fixMissingShardInFile env_ok
                (ts_db (snd (run_migrateTree env_ok empty_tree)))))
  = ts_db (snd (run_migrateTree env_ok empty_tree)) /\
  ((forall n, env_fault env_ok n = false) ->
   fst (run_fixMissingShardInFile env_ok
          (ts_db (snd (run_migrateTree env_ok empty_tree))))
   = inl (FixWrap "failed to query version range" CauseScanNull)).
Proof.
  split; [reflexivity |].
  apply (fixMissingShardInFile_no_versions env_ok
           (ts_db (snd (run_migrateTree env_ok empty_tree))) []);
    reflexivity.
Defined.

(** X18.  The fixer is idempotent: on the store file a run that returned nil
    has left, a second run in which nothing fails returns nil and leaves the
    file as it is. *)
Theorem fixMissingShardInFile_idempotent env1 env2 db st1 :
  run_fixMissingShardInFile env1 db = (inr tt, st1) ->
  (forall n, env_fault env2 n = false) ->
  exists st2,
    run_fixMissingShardInFile env2 (fs_db st1) = (inr tt, st2) /\
    fs_db st2 = fs_db st1.
Proof.
  unfold run_fixMissingShardInFile. intros H Hnf.
  apply fix_run_inv in H. cbn [fs_db] in H.
  destruct H as [[_ [e He]] | [s1 [roots [minV [maxV [Hdb [Hr [Hmin [Hmax Hc]]]]]]]]];
    [discriminate |].
  apply create_missing_inv in Hc.
  destruct Hc as [created [Hsh [Hroot [_ [_ [_ [_ Hok]]]]]]].
  rewrite (Hok eq_refl), Hdb in Hsh. rewrite Hdb in Hroot.
  unfold fixMissingShardInFile. unfold fbind at 1.
  destruct (f_query_ok env2 FQueryTables (fun db => inr (shard_names db))
              (mkFState (fs_db st1) []) Hnf) as [t1 [-> Hdb1]].
  unfold fbind at 1.
  destruct (scan_tables_run env2 (shard_names (fs_db (mkFState (fs_db st1) [])))
              Hnf [] t1) as [t2 [-> Hdb2]].
  unfold fbind at 1.
  destruct (f_query_ok env2 FQueryRange root_range t2 Hnf) as [t3 [-> Hdb3]].
  unfold root_range. rewrite Hdb2, Hdb1. cbn [fs_db app]. rewrite Hroot, Hr, Hmin, Hmax.
  exists t3. split; [| cbn [fs_db] in Hdb1; congruence].
  apply create_missing_noop. intros id Hin.
  unfold shard_names. rewrite Hsh.
  destruct (find_shard id
              (dst_shards db
               ++ new_shards (filter (fun i => negb (shard_known (shard_names db) i))
                                (calculateShardRange minV maxV)))) eqn:Ef.
  - destruct (in_dec Z.eq_dec id
                (map fst (dst_shards db
                          ++ new_shards
                               (filter (fun i => negb (shard_known (shard_names db) i))
                                  (calculateShardRange minV maxV)))))
      as [Hi | Hn]; [exact Hi |].
    apply find_shard_None in Hn. congruence.
  - exfalso. revert Ef. apply find_shard_new; [reflexivity | exact Hin].
Qed.

Lemma fixMissingShardInFile_idempotent_witness :
  run_fixMissingShardInFile env_ok short_tree
  = (inr tt, snd (run_fixMissingShardInFile env_ok short_tree)) /\
  exists st2,
    run_fixMissingShardInFile env_ok
      (fs_db (snd (run_fixMissingShardInFile env_ok short_tree))) = (inr tt, st2) /\
    fs_db st2 = fs_db (snd (run_fixMissingShardInFile env_ok short_tree)).
Proof.
  assert (Hrun : run_fixMissingShardInFile env_ok short_tree
                 = (inr tt, snd (run_fixMissingShardInFile env_ok short_tree)))
    by (vm_compute; reflexivity).
  split; [exact Hrun |].
  apply (fixMissingShardInFile_idempotent env_ok env_ok short_tree _ Hrun).
  intros n. reflexivity.
Defined.

(** ** Runs of the shard fixer that complete *)

Lemma root_versions_In roots v :
  In v (root_versions roots) <-> exists r, In r roots /\ rt_version r = Some v.
Proof.
  unfold root_versions. rewrite in_flat_map. split.
  - intros [r [Hr Hv]]. exists r. split; [assumption |].
    destruct (rt_version r) as [w |]; [| contradiction].
    destruct Hv as [-> | []]. reflexivity.
  - intros [r [Hr Hv]]. exists r. split; [assumption |].
    rewrite Hv. left. reflexivity.
Qed.

Lemma f_exec_ok env op stmt st db' :
  (forall n, env_fault env n = false) ->
  stmt (fs_db st) = inr db' ->
  f_exec env op stmt st = (inr None, mkFState db' (fs_log st ++ [(op, None)])).
Proof.
  intros Hnf Hs. unfold f_exec. rewrite (fault_at_none env _ Hnf), Hs.
  reflexivity.
Qed.

(** The creation loop runs through when nothing fails outside, no shard is
    needed twice and the names collected are those of the tables. *)
Lemma create_missing_run env existing needed :
  (forall n, env_fault env n = false) ->
  forall st,
  NoDup needed ->
  (forall id, In id needed -> shard_known existing id = false ->
              find_shard id (dst_shards (fs_db st)) = None) ->
  exists st',
    create_missing env existing needed st = (inr tt, st') /\
    fs_db st'
    = mkTreeDest (dst_root (fs_db st)) (dst_branch_orphan (fs_db st))
        (dst_shards (fs_db st)
         ++ new_shards (filter (fun id => negb (shard_known existing id)) needed))
        (dst_attached (fs_db st)).
Proof.
  intros Hnf. induction needed as [| id rest IH]; intros st Hnd Hnew;
    cbn [create_missing filter].
  - exists st. split; [reflexivity |]. cbn. rewrite app_nil_r.
    destruct (fs_db st); reflexivity.
  - inversion Hnd as [| ? ? Hni Hnd']; subst.
    destruct (shard_known existing id) eqn:Ek; cbn [negb].
    + apply IH; [exact Hnd' |]. intros i Hi. apply Hnew. right. exact Hi.
    + unfold fbind.
      erewrite f_exec_ok;
        [| exact Hnf
         | cbn; rewrite (Hnew id (or_introl eq_refl) Ek); reflexivity].
      match goal with
      | |- exists st', create_missing _ _ _ ?s1 = _ /\ _ =>
          destruct (IH s1 Hnd') as [st' [Hrun Hdb]]
      end.
      { intros i Hi Hk. cbn. apply find_shard_app.
        - apply Hnew; [right; exact Hi | exact Hk].
        - intros E. subst i. contradiction. }
      exists st'. split; [exact Hrun |].
      rewrite Hdb. cbn. rewrite <- app_assoc. reflexivity.
Qed.

(** X19.  The fixer completes whenever nothing fails outside the data: if
    the [root] table exists and has a version, and its versions are 64-bit
    integers, the run returns nil and leaves the store file with its tables
    as they were and, after them, an empty table for each shard of
    [calculateShardRange] on the least and greatest root version that had
    none. *)
Theorem fixMissingShardInFile_completes env db roots :
  (forall n, env_fault env n = false) ->
  dst_root db = Some roots ->
  root_versions roots <> [] ->
  (forall v, In v (root_versions roots) -> Int64.in_range v) ->
  exists st minV maxV,
    run_fixMissingShardInFile env db = (inr tt, st) /\
    sql_min (root_versions roots) = Some minV /\
    sql_max (root_versions roots) = Some maxV /\
    fs_db st
    = mkTreeDest (dst_root db) (dst_branch_orphan db)
        (dst_shards db
         ++ new_shards (filter (fun id => negb (shard_known (shard_names db) id))
                          (calculateShardRange minV maxV)))
        (dst_attached db).
Proof.
  intros Hnf Hr Hne Hrange.
  destruct (min_max_spec (root_versions roots) Hne)
    as [minV [maxV [Hmin [Hmax [Hmi [Hma _]]]]]].
  unfold run_fixMissingShardInFile, fixMissingShardInFile. unfold fbind at 1.
  destruct (f_query_ok env FQueryTables (fun db => inr (shard_names db))
              (mkFState db []) Hnf) as [s1 [-> Hdb1]].
  unfold fbind at 1.
  destruct (scan_tables_run env (shard_names (fs_db (mkFState db []))) Hnf [] s1)
    as [s2 [-> Hdb2]].
  unfold fbind at 1.
  destruct (f_query_ok env FQueryRange root_range s2 Hnf) as [s3 [-> Hdb3]].
  cbn [fs_db app] in *.
  assert (Hdb : fs_db s3 = db) by congruence.
  unfold root_range. rewrite Hdb2, Hdb1, Hr, Hmin, Hmax.
  destruct (create_missing_run env (shard_names db)
              (calculateShardRange minV maxV) Hnf s3) as [st [Hrun Hst]].
  - apply calculateShardRange_NoDup; apply Hrange; assumption.
  - intros id _ Hk. rewrite Hdb. apply find_shard_None. intros Hin.
    apply shard_known_In in Hin. unfold shard_names in Hk. congruence.
  - exists st, minV, maxV. rewrite Hdb, Hr in Hst. auto.
Qed.

Lemma fixMissingShardInFile_completes_witness :
  exists st minV maxV,
    run_fixMissingShardInFile env_ok short_tree = (inr tt, st) /\
    sql_min (root_versions
               [ mkRoot (Some 1200000) (Some 1200000) (Some 1) (bytes_of "r2");
                 mkRoot (Some 10) (Some 10) (Some 1) (bytes_of "r1") ]) = Some minV /\
    sql_max (root_versions
               [ mkRoot (Some 1200000) (Some 1200000) (Some 1) (bytes_of "r2");
                 mkRoot (Some 10) (Some 10) (Some 1) (bytes_of "r1") ]) = Some maxV /\
    fs_db st
    = mkTreeDest (dst_root short_tree) (dst_branch_orphan short_tree)
        (dst_shards short_tree
         ++ new_shards (filter (fun id => negb (shard_known (shard_names short_tree) id))
                          (calculateShardRange minV maxV)))
        (dst_attached short_tree).
Proof.
  apply (fixMissingShardInFile_completes env_ok short_tree).
  - intros n. reflexivity.
  - reflexivity.
  - discriminate.
  - intros v Hin. cbn in Hin.
    unfold Int64.in_range, Int64.min_int, Int64.max_int.
    destruct Hin as [<- | [<- | []]]; lia.
Defined.

(** ** Fetches of the changelog migrator when nothing fails outside *)

Lemma keeps_next_ok_ret {A} (a : A) : keeps_next_ok (ret a).
Proof. intros st r st' H E. inversion E; subst. exact H. Qed.

Lemma keeps_next_ok_fail {A} e : keeps_next_ok (@fail cl_op CState A e).
Proof. intros st r st' H E. inversion E; subst. exact H. Qed.

Lemma keeps_next_ok_bind {A B} (m : M cl_op CState A) (k : A -> M cl_op CState B) :
  keeps_next_ok m -> (forall a, keeps_next_ok (k a)) -> keeps_next_ok (bind m k).
Proof.
  intros Hm Hk st r st' H E. unfold bind in E.
  destruct (m st) as [[a | e | op e] s1] eqn:Em; pose proof (Hm st _ _ H Em) as H1.
  - exact (Hk a s1 r st' H1 E).
  - inversion E; subst. exact H1.
  - inversion E; subst. exact H1.
Qed.

Lemma keeps_next_ok_for_each {A} (l : list A) (body : A -> M cl_op CState unit) :
  (forall x, keeps_next_ok (body x)) -> keeps_next_ok (for_each l body).
Proof.
  intros Hb. induction l as [| x l IH]; cbn [for_each].
  - apply keeps_next_ok_ret.
  - apply keeps_next_ok_bind; [apply Hb | intros _; exact IH].
Qed.

(** A fetch fails only for an outside reason. *)
Lemma keeps_next_ok_call env old op :
  (forall n, env_fault env n = false) -> keeps_next_ok (cl_call env old op).
Proof.
  intros Hnf st r st' H E. unfold cl_call in E.
  rewrite (fault_at_none env _ Hnf) in E.
  destruct (cl_step old op st) as [e | s1] eqn:Es; inversion E; subst;
    intros e' Hin; cbn in Hin; apply in_app_or in Hin.
  - destruct Hin as [Hin | [Heq | []]]; [exact (H e' Hin) |].
    inversion Heq; subst. cbn in Es. discriminate.
  - rewrite (cl_step_log _ _ _ _ Es) in Hin.
    destruct Hin as [Hin | [Heq | []]]; [exact (H e' Hin) | discriminate].
Qed.

Lemma keeps_next_ok_or_return env old wrap op :
  (forall n, env_fault env n = false) ->
  keeps_next_ok (or_return wrap (cl_call env old op)).
Proof.
  intros Hnf. unfold or_return.
  apply keeps_next_ok_bind; [apply keeps_next_ok_call; exact Hnf |].
  intros [e |]; [apply keeps_next_ok_fail | apply keeps_next_ok_ret].
Qed.

Lemma keeps_next_ok_hasher (f : CState -> list byte) {A} (a : CState -> A) :
  keeps_next_ok (fun st => (Val (a st),
                            mkCState (cs_committed st) (cs_tx st) (cs_attached st)
                              (f st) (cs_log st))).
Proof. intros st r st' H E. inversion E; subst. exact H. Qed.

Lemma keeps_next_ok_leaf_loop blake3 env old rows :
  (forall n, env_fault env n = false) ->
  keeps_next_ok (leaf_loop blake3 env old rows).
Proof.
  intros Hnf. induction rows as [| r rest IH]; cbn [leaf_loop];
    (apply keeps_next_ok_bind; [apply keeps_next_ok_call; exact Hnf |]);
    intros [e |]; try apply keeps_next_ok_ret.
  destruct (lf_version r); [| apply keeps_next_ok_fail].
  destruct (lf_sequence r); [| apply keeps_next_ok_fail].
  apply keeps_next_ok_bind;
    [apply (keeps_next_ok_hasher (fun _ => []) (fun _ => tt)) |].
  intros _.
  apply keeps_next_ok_bind;
    [apply (keeps_next_ok_hasher (fun st => cs_hasher st ++ lf_key r) (fun _ => tt)) |].
  intros _.
  apply keeps_next_ok_bind.
  { intros st res st' H E. inversion E; subst. exact H. }
  intros keyHash.
  apply keeps_next_ok_bind; [apply keeps_next_ok_or_return; exact Hnf |].
  intros _. exact IH.
Qed.

Lemma keeps_next_ok_migrateChangelog blake3 env old :
  (forall n, env_fault env n = false) ->
  keeps_next_ok (migrateChangelog blake3 env old).
Proof.
  intros Hnf. unfold migrateChangelog. destruct (negb (env_mkdir_ok env)).
  { apply keeps_next_ok_fail. }
  repeat (apply keeps_next_ok_bind;
          [first [apply keeps_next_ok_or_return; exact Hnf
                 | apply keeps_next_ok_for_each; intros x;
                   apply keeps_next_ok_or_return; exact Hnf
                 | apply keeps_next_ok_leaf_loop; exact Hnf] | intros _]).
  apply keeps_next_ok_or_return. exact Hnf.
Qed.

Lemma rekey_all_set blake3 rows leaves :
  map Some leaves = map (rekey blake3) rows ->
  (forall r, In r rows -> lf_version r <> None /\ lf_sequence r <> None) /\
  map (fun r => (blake3 (lf_key r), lf_version r)) rows
  = map (fun l => (nl_key_hash l, Some (nl_version l))) leaves /\
  map (fun r => (lf_version r, lf_sequence r)) rows
  = map (fun l => (Some (nl_version l), Some (nl_sequence l))) leaves.
Proof.
  revert leaves. induction rows as [| r rows IH]; intros [| l leaves] H;
    cbn [map] in H; try discriminate.
  - split; [intros r [] | split; reflexivity].
  - injection H as Hl H. destruct (IH leaves H) as [H1 [H2 H3]].
    unfold rekey in Hl.
    destruct (lf_version r) as [v |] eqn:Ev; [| discriminate].
    destruct (lf_sequence r) as [s |] eqn:Es; [| discriminate].
    inversion Hl; subst l; clear Hl. cbn [map]. rewrite H2, H3, Ev, Es. cbn.
    split; [| split; reflexivity].
    intros x [<- | Hx]; [rewrite Ev, Es; split; discriminate | exact (H1 x Hx)].
Qed.

(** X20.  The converse of X14.  When nothing fails outside,
    [migrateChangelog] returns nil only on a source that has both tables,
    whose leaf rows all have a version and a sequence, no two of them with
    one (key digest, version) or one (version, sequence), and whose leaf
    orphans have their three columns set and no key twice; and then every
    leaf row, not only an initial part, is committed re-keyed. *)
Theorem migrateChangelog_nil_only_if blake3 env old pooled st :
  (forall n, env_fault env n = false) ->
  run_migrateChangelog blake3 env old pooled = (Val tt, st) ->
  exists rows orphans leaves,
    src_leaf old = Some rows /\ src_leaf_orphan old = Some orphans /\
    (forall r, In r rows -> lf_version r <> None /\ lf_sequence r <> None) /\
    NoDup (map (fun r => (blake3 (lf_key r), lf_version r)) rows) /\
    NoDup (map (fun r => (lf_version r, lf_sequence r)) rows) /\
    table_ok orphan_pk orphans /\
    map Some leaves = map (rekey blake3) rows /\
    cs_committed st = mkChangelogDest (Some leaves) true (Some orphans).
Proof.
  intros Hnf H.
  assert (Hn : next_ok st).
  { apply (keeps_next_ok_migrateChangelog blake3 env old Hnf
             (changelog_init pooled) (Val tt) st); [intros e [] | exact H]. }
  destruct (migrateChangelog_nil_inv blake3 env old pooled st H)
    as [rows [orphans [leaves [n [Hr [Ho [Hmap [Hall [Hd [Hok [Hc _]]]]]]]]]]].
  rewrite (Hall Hn) in Hmap.
  destruct (rekey_all_set blake3 rows leaves Hmap) as [Hset [Hk1 Hk2]].
  apply leaf_distinct_NoDup in Hd. destruct Hd as [Hpk Hvs].
  exists rows, orphans, leaves.
  split; [exact Hr |]. split; [exact Ho |]. split; [exact Hset |].
  split; [| split; [| split; [exact Hok | split; [exact Hmap | exact Hc]]]].
  - rewrite Hk1.
    apply (NoDup_map_inv (fun p : list byte * option Z =>
                            (fst p, match snd p with Some v => v | None => 0 end))).
    rewrite map_map. cbn. exact Hpk.
  - rewrite Hk2.
    apply (NoDup_map_inv (fun p : option Z * option Z =>
                            (match fst p with Some v => v | None => 0 end,
                             match snd p with Some v => v | None => 0 end))).
    rewrite map_map. cbn. exact Hvs.
Qed.

Lemma migrateChangelog_nil_only_if_witness :
  run_migrateChangelog const_hash env_ok example_changelog []
  = (Val tt, snd (run_migrateChangelog const_hash env_ok example_changelog [])) /\
  exists rows orphans leaves,
    src_leaf example_changelog = Some rows /\
    src_leaf_orphan example_changelog = Some orphans /\
    (forall r, In r rows -> lf_version r <> None /\ lf_sequence r <> None) /\
    NoDup (map (fun r => (const_hash (lf_key r), lf_version r)) rows) /\
    NoDup (map (fun r => (lf_version r, lf_sequence r)) rows) /\
    table_ok orphan_pk orphans /\
    map Some leaves = map (rekey const_hash) rows /\
    cs_committed (snd (run_migrateChangelog const_hash env_ok example_changelog []))
    = mkChangelogDest (Some leaves) true (Some orphans).
Proof.
  assert (Hrun : run_migrateChangelog const_hash env_ok example_changelog []
                 = (Val tt,
                    snd (run_migrateChangelog const_hash env_ok
                           example_changelog [])))
    by (vm_compute; reflexivity).
  split; [exact Hrun |].
  apply (migrateChangelog_nil_only_if const_hash env_ok example_changelog [] _
           (fun n => eq_refl) Hrun).
Defined.
